(** * Body streams of the Next.js server

    A shallow embedding of [packages/next/src/server/body-streams.ts]:
    the push-to-pull adapter [requestToBodyStream], the cloneable request
    body ([getCloneableBody] with its [cloneBodyStream] and [finalize], and
    [replaceRequestBody]) and the response drainers behind
    [streamToNodeResponse]; and of [Streamable], the counting stream of
    [test/e2e/cancel-request/streamable.ts] that the drainers are tested
    with.

    JavaScript objects are finite maps from property names to values, kept
    in a heap indexed by references, so that aliasing (one object reached
    through two references, one state shared by two objects) is visible.  A
    Node stream is such an object: what it buffers and who listens to it are
    reached through its [_readableState] and [_events] properties, which is
    what makes copying the properties of one stream onto another meaningful.
    Event listeners are the closures the source creates, one constructor per
    closure; emitting an event runs the listeners registered for it in the
    order of registration.  An [async] function is split at its [await]: the
    part that runs at the call, and the continuation that runs once the
    awaited promise is settled.  What the source does not decide (when a
    stream emits, when a read is settled, when the response closes) is an
    event of a run, and the properties quantify over runs. *)

From Stdlib Require Import ZArith NArith.
From Stdlib.Strings Require Import Byte.
From stdpp Require Import base tactics option list strings gmap pretty.

(** References into the heap of JavaScript objects. *)
Abbreviation ref := nat (only parsing).

(** A chunk of body bytes as an immutable value. *)
Abbreviation chunk := (list byte) (only parsing).

(** ** JavaScript values and objects *)
Module JS.

(** A function value is native code, or the result of [f.bind(thisArg)]. *)
Inductive fn :=
| FNative (name : string)
| FBound (target : fn) (this : ref).

Inductive value :=
| VUndefined
| VNull
| VBool (b : bool)
| VNum (n : Z)
| VStr (s : string)
| VObj (r : ref)       (* an ordinary object, for instance an Error *)
| VFun (f : fn)
| VEvents (c : nat)    (* the listener table held in [_events] *)
| VState (c : nat).    (* the buffer state held in [_readableState] *)

#[global] Instance fn_eq_dec : EqDecision fn.
Proof. solve_decision. Defined.
#[global] Instance value_eq_dec : EqDecision value.
Proof. solve_decision. Defined.

(** ToBoolean. *)
Definition truthy (v : value) : bool :=
  match v with
  | VUndefined | VNull => false
  | VBool b => b
  | VNum n => negb (n =? 0)%Z
  | VStr s => negb (String.eqb s "")
  | VObj _ | VFun _ | VEvents _ | VState _ => true
  end.

Definition typeof (v : value) : string :=
  match v with
  | VUndefined => "undefined"
  | VNull => "object"
  | VBool _ => "boolean"
  | VNum _ => "number"
  | VStr _ => "string"
  | VFun _ => "function"
  | VObj _ | VEvents _ | VState _ => "object"
  end.

(** The receiver a function runs with whatever object it is called on:
    the innermost [bind] wins, native code has none. *)
Fixpoint bound_this (f : fn) : option ref :=
  match f with
  | FNative _ => None
  | FBound target this =>
      match bound_this target with
      | Some r => Some r
      | None => Some this
      end
  end.

(** The receiver of the method call [o.f(...)]. *)
Definition receiver (o : ref) (f : fn) : ref := default o (bound_this f).

Fixpoint native_code (f : fn) : string :=
  match f with
  | FNative name => name
  | FBound target _ => native_code target
  end.

(** [v.bind(thisArg)], used on functions only. *)
Definition bind (v : value) (this : ref) : value :=
  match v with
  | VFun f => VFun (FBound f this)
  | _ => v
  end.

(** A property: its value and whether [for ... in] enumerates it. An object
    is the table of the properties visible through it, its own and the ones
    it inherits, which is what [o[key]] and [for ... in] go by. *)
Record prop := { pval : value; penum : bool }.

#[global] Instance prop_eq_dec : EqDecision prop.
Proof. solve_decision. Defined.

Abbreviation obj := (gmap string prop).
Abbreviation heap := (list (gmap string prop)).

Definition obj_at (h : heap) (r : ref) : obj := default ∅ (h !! r).

(** [o[key]] *)
Definition get (h : heap) (r : ref) (key : string) : value :=
  match obj_at h r !! key with
  | Some p => pval p
  | None => VUndefined
  end.

(** [o[key] = v]: an existing property keeps its attributes, a new one is
    enumerable. *)
Definition put (o : obj) (key : string) (v : value) : obj :=
  <[key := {| pval := v; penum := from_option penum true (o !! key) |}]> o.

Definition set (h : heap) (r : ref) (key : string) (v : value) : heap :=
  <[r := put (obj_at h r) key v]> h.

(** The keys [for (const key in o)] visits: the enumerable ones, each once.
    (The order of the visit has no bearing on the loops below.) *)
Definition for_in (o : obj) : list string :=
  (map_to_list (filter (λ kp, penum kp.2 = true) o)).*1.

End JS.

Import JS.

(** ** replaceRequestBody *)

(** The body of the loop, for the keys still to visit. *)
Fixpoint replace_keys (keys : list string) (base stream : ref) (h : heap) : heap :=
  match keys with
  | [] => h
  | key :: rest =>
      let v := get h stream key in
      let v := if decide (typeof v = "function") then bind v base else v in
      replace_keys rest base stream (set h base key v)
  end.

Definition replaceRequestBody (base stream : ref) (h : heap) : heap :=
  replace_keys (for_in (obj_at h stream)) base stream h.

(** What the loop stores under a key whose value in [stream] is [v]. *)
Definition rebound (base : ref) (v : value) : value :=
  if decide (typeof v = "function") then bind v base else v.

(** The spec's reading of the rebinding: a copied function runs with the
    replacement stream as its receiver. *)
Definition spec_rebinds_to_replacement (base stream : ref) (h : heap) : Prop :=
  ∀ key p f,
    obj_at h stream !! key = Some p → pval p = VFun f →
    ∃ f', get (replaceRequestBody base stream h) base key = VFun f' ∧
          bound_this f' = Some stream.

(** The spec's reading of the copy: every property of the replacement is
    found on the original afterwards. *)
Definition spec_copies_every_property (base stream : ref) (h : heap) : Prop :=
  ∀ key p,
    obj_at h stream !! key = Some p →
    is_Some (obj_at (replaceRequestBody base stream h) base !! key).

(** Two objects: a request with a [url], and a stream with a method and a
    property that is not enumerable. *)
Definition two_objects : heap :=
  [ {[ "url" := {| pval := VStr "/"; penum := true |} ]};
    <[ "read" := {| pval := VFun (FNative "read"); penum := true |} ]>
      {[ "destroyed" := {| pval := VBool false; penum := false |} ]} ].

(** An object with two enumerable properties, and the request it is copied
    onto. *)
Definition two_keys : heap :=
  [ {[ "url" := {| pval := VStr "/"; penum := true |} ]};
    <[ "read" := {| pval := VFun (FNative "read"); penum := true |} ]>
      {[ "readable" := {| pval := VBool true; penum := true |} ]} ].

(** ** requestToBodyStream *)
Module Adapter.

(** Typed arrays ([Buffer], [Uint8Array]) are references to byte buffers in a
    store, so that a copy and an alias differ. *)
Abbreviation store := (list (list byte)).

(** The state of the [ReadableStream] controller handed to [start]. *)
Inductive cstate :=
| Readable
| CloseRequested
| Errored (e : value).

(** The three closures [start] registers on the push stream. *)
Inductive listener :=
| OnData     (* chunk => controller.enqueue(new KUint8Array([...new Uint8Array(chunk)])) *)
| OnEnd      (* () => controller.close() *)
| OnError.   (* err => controller.error(err) *)

Inductive event :=
| EvData (chunk : ref)
| EvEnd
| EvError (err : ref).

Record world := {
  buffers : store;            (* the bytes behind every typed array *)
  emitted : list ref;         (* the chunks the push stream has emitted *)
  listeners : list listener;  (* what is registered on the push stream *)
  state : cstate;
  queue : list ref;           (* enqueued and not yet read *)
  enqueued : list ref;        (* every chunk [enqueue] has accepted *)
  uncaught : nat              (* exceptions thrown out of a listener *)
}.

Definition bytes_at (st : store) (r : ref) : list byte := default [] (st !! r).

Definition with_buffers (st : store) (w : world) : world :=
  {| buffers := st; emitted := emitted w; listeners := listeners w;
     state := state w; queue := queue w; enqueued := enqueued w;
     uncaught := uncaught w |}.

Definition alloc (bs : list byte) (w : world) : ref * world :=
  (length (buffers w), with_buffers (buffers w ++ [bs]) w).

(** [new Uint8Array(chunk)] for a typed array [chunk]: a new buffer holding a
    copy of the elements. *)
Definition Uint8Array_of (chunk : ref) (w : world) : ref * world :=
  alloc (bytes_at (buffers w) chunk) w.

(** [[...a]]: the elements as numbers. *)
Definition spread (a : ref) (w : world) : list N :=
  Byte.to_N <$> bytes_at (buffers w) a.

Definition ToUint8 (n : N) : byte := default x00 (Byte.of_N (n mod 256)).

(** [new KUint8Array(items)] for an array of numbers. *)
Definition KUint8Array_of (items : list N) (w : world) : ref * world :=
  alloc (ToUint8 <$> items) w.

Definition throws (w : world) : world :=
  {| buffers := buffers w; emitted := emitted w; listeners := listeners w;
     state := state w; queue := queue w; enqueued := enqueued w;
     uncaught := S (uncaught w) |}.

(** [controller.enqueue(c)]: a TypeError unless the stream is readable and
    no close was requested. *)
Definition enqueue (c : ref) (w : world) : world :=
  match state w with
  | Readable =>
      {| buffers := buffers w; emitted := emitted w; listeners := listeners w;
         state := Readable; queue := queue w ++ [c];
         enqueued := enqueued w ++ [c]; uncaught := uncaught w |}
  | _ => throws w
  end.

Definition with_state (s : cstate) (q : list ref) (w : world) : world :=
  {| buffers := buffers w; emitted := emitted w; listeners := listeners w;
     state := s; queue := q; enqueued := enqueued w; uncaught := uncaught w |}.

(** [controller.close()]: what is queued stays readable, then reads are done. *)
Definition close (w : world) : world :=
  match state w with
  | Readable => with_state CloseRequested (queue w) w
  | _ => throws w
  end.

(** [controller.error(e)]: drops the queue; nothing on a stream that is
    closed or errored already. *)
Definition error (e : value) (w : world) : world :=
  match state w with
  | Readable => with_state (Errored e) [] w
  | CloseRequested =>
      match queue w with
      | [] => w
      | _ :: _ => with_state (Errored e) [] w
      end
  | Errored _ => w
  end.

Definition run_listener (l : listener) (ev : event) (w : world) : world :=
  match l, ev with
  | OnData, EvData chunk =>
      let '(a, w) := Uint8Array_of chunk w in
      let '(k, w) := KUint8Array_of (spread a w) w in
      enqueue k w
  | OnEnd, EvEnd => close w
  | OnError, EvError err => error (VObj err) w
  | _, _ => w   (* registered for another event *)
  end.

Definition emit (ev : event) (w : world) : world :=
  foldl (λ w l, run_listener l ev w) w (listeners w).

(** [new context.ReadableStream({ start(controller) { ... } })]: the
    constructor runs [start], which registers the three listeners. *)
Definition requestToBodyStream (st : store) : world :=
  {| buffers := st; emitted := []; listeners := [OnData; OnEnd; OnError];
     state := Readable; queue := []; enqueued := []; uncaught := 0 |}.

(** What the push stream and its owner do: emit a chunk held in a buffer of
    their own, end, fail, or overwrite a chunk emitted earlier (a transport
    reusing its buffers). *)
Inductive action :=
| Data (bs : list byte)
| End
| Error (err : ref)
| Scribble (i : nat) (bs : list byte).

Definition step (a : action) (w : world) : world :=
  match a with
  | Data bs =>
      let '(chunk, w) := alloc bs w in
      emit (EvData chunk)
        {| buffers := buffers w; emitted := emitted w ++ [chunk];
           listeners := listeners w; state := state w; queue := queue w;
           enqueued := enqueued w; uncaught := uncaught w |}
  | End => emit EvEnd w
  | Error err => emit (EvError err) w
  | Scribble i bs =>
      match emitted w !! i with
      | Some chunk => with_buffers (<[chunk := bs]> (buffers w)) w
      | None => w
      end
  end.

Definition run (tr : list action) (w : world) : world := foldl (λ w a, step a w) w tr.

(** The bytes the push stream emitted, in order. *)
Definition data_of (tr : list action) : list (list byte) :=
  omap (λ a, match a with Data bs => Some bs | _ => None end) tr.

(** What successive [read()]s of the pull stream return before [done]. *)
Definition yields (w : world) : list (list byte) := bytes_at (buffers w) <$> queue w.

(** *** Notions used to state the properties *)

(** While the push stream is running. *)
Definition streaming (a : action) : bool :=
  match a with
  | Data _ | Scribble _ _ => true
  | End | Error _ => false
  end.

(** What holds of the adapter while the push stream is running: the
    controller is readable, nothing was read, every chunk enqueued sits in a
    buffer of its own, allocated after the call, and holds [acc]. *)
Record adapting (st : store) (acc : list (list byte)) (w : world) : Prop := {
  ad_listeners : listeners w = [OnData; OnEnd; OnError];
  ad_state : state w = Readable;
  ad_queue : queue w = enqueued w;
  ad_uncaught : uncaught w = 0;
  ad_emitted : ∀ c, c ∈ emitted w → c < length (buffers w);
  ad_enqueued : ∀ c, c ∈ enqueued w →
                  c < length (buffers w) ∧ (c ∉ emitted w) ∧ length st ≤ c;
  ad_bytes : bytes_at (buffers w) <$> enqueued w = acc
}.

(** The events whose listener calls [enqueue] or [close], which throw once
    the controller is closed or errored. *)
Definition feeds (a : action) : bool :=
  match a with
  | Data _ | End => true
  | Error _ | Scribble _ _ => false
  end.

(** What holds of the adapter whatever the push stream does: every chunk
    enqueued sits in a buffer that is no chunk of the push stream, and the
    chunks enqueued hold [acc]. *)
Record kept (acc : list (list byte)) (w : world) : Prop := {
  kp_listeners : listeners w = [OnData; OnEnd; OnError];
  kp_emitted : ∀ c, c ∈ emitted w → c < length (buffers w);
  kp_enqueued : ∀ c, c ∈ enqueued w → c < length (buffers w) ∧ (c ∉ emitted w);
  kp_bytes : bytes_at (buffers w) <$> enqueued w = acc
}.

End Adapter.

(** ** getCloneableBody *)
Module Body.

(** What a [Readable] keeps in [_readableState]: the chunks pushed and not
    yet delivered, whether [push(null)] was seen, whether 'end' went out, and
    whether the stream was errored by a push after the end. *)
Record rstate := {
  buffer : list chunk;
  ended : bool;
  endEmitted : bool;
  errored : bool
}.

Definition fresh_rstate : rstate :=
  {| buffer := []; ended := false; endEmitted := false; errored := false |}.

(** [push(chunk)] and [push(null)] on the state. *)
Definition pushed (x : option chunk) (st : rstate) : rstate :=
  match x with
  | None =>
      {| buffer := buffer st; ended := true; endEmitted := endEmitted st;
         errored := errored st |}
  | Some c =>
      if ended st
      then {| buffer := buffer st; ended := true; endEmitted := endEmitted st;
              errored := true |}
      else {| buffer := buffer st ++ [c]; ended := false;
              endEmitted := endEmitted st; errored := errored st |}
  end.

Inductive event :=
| EvData (c : chunk)
| EvEnd
| EvError (err : ref).   (* the Error object the stream failed with *)

(** The closures the source registers as listeners. *)
Inductive listener :=
| Resolve                  (* readable.on('end', resolve) *)
| Reject                   (* readable.on('error', reject) *)
| TeeData (p1 p2 : ref)    (* input.on('data', chunk => { p1.push(chunk); p2.push(chunk) }) *)
| TeeEnd (p1 p2 : ref).    (* input.on('end', () => { p1.push(null); p2.push(null) }) *)

#[global] Instance listener_eq_dec : EqDecision listener.
Proof. solve_decision. Defined.

(** The promise built in [getCloneableBody], before its [catch]. *)
Inductive promise :=
| Pending
| Fulfilled
| Rejected (reason : value).

(** What [endPromise] is fulfilled with: [undefined], or [{ error }]. *)
Inductive awaited :=
| AUndefined
| AError (error : value).

(** The promise a call of [finalize] returned. *)
Inductive outcome :=
| Awaiting
| Resolved
| RejectedWith (e : value).

Record world := {
  heap : JS.heap;
  tables : list (list listener);   (* the [_events] tables *)
  states : list rstate;            (* the [_readableState] objects *)
  readable : ref;
  buffered : option ref;
  settled : promise;
  finalizers : list outcome        (* one per call of [finalize] *)
}.

Definition set_heap (h : JS.heap) (w : world) : world :=
  {| heap := h; tables := tables w; states := states w; readable := readable w;
     buffered := buffered w; settled := settled w; finalizers := finalizers w |}.
Definition set_tables (t : list (list listener)) (w : world) : world :=
  {| heap := heap w; tables := t; states := states w; readable := readable w;
     buffered := buffered w; settled := settled w; finalizers := finalizers w |}.
Definition set_states (s : list rstate) (w : world) : world :=
  {| heap := heap w; tables := tables w; states := s; readable := readable w;
     buffered := buffered w; settled := settled w; finalizers := finalizers w |}.
Definition set_buffered (b : option ref) (w : world) : world :=
  {| heap := heap w; tables := tables w; states := states w; readable := readable w;
     buffered := b; settled := settled w; finalizers := finalizers w |}.
Definition set_settled (p : promise) (w : world) : world :=
  {| heap := heap w; tables := tables w; states := states w; readable := readable w;
     buffered := buffered w; settled := p; finalizers := finalizers w |}.
Definition set_finalizers (f : list outcome) (w : world) : world :=
  {| heap := heap w; tables := tables w; states := states w; readable := readable w;
     buffered := buffered w; settled := settled w; finalizers := f |}.

(** *** Computations that may throw *)

Inductive result (A : Type) :=
| Ok (a : A)
| Throw (e : value).
Arguments Ok {A} a.
Arguments Throw {A} e.

Definition M (A : Type) : Type := world → result A * world.

Definition ret {A} (a : A) : M A := λ w, (Ok a, w).

Definition and_then {A B} (m : M A) (k : A → M B) : M B :=
  λ w, match m w with
       | (Ok a, w) => k a w
       | (Throw e, w) => (Throw e, w)
       end.

Notation "x <- m ;; k" := (and_then m (λ x, k))
  (at level 62, m at next level, right associativity).
Notation "m ;;; k" := (and_then m (λ _, k))
  (at level 62, right associativity).

Definition modify (f : world → world) : M unit := λ w, (Ok tt, f w).

(** [throw new TypeError(...)]: the error is an object of its own. *)
Definition type_error {A} : M A :=
  λ w, (Throw (VObj (length (heap w))),
        set_heap (heap w ++ [{["name" := {| pval := VStr "TypeError"; penum := false |}]}]) w).

(** *** Node's streams, as far as the source uses them *)

(** [this._events] *)
Definition events_of (r : ref) : M nat :=
  λ w, match get (heap w) r "_events" with
       | VEvents c => (Ok c, w)
       | _ => type_error w
       end.

(** [this._readableState] *)
Definition state_of (r : ref) : M nat :=
  λ w, match get (heap w) r "_readableState" with
       | VState c => (Ok c, w)
       | _ => type_error w
       end.

(** The function behind the method call [r.name(...)] and the receiver it
    runs with: the property must hold Node's implementation of the method,
    bound (then the innermost [bind] decides) or not (then it runs on [r]). *)
Definition callee (r : ref) (name : string) (v : value) : option ref :=
  match v with
  | VFun f => if decide (native_code f = name) then Some (receiver r f) else None
  | _ => None
  end.

Definition method_of (h : JS.heap) (r : ref) (name : string) : option ref :=
  callee r name (get h r name).

Definition method (r : ref) (name : string) : M ref :=
  λ w, match method_of (heap w) r name with
       | Some this => (Ok this, w)
       | None => type_error w
       end.

(** [r.on(name, l)]: the listener goes last in the table of the receiver. *)
Definition on (r : ref) (l : listener) : M unit :=
  this <- method r "on" ;;
  c <- events_of this ;;
  modify (λ w, set_tables (alter (λ ls, ls ++ [l]) c (tables w)) w).

(** [r.push(x)] *)
Definition push (r : ref) (x : option chunk) : M unit :=
  this <- method r "push" ;;
  s <- state_of this ;;
  modify (λ w, set_states (alter (pushed x) s (states w)) w).

(** [resolve()] and [reject(reason)]: a promise is settled once. *)
Definition settle (p : promise) : M unit :=
  modify (λ w, match settled w with
               | Pending => set_settled p w
               | _ => w
               end).

(** A listener called for an event; each closure is registered for one
    event name and is not called for the others. *)
Definition run_listener (l : listener) (ev : event) : M unit :=
  match l, ev with
  | Resolve, EvEnd => settle Fulfilled
  | Reject, EvError err => settle (Rejected (VObj err))
  | TeeData p1 p2, EvData chunk => push p1 (Some chunk) ;;; push p2 (Some chunk)
  | TeeEnd p1 p2, EvEnd => push p1 None ;;; push p2 None
  | _, _ => ret tt
  end.

Definition listens (ev : event) (l : listener) : bool :=
  match l, ev with
  | Resolve, EvEnd | Reject, EvError _ | TeeData _ _, EvData _ | TeeEnd _ _, EvEnd => true
  | _, _ => false
  end.

Fixpoint run_listeners (ls : list listener) (ev : event) : M unit :=
  match ls with
  | [] => ret tt
  | l :: ls => run_listener l ev ;;; run_listeners ls ev
  end.

(** [r.emit(name, arg)]: the listeners registered when the event is emitted
    run in the order of their registration; an 'error' nobody listens for is
    thrown. *)
Definition emit (r : ref) (ev : event) : M unit :=
  c <- events_of r ;;
  λ w, let ls := default [] (tables w !! c) in
       match ev with
       | EvError err =>
           if existsb (listens ev) ls then run_listeners ls ev w
           else (Throw (VObj err), w)
       | _ => run_listeners ls ev w
       end.

(** A stream with a 'data' listener is flowing: it delivers what was pushed
    to it, one chunk at a time, and then 'end'. *)
Definition flow (r : ref) : M unit :=
  s <- state_of r ;;
  c <- events_of r ;;
  λ w, let st := default fresh_rstate (states w !! s) in
       let flowing := existsb (listens (EvData [])) (default [] (tables w !! c)) in
       if flowing then
         match buffer st with
         | chunk :: rest =>
             emit r (EvData chunk)
               (set_states (<[s := {| buffer := rest; ended := ended st;
                                      endEmitted := endEmitted st;
                                      errored := errored st |}]> (states w)) w)
         | [] =>
             if ended st && negb (endEmitted st) then
               emit r EvEnd
                 (set_states (<[s := {| buffer := []; ended := true;
                                        endEmitted := true;
                                        errored := errored st |}]> (states w)) w)
             else (Ok tt, w)
         end
       else (Ok tt, w).

Definition enumerable (v : value) : prop := {| pval := v; penum := true |}.

(** The enumerable properties of a [PassThrough]: its own state and the
    methods it inherits. *)
Definition passthrough (events state : nat) : obj :=
  list_to_map
    [("_events", enumerable (VEvents events));
     ("_readableState", enumerable (VState state));
     ("on", enumerable (VFun (FNative "on")));
     ("push", enumerable (VFun (FNative "push")));
     ("read", enumerable (VFun (FNative "read")));
     ("pipe", enumerable (VFun (FNative "pipe")))].

(** [new PassThrough()] *)
Definition new_PassThrough : M ref :=
  λ w, (Ok (length (heap w)),
        {| heap := heap w ++ [passthrough (length (tables w)) (length (states w))];
           tables := tables w ++ [[]];
           states := states w ++ [fresh_rstate];
           readable := readable w; buffered := buffered w;
           settled := settled w; finalizers := finalizers w |}).

(** *** The source *)

(** [getCloneableBody(readable)], over the objects that exist at the call.
    The executor of the promise registers the two listeners; an exception in
    the executor rejects the promise. *)
Definition getCloneableBody (readable : ref) (h : JS.heap)
    (t : list (list listener)) (s : list rstate) : world :=
  let w := {| heap := h; tables := t; states := s; readable := readable;
              buffered := None; settled := Pending; finalizers := [] |} in
  match (on readable Resolve ;;; on readable Reject) w with
  | (Ok _, w) => w
  | (Throw e, w) => set_settled (Rejected e) w
  end.

(** [endPromise]: the promise above followed by
    [.catch((error) => { return { error } })]. *)
Definition endPromise (w : world) : option awaited :=
  match settled w with
  | Pending => None
  | Fulfilled => Some AUndefined
  | Rejected error => Some (AError error)
  end.

Definition truthy_awaited (res : awaited) : bool :=
  match res with AUndefined => false | AError _ => true end.
Definition typeof_awaited (res : awaited) : string :=
  match res with AUndefined => "undefined" | AError _ => "object" end.
(** [res.error] *)
Definition error_of (res : awaited) : value :=
  match res with AUndefined => VUndefined | AError error => error end.

(** [cloneBodyStream()] *)
Definition cloneBodyStream : M ref :=
  λ w, (let input := default (readable w) (buffered w) in
        p1 <- new_PassThrough ;;
        p2 <- new_PassThrough ;;
        on input (TeeData p1 p2) ;;;
        on input (TeeEnd p1 p2) ;;;
        modify (set_buffered (Some p2)) ;;;
        ret p1) w.

(** [finalize()] up to its [await]: without a clone the promise it returns
    is resolved at once. *)
Definition finalize_call (w : world) : outcome :=
  match buffered w with
  | Some _ => Awaiting
  | None => Resolved
  end.

(** [finalize()] after [await endPromise], which waits while the promise is
    pending. *)
Definition finalize_resume (w : world) : outcome * world :=
  match endPromise w with
  | None => (Awaiting, w)
  | Some res =>
      if truthy_awaited res && bool_decide (typeof_awaited res = "object")
         && truthy (error_of res)
      then (RejectedWith (error_of res), w)
      else
        let h := match buffered w with
                 | Some b => replaceRequestBody (readable w) b (heap w)
                 | None => heap w   (* [for ... in null] has no keys *)
                 end in
        (Resolved, set_buffered (Some (readable w)) (set_heap h w))
  end.

(** A call of [finalize] whose continuation runs at once. *)
Definition finalize (w : world) : outcome * world :=
  match finalize_call w with
  | Awaiting => finalize_resume w
  | o => (o, w)
  end.

(** *** Runs *)

(** What happens around the cloneable body: a stream emits an event or
    delivers what it buffered, the owner of the body calls one of its two
    methods, a suspended [finalize] is resumed. *)
Inductive action :=
| Emit (r : ref) (ev : event)
| Flow (r : ref)
| CallClone
| CallFinalize
| Resume (i : nat).

Definition step (a : action) (w : world) : world :=
  match a with
  | Emit r ev => (emit r ev w).2
  | Flow r => (flow r w).2
  | CallClone => (cloneBodyStream w).2
  | CallFinalize => set_finalizers (finalizers w ++ [finalize_call w]) w
  | Resume i =>
      match finalizers w !! i with
      | Some Awaiting =>
          let '(o, w) := finalize_resume w in
          set_finalizers (<[i := o]> (finalizers w)) w
      | _ => w
      end
  end.

Definition run (tr : list action) (w : world) : world := foldl (λ w a, step a w) w tr.

(** The listener table and the buffer state an object gives access to. *)
Definition table_of (h : JS.heap) (r : ref) : option nat :=
  match get h r "_events" with
  | VEvents c => Some c
  | _ => None
  end.

Definition cell_of (h : JS.heap) (r : ref) : option nat :=
  match get h r "_readableState" with
  | VState s => Some s
  | _ => None
  end.

(** The state of stream [r]: what was pushed to it and is not yet
    delivered. *)
Definition state_at (w : world) (r : ref) : rstate :=
  match cell_of (heap w) r with
  | Some s => default fresh_rstate (states w !! s)
  | None => fresh_rstate
  end.

(** The streams a listener pushes to. *)
Definition targets (l : listener) : list ref :=
  match l with
  | TeeData p1 p2 | TeeEnd p1 p2 => [p1; p2]
  | Resolve | Reject => []
  end.

Definition data_targets (ls : list listener) : list ref :=
  ls ≫= (λ l, match l with TeeData p1 p2 => [p1; p2] | _ => [] end).

(** An [IncomingMessage] as the HTTP server hands it over: a [Readable] with
    properties of its own. *)
Definition incoming_message (events state : nat) (url : string) : obj :=
  list_to_map
    [("_events", enumerable (VEvents events));
     ("_readableState", enumerable (VState state));
     ("on", enumerable (VFun (FNative "on")));
     ("push", enumerable (VFun (FNative "push")));
     ("read", enumerable (VFun (FNative "read")));
     ("pipe", enumerable (VFun (FNative "pipe")));
     ("setTimeout", enumerable (VFun (FNative "setTimeout")));
     ("url", enumerable (VStr url));
     ("complete", enumerable (VBool false))].

(** The cloneable body of a request that has just arrived. *)
Definition incoming (url : string) : world :=
  getCloneableBody 0 [incoming_message 0 0 url] [[]] [fresh_rstate].

(** *** Notions used to state the properties *)

(** A branch of a tee: a [PassThrough] made by [cloneBodyStream], which
    nothing modifies afterwards. *)
Definition is_branch (w : world) (q : ref) : Prop :=
  q ≠ readable w ∧
  ∃ e s, heap w !! q = Some (passthrough e s) ∧
         e < length (tables w) ∧ s < length (states w).

(** What holds of every world the cloneable body of a request can reach. *)
Record wf (w : world) : Prop := {
  wf_stream : is_Some (table_of (heap w) (readable w)) ∧
              is_Some (cell_of (heap w) (readable w)) ∧
              method_of (heap w) (readable w) "on" = Some (readable w);
  wf_buffered : ∀ b, buffered w = Some b → b = readable w ∨ is_branch w b;
  wf_tables : ∀ r c, table_of (heap w) r = Some c → c < length (tables w);
  wf_states : ∀ r s, cell_of (heap w) r = Some s → s < length (states w);
  wf_targets : ∀ c ls l q,
      tables w !! c = Some ls → l ∈ ls → q ∈ targets l → is_branch w q;
  wf_nodup : ∀ c ls,
      tables w !! c = Some ls → NoDup (omap (cell_of (heap w)) (data_targets ls));
  wf_acyclic : ∀ r c s ls,
      table_of (heap w) r = Some c → cell_of (heap w) r = Some s →
      tables w !! c = Some ls → s ∉ omap (cell_of (heap w)) (data_targets ls);
  wf_pending : settled w = Pending →
      buffered w ≠ Some (readable w) ∧
      ∃ c ls, table_of (heap w) (readable w) = Some c ∧
              tables w !! c = Some ls ∧ Resolve ∈ ls ∧ Reject ∈ ls
}.

(** An object that is no stream, such as an Error. *)
Definition plain (o : obj) : Prop :=
  o !! "_events" = None ∧ o !! "_readableState" = None.

(** [w'] differs from [w] in what was pushed, in the promise if it was
    pending, and in new objects that are no streams. *)
Record grows (w w' : world) : Prop := {
  g_readable : readable w' = readable w;
  g_buffered : buffered w' = buffered w;
  g_tables : tables w' = tables w;
  g_states : length (states w') = length (states w);
  g_heap : ∃ ext, heap w' = heap w ++ ext ∧ Forall plain ext;
  g_settled : settled w ≠ Pending → settled w' = settled w;
  g_finalizers : finalizers w' = finalizers w
}.

Definition growing {A} (m : M A) : Prop := ∀ w, grows w (m w).2.

(** One [push(chunk)] on each of the given states, in order. *)
Definition push_all (x : chunk) (cells : list nat) (st : list rstate) : list rstate :=
  foldl (λ st s, alter (pushed (Some x)) s st) st cells.

(** One [push(null)] on each of the given states. *)
Definition end_all (cells : list nat) (st : list rstate) : list rstate :=
  foldl (λ st s, alter (pushed None) s st) st cells.

Definition end_targets (ls : list listener) : list ref :=
  ls ≫= (λ l, match l with TeeEnd p1 p2 => [p1; p2] | _ => [] end).

(** A branch that has received [acc] and neither an end nor an error. *)
Definition live (w : world) (p : ref) (acc : list chunk) : Prop :=
  ∃ s st, cell_of (heap w) p = Some s ∧ states w !! s = Some st ∧
          buffer st = acc ∧ ended st = false ∧ errored st = false.

(** The chunks among the events. *)
Definition data_of_events (evs : list event) : list chunk :=
  omap (λ ev, match ev with EvData c => Some c | _ => None end) evs.

(** The world after [cloneBodyStream()], for an input whose listeners are in
    table [c]. *)
Definition cloned (w : world) (c : nat) : world :=
  let p1 := length (heap w) in
  let p2 := S (length (heap w)) in
  {| heap := heap w ++ [passthrough (length (tables w)) (length (states w));
                        passthrough (S (length (tables w))) (S (length (states w)))];
     tables := alter (λ ls, ls ++ [TeeData p1 p2; TeeEnd p1 p2]) c (tables w)
               ++ [[]; []];
     states := states w ++ [fresh_rstate; fresh_rstate];
     readable := readable w; buffered := Some p2; settled := settled w;
     finalizers := finalizers w |}.

(** The promise after [reject(err)]. *)
Definition rejected (err : ref) (w : world) : world :=
  match settled w with
  | Pending => set_settled (Rejected (VObj err)) w
  | _ => w
  end.

(** A world whose original stream failed with [e] before it ended, after a
    clone was taken: the original object [o] is as it was. *)
Record failed (rd : ref) (o : obj) (e : ref) (w : world) : Prop := {
  fl_wf : wf w;
  fl_readable : readable w = rd;
  fl_object : obj_at (heap w) rd = o;
  fl_settled : settled w = Rejected (VObj e);
  fl_buffered : ∃ b, buffered w = Some b ∧ b ≠ rd
}.

(** The world after the substitution of [b] for the original stream. *)
Definition finalized (w : world) (b : ref) : world :=
  set_buffered (Some (readable w))
    (set_heap (replaceRequestBody (readable w) b (heap w)) w).

(** Two values of a property behave alike as methods of object [o]: they
    are the same value, or functions that run the same code with the same
    receiver when called on [o]. *)
Definition same_method (o : ref) (v1 v2 : value) : Prop :=
  v1 = v2 ∨
  ∃ f1 f2, v1 = VFun f1 ∧ v2 = VFun f2 ∧
           native_code f1 = native_code f2 ∧ receiver o f1 = receiver o f2.

(** The spec's reading of idempotence: a second [finalize] leaves the world
    the first one produced. *)
Definition spec_finalize_idempotent (w : world) : Prop :=
  (finalize (finalize w).2).2 = (finalize w).2.

(** The request of the examples: a clone is taken, the body [a b c] arrives
    and ends. *)
Definition teed_request : world :=
  run [CallClone; Emit 0 (EvData ["a"]%byte); Emit 0 (EvData ["b"]%byte);
       Emit 0 (EvData ["c"]%byte); Emit 0 EvEnd] (incoming "/").

(** What can happen while the body is still arriving: streams emit chunks,
    and the owner of the body calls its methods or resumes them. *)
Definition arriving (a : action) : bool :=
  match a with
  | Emit _ (EvData _) | CallClone | CallFinalize | Resume _ => true
  | Emit _ _ | Flow _ => false
  end.

(** What holds while a call of [finalize] made with a clone waits for the
    end of the original stream, whose object is [o]. *)
Record waiting (rd : ref) (o : obj) (i : nat) (w : world) : Prop := {
  wt_wf : wf w;
  wt_readable : readable w = rd;
  wt_object : obj_at (heap w) rd = o;
  wt_settled : settled w = Pending;
  wt_buffered : is_Some (buffered w);
  wt_call : finalizers w !! i = Some Awaiting
}.

(** A request as [getCloneableBody] receives it: [rd] is a [Readable] among
    the objects [h], whose listener tables [t] hold no listener of this
    module that tees. *)
Record request (rd : ref) (h : JS.heap) (t : list (list listener))
    (s : list rstate) : Prop := {
  rq_on : method_of h rd "on" = Some rd;
  rq_cell : is_Some (cell_of h rd);
  rq_tables : ∀ r c, table_of h r = Some c → c < length t;
  rq_states : ∀ r c, cell_of h r = Some c → c < length s;
  rq_listeners : ∀ c ls l, t !! c = Some ls → l ∈ ls → l = Resolve ∨ l = Reject
}.

End Body.

(** ** streamToNodeResponse *)
Module Drain.

(** The [ServerResponse], as far as the drainers use it: the chunks passed to
    [write] and the number of calls of [end]. *)
Record sink := {
  writes : list chunk;
  end_calls : nat
}.

Definition write (c : chunk) (s : sink) : sink :=
  {| writes := writes s ++ [c]; end_calls := end_calls s |}.
Definition end_ (s : sink) : sink :=
  {| writes := writes s; end_calls := S (end_calls s) |}.

Definition fresh_sink : sink := {| writes := []; end_calls := 0 |}.

(** *** A pull-style source *)

Inductive terminal :=
| Done
| Fails (err : ref).   (* the Error object the stream fails with *)

(** The reader of a [ReadableStream] whose queue holds [chunks], after which
    the stream is closed or errored, as [final] says. Once it is cancelled
    the stream is closed and a read reports [done]. *)
Record reader := {
  chunks : list chunk;
  final : terminal;
  cancelled : bool;
  cancel_calls : nat
}.

Inductive read_result :=
| Value (value : chunk)   (* { done: false, value } *)
| Finished                (* { done: true } *)
| Raise (e : value).

(** [reader.read()]: the stream answers the read when it is called, from its
    queue; the promise returned is settled with that answer whatever happens
    to the stream afterwards. *)
Definition read (rd : reader) : read_result * reader :=
  if cancelled rd then (Finished, rd)
  else match chunks rd with
       | c :: rest =>
           (Value c, {| chunks := rest; final := final rd;
                         cancelled := false; cancel_calls := cancel_calls rd |})
       | [] =>
           match final rd with
           | Done => (Finished, rd)
           | Fails err => (Raise (VObj err), rd)
           end
       end.

Definition cancel (rd : reader) : reader :=
  {| chunks := chunks rd; final := final rd; cancelled := true;
     cancel_calls := S (cancel_calls rd) |}.

(** The promise an [async] function returned. *)
Inductive async :=
| Running
| Returned
| Threw (e : value).

(** The variables of [streamReadableStreamToResponse], and what the read the
    loop awaits was answered ([None] before the first read). *)
Record pull := {
  responseOpen : bool;
  streamDone : bool;
  the_reader : reader;
  awaited : option read_result;
  response : sink;
  onWrite_calls : nat;
  promise : async
}.

(** The [finally] block, and the promise settled after it. *)
Definition finally (p : async) (s : pull) : pull :=
  {| responseOpen := responseOpen s; streamDone := streamDone s;
     the_reader := the_reader s; awaited := awaited s;
     response := if responseOpen s then end_ (response s) else response s;
     onWrite_calls := onWrite_calls s; promise := p |}.

(** [while (responseOpen)]: the loop calls [reader.read()] and suspends at
    the [await], or is left. *)
Definition loop_test (s : pull) : pull :=
  if responseOpen s
  then let '(r, rd) := read (the_reader s) in
       {| responseOpen := responseOpen s; streamDone := streamDone s;
          the_reader := rd; awaited := Some r; response := response s;
          onWrite_calls := onWrite_calls s; promise := promise s |}
  else finally Returned s.

Definition mark_done (s : pull) : pull :=
  {| responseOpen := responseOpen s; streamDone := true;
     the_reader := the_reader s; awaited := awaited s; response := response s;
     onWrite_calls := onWrite_calls s; promise := promise s |}.

(** The loop from the point where the [await] resumes with the answer of the
    read: nothing looks at [responseOpen] between the answer and
    [response.write(value)]. *)
Definition after_read (s : pull) : pull :=
  match promise s, awaited s with
  | Running, Some Finished =>
      finally Returned (mark_done s)                      (* streamDone = true; break *)
  | Running, Some (Raise e) =>
      finally (Threw e) (mark_done s)                     (* catch: streamDone = true; throw e *)
  | Running, Some (Value value) =>
      loop_test
        {| responseOpen := responseOpen s; streamDone := streamDone s;
           the_reader := the_reader s; awaited := awaited s;
           response := write value (response s);          (* response.write(value) *)
           onWrite_calls := S (onWrite_calls s);          (* onWrite() *)
           promise := Running |}
  | _, _ => s
  end.

(** The listener of the response's 'close'. *)
Definition on_close_pull (s : pull) : pull :=
  if streamDone s
  then {| responseOpen := false; streamDone := true; the_reader := the_reader s;
          awaited := awaited s;
          response := response s; onWrite_calls := onWrite_calls s;
          promise := promise s |}
  else {| responseOpen := false; streamDone := true;
          the_reader := cancel (the_reader s);              (* reader.cancel().catch(() => {}) *)
          awaited := awaited s;
          response := response s; onWrite_calls := onWrite_calls s;
          promise := promise s |}.

(** The call, up to the first [await]. *)
Definition streamReadableStreamToResponse (stream : reader) (response : sink) : pull :=
  loop_test {| responseOpen := true; streamDone := false; the_reader := stream;
               awaited := None; response := response; onWrite_calls := 0;
               promise := Running |}.

Inductive pull_event :=
| ReadSettles      (* the [await] resumes with the answer of the read *)
| PullClose.       (* the response emits 'close' *)

#[global] Instance pull_event_eq_dec : EqDecision pull_event.
Proof. solve_decision. Defined.

Definition pull_step (e : pull_event) (s : pull) : pull :=
  match e with
  | ReadSettles => after_read s
  | PullClose => on_close_pull s
  end.

Definition pull_run (tr : list pull_event) (s : pull) : pull :=
  foldl (λ s e, pull_step e s) s tr.

(** A stream of [cs] that ends with [t], not yet read. *)
Definition reader_of (cs : list chunk) (t : terminal) : reader :=
  {| chunks := cs; final := t; cancelled := false; cancel_calls := 0 |}.

(** *** A push-style source *)

Inductive evname := data | end' | error | close.
Inductive handler := onData | onEnd | onClose.

#[global] Instance evname_eq_dec : EqDecision evname.
Proof. solve_decision. Defined.
#[global] Instance handler_eq_dec : EqDecision handler.
Proof. solve_decision. Defined.

(** A [Readable] that holds [remaining]. It emits nothing more once it has
    emitted 'error' or 'close' ([closed]); [destroy()] alone does not
    silence it: what it has buffered still goes out until its 'close'. *)
Record source := {
  remaining : list chunk;
  end_emitted : bool;
  closed : bool;
  destroy_calls : nat;
  attached : list (evname * handler)
}.

Inductive event :=
| EvData (c : chunk)
| EvEnd
| EvError (err : ref)
| EvClose.

Definition name_of (ev : event) : evname :=
  match ev with
  | EvData _ => data
  | EvEnd => end'
  | EvError _ => error
  | EvClose => close
  end.

(** The variables of [streamReadableToResponse]. *)
Record push := {
  push_responseOpen : bool;
  push_streamDone : bool;
  stream : source;
  push_response : sink;
  push_onWrite_calls : nat
}.

Definition with_attached (ls : list (evname * handler)) (src : source) : source :=
  {| remaining := remaining src; end_emitted := end_emitted src;
     closed := closed src; destroy_calls := destroy_calls src;
     attached := ls |}.

Definition with_stream (src : source) (s : push) : push :=
  {| push_responseOpen := push_responseOpen s; push_streamDone := push_streamDone s;
     stream := src; push_response := push_response s;
     push_onWrite_calls := push_onWrite_calls s |}.

(** [stream.on(name, h)] *)
Definition on (name : evname) (h : handler) (s : push) : push :=
  with_stream (with_attached (attached (stream s) ++ [(name, h)]) (stream s)) s.

Fixpoint remove_first (x : evname * handler) (ls : list (evname * handler)) :=
  match ls with
  | [] => []
  | y :: ls => if decide (x = y) then ls else y :: remove_first x ls
  end.

(** [stream.off(name, h)] removes the registration made last. *)
Definition off (name : evname) (h : handler) (s : push) : push :=
  with_stream
    (with_attached (reverse (remove_first (name, h) (reverse (attached (stream s)))))
       (stream s)) s.

(** [stream.destroy()]: the 'close' it leads to is an event of its own. *)
Definition destroy (s : push) : push :=
  with_stream
    {| remaining := remaining (stream s); end_emitted := end_emitted (stream s);
       closed := closed (stream s); destroy_calls := S (destroy_calls (stream s));
       attached := attached (stream s) |} s.

Definition run_handler (h : handler) (ev : event) (s : push) : push :=
  match h with
  | onData =>
      match ev with
      | EvData chunk =>
          {| push_responseOpen := push_responseOpen s;
             push_streamDone := push_streamDone s; stream := stream s;
             push_response := write chunk (push_response s);
             push_onWrite_calls := S (push_onWrite_calls s) |}
      | _ => s   (* registered for 'data' only *)
      end
  | onEnd =>
      {| push_responseOpen := push_responseOpen s; push_streamDone := true;
         stream := stream s; push_response := push_response s;
         push_onWrite_calls := push_onWrite_calls s |}
  | onClose =>
      let s := if push_responseOpen s
               then {| push_responseOpen := true;
                       push_streamDone := push_streamDone s; stream := stream s;
                       push_response := end_ (push_response s);
                       push_onWrite_calls := push_onWrite_calls s |}
               else s in
      off close onClose (off error onClose (off end' onEnd (off data onData s)))
  end.

(** The listeners registered for the event when it is emitted run in order. *)
Definition emit (ev : event) (s : push) : push :=
  foldl (λ s nh, run_handler nh.2 ev s) s
    (filter (λ nh, nh.1 = name_of ev) (attached (stream s))).

(** The listener of the response's 'close'. *)
Definition on_close_push (s : push) : push :=
  let s := {| push_responseOpen := false; push_streamDone := push_streamDone s;
              stream := stream s; push_response := push_response s;
              push_onWrite_calls := push_onWrite_calls s |} in
  if push_streamDone s then s
  else destroy {| push_responseOpen := false; push_streamDone := true;
                  stream := stream s; push_response := push_response s;
                  push_onWrite_calls := push_onWrite_calls s |}.

Definition streamReadableToResponse (stream : source) (response : sink) : push :=
  on close onClose (on error onClose (on end' onEnd (on data onData
    {| push_responseOpen := true; push_streamDone := false; stream := stream;
       push_response := response; push_onWrite_calls := 0 |}))).

Inductive push_event :=
| Next              (* the stream emits its next chunk, or 'end' after the last *)
| Fail (err : ref)  (* the stream fails and emits 'error' *)
| Closes            (* the stream emits 'close' *)
| PushClose.        (* the response emits 'close' *)

#[global] Instance push_event_eq_dec : EqDecision push_event.
Proof. solve_decision. Defined.

(** The stream after its 'error' or 'close'. *)
Definition halted (src : source) : source :=
  {| remaining := remaining src; end_emitted := end_emitted src;
     closed := true; destroy_calls := destroy_calls src;
     attached := attached src |}.

Definition push_step (e : push_event) (s : push) : push :=
  match e with
  | Next =>
      if closed (stream s) || end_emitted (stream s) then s
      else match remaining (stream s) with
           | c :: rest =>
               emit (EvData c)
                 (with_stream
                    {| remaining := rest; end_emitted := false;
                       closed := false;
                       destroy_calls := destroy_calls (stream s);
                       attached := attached (stream s) |} s)
           | [] =>
               emit EvEnd
                 (with_stream
                    {| remaining := []; end_emitted := true;
                       closed := false;
                       destroy_calls := destroy_calls (stream s);
                       attached := attached (stream s) |} s)
           end
  | Fail err => emit (EvError err) (with_stream (halted (stream s)) s)
  | Closes => emit EvClose (with_stream (halted (stream s)) s)
  | PushClose => on_close_push s
  end.

Definition push_run (tr : list push_event) (s : push) : push :=
  foldl (λ s e, push_step e s) s tr.

(** A flowing stream of [cs], nothing attached to it yet. *)
Definition source_of (cs : list chunk) : source :=
  {| remaining := cs; end_emitted := false; closed := false;
     destroy_calls := 0; attached := [] |}.

(** *** The dispatch *)

(** The body handed to [streamToNodeResponse]. *)
Inductive body :=
| Null
| PushStyle (stream : source)
| PullStyle (stream : reader).   (* has [getReader] *)

(** What a call hands to its caller: a value, the promise of the drain it
    started, or an exception. *)
Inductive completion :=
| Return (v : value)
| ReturnDrain
| Throws (e : value).

(** The drain a call has started, if any. *)
Inductive drain :=
| NoDrain
| Pushing (s : push)
| Pulling (s : pull).

(** The calls of the two [async] drainers are statements of their own:
    their promises are dropped and the function returns [undefined]. *)
Definition streamToNodeResponse (stream : body) (response : sink) : completion * drain :=
  match stream with
  | Null => (Return VUndefined, NoDrain)
  | PullStyle rd => (Return VUndefined, Pulling (streamReadableStreamToResponse rd response))
  | PushStyle src => (Return VUndefined, Pushing (streamReadableToResponse src response))
  end.

Definition drain_promise (d : drain) : async :=
  match d with
  | Pulling s => promise s
  | Pushing _ | NoDrain => Returned
  end.

(** The next read of a pull-style drain is settled. *)
Definition drain_read (d : drain) : drain :=
  match d with
  | Pulling s => Pulling (after_read s)
  | _ => d
  end.

(** The spec's reading: the caller of the drain sees the error of the read,
    thrown at it or as the rejection of a promise it was handed. *)
Definition spec_caller_observes (c : completion) (d : drain) (e : value) : Prop :=
  c = Throws e ∨ (c = ReturnDrain ∧ drain_promise d = Threw e).

(** *** Notions used to state the properties *)

(** The chunk a read has taken from the stream and the loop has not written
    yet. *)
Definition in_flight (s : pull) : list chunk :=
  match promise s, awaited s with
  | Running, Some (Value c) => [c]
  | _, _ => []
  end.

(** What holds of a pull-style drain of [cs] into a fresh sink, whatever the
    order in which reads are settled and the response is closed. *)
Record pulling (cs : list chunk) (s : pull) : Prop := {
  pl_prefix : writes (response s) ++ in_flight s ++ chunks (the_reader s) = cs;
  pl_awaited : promise s = Running → is_Some (awaited s);
  pl_cancel : cancel_calls (the_reader s) = if cancelled (the_reader s) then 1 else 0;
  pl_closed : responseOpen s = false → streamDone s = true;
  pl_cancelled : cancelled (the_reader s) = true → responseOpen s = false;
  pl_done : streamDone s = true → responseOpen s = false ∨ promise s ≠ Running;
  pl_last : promise s = Running →
            awaited s = Some Finished ∨ (∃ e, awaited s = Some (Raise e)) →
            chunks (the_reader s) = [];
  pl_exit : promise s ≠ Running → responseOpen s = true →
            chunks (the_reader s) = [];
  pl_shut : responseOpen s = false →
            cancelled (the_reader s) = true ∨
            (chunks (the_reader s) = [] ∧ in_flight s = []);
  pl_running : promise s = Running → end_calls (response s) = 0;
  pl_ended : promise s ≠ Running →
             end_calls (response s) ≤ 1 ∧
             (responseOpen s = true → end_calls (response s) = 1)
}.


(** The four registrations [streamReadableToResponse] makes. *)
Definition all_listeners : list (evname * handler) :=
  [(data, onData); (end', onEnd); (error, onClose); (close, onClose)].

(** What holds of a push-style drain of [cs] into a fresh sink, whatever the
    stream and the response do. *)
Record pushing (cs : list chunk) (s : push) : Prop := {
  ps_attached : attached (stream s) = all_listeners ∨ attached (stream s) = [];
  ps_prefix : attached (stream s) = all_listeners →
              writes (push_response s) ++ remaining (stream s) = cs ∧
              end_calls (push_response s) = 0;
  ps_live : attached (stream s) = all_listeners →
            closed (stream s) = false ∧
            (end_emitted (stream s) = true → remaining (stream s) = []);
  ps_destroy : destroy_calls (stream s) = 0 ∨
               (destroy_calls (stream s) = 1 ∧ push_streamDone s = true);
  ps_done : push_streamDone s = true →
            destroy_calls (stream s) = 1 ∨
            (end_emitted (stream s) = true ∧ writes (push_response s) = cs);
  ps_closed : push_responseOpen s = false → push_streamDone s = true;
  ps_end_calls : end_calls (push_response s) ≤ 1
}.


End Drain.

(** ** Streamable, the stream of the cancel-request test *)
Module CancelRequest.

(** The calls made on a [Deferred], in order. What its promise makes of
    them is the business of [Deferred], which lives in another file. *)
Inductive call :=
| Resolves   (* deferred.resolve() *)
| Rejects.   (* deferred.reject() *)

#[global] Instance call_eq_dec : EqDecision call.
Proof. solve_decision. Defined.

(** [String(i)] for a count: its decimal digits. *)
Definition String_of (i : nat) : string := pretty i.

(** UTF-8 of one character, for the code points below 256 a [string] holds. *)
Definition utf8 (c : Ascii.ascii) : list byte :=
  let n := Ascii.N_of_ascii c in
  if (n <? 128)%N then [Ascii.byte_of_ascii c]
  else [default x00 (Byte.of_N (192 + n / 64)); default x00 (Byte.of_N (128 + n mod 64))].

(** [encoder.encode(s)] *)
Definition encode (s : string) : chunk := String.list_ascii_of_string s ≫= utf8.

(** The variables of [Streamable], and the [ReadableStream] as far as its
    source sees it: the chunks its controller has accepted, whether
    [close()] was called on the controller, whether the stream was
    cancelled, and how many of the chunks its consumer has read. The promise [finished] is chained on the promises of the two
    [Deferred]s and is theirs to settle; [sleep(100)] is a timer that
    elapses. *)
Record streamable := {
  write : bool;
  i : nat;
  cleanedUp : list call;
  aborted : list call;
  enqueued : list chunk;
  closeRequested : bool;
  cancelled : bool;
  taken : nat;          (* chunks the consumer has read from the queue *)
  sleeping : bool;      (* a call of [pull] is at [await sleep(100)] *)
  pull_rejections : nat (* calls of [pull] that ended with an exception *)
}.

Definition Streamable (write : bool) : streamable :=
  {| write := write; i := 0; cleanedUp := []; aborted := [];
     enqueued := []; closeRequested := false; cancelled := false;
     taken := 0; sleeping := false; pull_rejections := 0 |}.

(** [pull(controller)] up to its [await]: without [write] it returns at
    once. *)
Definition pull_call (s : streamable) : streamable :=
  if write s
  then {| write := write s; i := i s; cleanedUp := cleanedUp s; aborted := aborted s;
          enqueued := enqueued s; closeRequested := closeRequested s;
          cancelled := cancelled s; taken := taken s; sleeping := true;
          pull_rejections := pull_rejections s |}
  else s.

(** [pull(controller)] after [await sleep(100)]. The argument of [enqueue]
    is evaluated first, so [i] is incremented also when [enqueue] throws,
    which it does on a stream that is closed or cancelled; the exception
    ends the call. *)
Definition pull_resume (s : streamable) : streamable :=
  let chunk := encode (String_of (i s)) in
  let i' := S (i s) in
  if closeRequested s || cancelled s
  then {| write := write s; i := i'; cleanedUp := cleanedUp s; aborted := aborted s;
          enqueued := enqueued s; closeRequested := closeRequested s;
          cancelled := cancelled s; taken := taken s; sleeping := false;
          pull_rejections := S (pull_rejections s) |}
  else if 25 <=? i'
  then {| write := write s; i := i';
          cleanedUp := cleanedUp s ++ [Rejects];             (* cleanedUp.reject() *)
          aborted := aborted s;
          enqueued := enqueued s ++ [chunk];
          closeRequested := true;                               (* controller.close() *)
          cancelled := cancelled s; taken := taken s; sleeping := false;
          pull_rejections := pull_rejections s |}
  else {| write := write s; i := i'; cleanedUp := cleanedUp s; aborted := aborted s;
          enqueued := enqueued s ++ [chunk];
          closeRequested := closeRequested s;
          cancelled := cancelled s; taken := taken s; sleeping := false;
          pull_rejections := pull_rejections s |}.

(** [cancel()], which the stream calls when it is cancelled. *)
Definition cancel (s : streamable) : streamable :=
  {| write := write s; i := i s;
     cleanedUp := cleanedUp s ++ [Resolves];                  (* cleanedUp.resolve() *)
     aborted := aborted s; enqueued := enqueued s;
     closeRequested := closeRequested s; cancelled := true; taken := taken s;
     sleeping := sleeping s; pull_rejections := pull_rejections s |}.

(** [abort()] *)
Definition abort (s : streamable) : streamable :=
  {| write := write s; i := i s; cleanedUp := cleanedUp s;
     aborted := aborted s ++ [Resolves];                      (* aborted.resolve() *)
     enqueued := enqueued s; closeRequested := closeRequested s;
     cancelled := cancelled s; taken := taken s; sleeping := sleeping s;
     pull_rejections := pull_rejections s |}.

(** The consumer reads a chunk: it takes the next one off the queue, if
    there is one; the queue of a cancelled stream was emptied. *)
Definition take_chunk (s : streamable) : streamable :=
  if cancelled s then s
  else if taken s <? length (enqueued s)
  then {| write := write s; i := i s; cleanedUp := cleanedUp s; aborted := aborted s;
          enqueued := enqueued s; closeRequested := closeRequested s;
          cancelled := cancelled s; taken := S (taken s);
          sleeping := sleeping s; pull_rejections := pull_rejections s |}
  else s.

(** The stream is closed once it was cancelled, or once [close()] was called
    on its controller and the queue is empty. *)
Definition stream_closed (s : streamable) : bool :=
  cancelled s || (closeRequested s && (taken s =? length (enqueued s))).

(** What happens to a [Streamable]. The stream calls [pull] when it wants a
    chunk, which it does not while a call of [pull] is pending nor once
    [close()] was called or it was cancelled. When its consumer cancels it,
    it calls [cancel] unless it is closed already: a stream that was
    cancelled before, or that was closed by its source and read to the end,
    is not cancelled any more. *)
Inductive event :=
| Pull      (* the stream calls [pull] *)
| Wake      (* [sleep(100)] is over *)
| Read      (* the consumer reads a chunk *)
| Cancel    (* the consumer cancels the stream *)
| Abort.    (* the test calls [abort()] *)

#[global] Instance event_eq_dec : EqDecision event.
Proof. solve_decision. Defined.

Definition step (e : event) (s : streamable) : streamable :=
  match e with
  | Pull => if sleeping s || closeRequested s || cancelled s then s else pull_call s
  | Wake => if sleeping s then pull_resume s else s
  | Read => take_chunk s
  | Cancel => if stream_closed s then s else cancel s
  | Abort => abort s
  end.

Definition run (tr : list event) (s : streamable) : streamable :=
  foldl (λ s e, step e s) s tr.

(** The chunks [0], [1], ..., [n - 1] as the stream encodes them. *)
Definition counted (n : nat) : list chunk := (λ k, encode (String_of k)) <$> seq 0 n.

(** What holds of a [Streamable] that writes, whatever happens to it. *)
Record counting (s : streamable) : Prop := {
  ct_write : write s = true;
  ct_enqueued : enqueued s = counted (length (enqueued s));
  ct_i : i s = length (enqueued s) + pull_rejections s;
  ct_bound : length (enqueued s) ≤ 25;
  ct_close : closeRequested s = bool_decide (length (enqueued s) = 25);
  ct_rejections : pull_rejections s = 0 ∨
                  (pull_rejections s = 1 ∧ cancelled s = true ∧ sleeping s = false);
  ct_sleeping : sleeping s = true → closeRequested s = false;
  ct_taken : taken s ≤ length (enqueued s);
  ct_cleanedUp : cleanedUp s =
                 match closeRequested s, cancelled s with
                 | false, false => []
                 | false, true => [Resolves]
                 | true, false => [Rejects]
                 | true, true => [Rejects; Resolves]
                 end
}.

End CancelRequest.

(** * Properties *)

(** ** replaceRequestBody *)

Section Objects.

Lemma length_set h r key v : length (set h r key v) = length h.
Proof. unfold set. by rewrite length_insert. Qed.

Lemma obj_at_set_eq h r key v :
  r < length h → obj_at (set h r key v) r = put (obj_at h r) key v.
Proof.
  intros Hr. unfold set, obj_at at 1.
  by rewrite list_lookup_insert_eq.
Qed.

Lemma obj_at_set_ne h r r' key v :
  r ≠ r' → obj_at (set h r key v) r' = obj_at h r'.
Proof.
  intros Hr. unfold set, obj_at at 1 3.
  by rewrite list_lookup_insert_ne.
Qed.

Lemma put_lookup_eq o key v : pval <$> put o key v !! key = Some v.
Proof. unfold put. by rewrite lookup_insert_eq. Qed.

Lemma put_lookup_ne o key key' v : key ≠ key' → put o key v !! key' = o !! key'.
Proof. intros. unfold put. by rewrite lookup_insert_ne. Qed.

Lemma get_set_eq h r key v : r < length h → get (set h r key v) r key = v.
Proof.
  intros Hr. unfold get. rewrite obj_at_set_eq by done.
  unfold put. by rewrite lookup_insert_eq.
Qed.

Lemma get_set_other h r r' key key' v :
  r ≠ r' ∨ key ≠ key' → get (set h r key v) r' key' = get h r' key'.
Proof.
  intros Hne. unfold get.
  destruct (decide (r = r')) as [<-|Hr].
  - destruct Hne as [?|Hk]; [done|].
    destruct (decide (r < length h)) as [Hlt|Hge].
    + rewrite obj_at_set_eq by done. by rewrite put_lookup_ne.
    + unfold set. rewrite list_insert_ge by lia. done.
  - by rewrite obj_at_set_ne.
Qed.

Lemma for_in_NoDup o : NoDup (for_in o).
Proof. apply NoDup_fst_map_to_list. Qed.

Lemma elem_of_for_in o key :
  key ∈ for_in o ↔ ∃ p, o !! key = Some p ∧ penum p = true.
Proof.
  unfold for_in. rewrite list_elem_of_fmap. split.
  - intros [[k p] [-> Hin]]. apply elem_of_map_to_list in Hin.
    apply map_lookup_filter_Some in Hin as [? ?]. eauto.
  - intros (p & Hp & He). exists (key, p). split; [done|].
    apply elem_of_map_to_list, map_lookup_filter_Some. done.
Qed.

(** The loop visits each key once, so what it reads from [stream] under a key
    is what [stream] held there on entry, also when [stream] is [base]. *)
Lemma replace_keys_spec keys base stream h :
  NoDup keys → base < length h →
  length (replace_keys keys base stream h) = length h ∧
  (∀ key, key ∈ keys →
     get (replace_keys keys base stream h) base key
     = rebound base (get h stream key)) ∧
  (∀ r key, r ≠ base ∨ key ∉ keys →
     get (replace_keys keys base stream h) r key = get h r key).
Proof.
  intros Hnd. revert h.
  induction Hnd as [|k keys Hk Hnd IH]; intros h Hb; simpl.
  - split; [done|]. split; [|done]. intros key Hin. by apply elem_of_nil in Hin.
  - set (v := if decide (typeof (get h stream k) = "function")
              then bind (get h stream k) base else get h stream k).
    destruct (IH (set h base k v)) as (Hlen & Hin & Hout).
    { by rewrite length_set. }
    split; [by rewrite Hlen, length_set|]. split.
    + intros key [->|Hkey]%elem_of_cons.
      * rewrite Hout by (right; done). by rewrite get_set_eq.
      * rewrite Hin by done. f_equal. apply get_set_other.
        right. intros ->. done.
    + intros r key Hne. rewrite Hout.
      * apply get_set_other. destruct Hne as [?|Hne]; [left; done|].
        right. intros ->. apply Hne. by left.
      * destruct Hne as [?|Hne]; [by left|]. right. intros ?. apply Hne. by right.
Qed.

(** A property [for ... in] does not visit on [stream] is left as it was on
    [base]. *)
Lemma replaceRequestBody_frame h base stream r key :
  base < length h →
  r ≠ base ∨ (∀ p, obj_at h stream !! key = Some p → penum p = false) →
  get (replaceRequestBody base stream h) r key = get h r key.
Proof.
  intros Hb Hne. unfold replaceRequestBody.
  apply replace_keys_spec; [apply for_in_NoDup|done|].
  destruct Hne as [?|Hne]; [by left|]. right.
  rewrite elem_of_for_in. intros (p & Hp & He).
  specialize (Hne p Hp). congruence.
Qed.

Lemma length_replaceRequestBody h base stream :
  base < length h → length (replaceRequestBody base stream h) = length h.
Proof.
  intros Hb. unfold replaceRequestBody.
  apply replace_keys_spec; [apply for_in_NoDup|done].
Qed.

Lemma bound_this_rebound base f :
  bound_this (FBound f base) = Some (default base (bound_this f)).
Proof. simpl. by destruct (bound_this f). Qed.

Lemma replace_keys_lookup_ne keys base stream h r :
  r ≠ base → replace_keys keys base stream h !! r = h !! r.
Proof.
  intros Hr. revert h. induction keys as [|k keys IH]; intros h; [done|].
  simpl. rewrite IH. unfold set. by rewrite list_lookup_insert_ne.
Qed.

(** Only [base] is written to. *)
Lemma replaceRequestBody_lookup_ne h base stream r :
  r ≠ base → replaceRequestBody base stream h !! r = h !! r.
Proof. apply replace_keys_lookup_ne. Qed.

(** What [base] holds under a key afterwards. *)
Lemma replaceRequestBody_get_base h base stream key :
  base < length h →
  get (replaceRequestBody base stream h) base key =
  if decide (key ∈ for_in (obj_at h stream))
  then rebound base (get h stream key)
  else get h base key.
Proof.
  intros Hb. unfold replaceRequestBody.
  destruct (replace_keys_spec (for_in (obj_at h stream)) base stream h)
    as (_ & Hin & Hout); [apply for_in_NoDup|done|].
  case_decide; [by apply Hin|]. apply Hout. by right.
Qed.

(** C2 (as amended): when [finalize] performs the substitution, every
    enumerable property of the replacement stream (what [for ... in] visits)
    is copied onto the original stream object, and every property that is a
    function is stored as [v.bind(base)]: it is bound to the original object,
    so a method not bound before runs with the original object as [this]. *)
Theorem replaceRequestBody_copies_and_binds_to_base
    (h : heap) (base stream : ref) (key : string) (p : prop) :
  base < length h →
  obj_at h stream !! key = Some p →
  penum p = true →
  get (replaceRequestBody base stream h) base key = rebound base (pval p) ∧
  (∀ f, pval p = VFun f →
        get (replaceRequestBody base stream h) base key = VFun (FBound f base) ∧
        (bound_this f = None → bound_this (FBound f base) = Some base)).
Proof.
  intros Hb Hp He.
  assert (get (replaceRequestBody base stream h) base key = rebound base (pval p)) as Hget.
  { unfold replaceRequestBody.
    destruct (replace_keys_spec (for_in (obj_at h stream)) base stream h)
      as (_ & Hin & _); [apply for_in_NoDup|done|].
    rewrite Hin by (apply elem_of_for_in; eauto).
    unfold get at 1. by rewrite Hp. }
  split; [done|]. intros f Hf. split.
  - rewrite Hget, Hf. done.
  - intros Hn. simpl. by rewrite Hn.
Qed.

Lemma replaceRequestBody_copies_and_binds_to_base_witness :
  get (replaceRequestBody 0 1 two_objects) 0 "read" = VFun (FBound (FNative "read") 0).
Proof.
  destruct (replaceRequestBody_copies_and_binds_to_base two_objects 0 1 "read"
              {| pval := VFun (FNative "read"); penum := true |}) as [H _].
  - simpl. lia.
  - reflexivity.
  - reflexivity.
  - exact H.
Defined.

(** C2 (as stated) fails on both counts: the property that is not
    enumerable is not copied, and the copied method is bound to the original
    object (reference 0), not to the replacement (reference 1). *)
Lemma replaceRequestBody_not_every_property_nor_replacement_receiver :
  ¬ spec_copies_every_property 0 1 two_objects ∧
  ¬ spec_rebinds_to_replacement 0 1 two_objects.
Proof.
  split.
  - intros H.
    destruct (H "destroyed" {| pval := VBool false; penum := false |} eq_refl)
      as [p Hp].
    vm_compute in Hp. discriminate.
  - intros H.
    destruct (H "read" {| pval := VFun (FNative "read"); penum := true |}
                (FNative "read") eq_refl eq_refl) as (f' & Hget & Hthis).
    vm_compute in Hget. injection Hget as <-. vm_compute in Hthis. discriminate.
Qed.

End Objects.
(** ** More on replaceRequestBody *)

Section ObjectsFrame.

Lemma put_put_ne (o : obj) k1 k2 v1 v2 :
  k1 ≠ k2 → put (put o k1 v1) k2 v2 = put (put o k2 v2) k1 v1.
Proof.
  intros Hne. unfold put.
  rewrite !lookup_insert_ne by done.
  by rewrite insert_insert_ne.
Qed.

Lemma set_set_ne h r k1 k2 v1 v2 :
  k1 ≠ k2 → set (set h r k1 v1) r k2 v2 = set (set h r k2 v2) r k1 v1.
Proof.
  intros Hne. destruct (decide (r < length h)) as [Hlt|Hge].
  - unfold set at 1 3. rewrite !obj_at_set_eq by done.
    unfold set. rewrite !list_insert_insert_eq. by rewrite put_put_ne.
  - unfold set. by rewrite !list_insert_ge by (rewrite ?length_insert; lia).
Qed.

Lemma replace_keys_keeps keys base stream h key :
  base < length h →
  is_Some (obj_at h base !! key) →
  is_Some (obj_at (replace_keys keys base stream h) base !! key).
Proof.
  revert h. induction keys as [|k keys IH]; intros h Hb Hkey; [done|].
  simpl. apply IH; [by rewrite length_set|].
  rewrite obj_at_set_eq by done. unfold put.
  apply lookup_insert_is_Some. destruct (decide (k = key)); auto.
Qed.

(** X1: the loop of [replaceRequestBody] writes to the original object only,
    and there only under the keys it visits: the heap keeps its size, every
    other object is as it was (the replacement too, when it is another
    object), and a property of the original whose key is not an enumerable
    key of the replacement keeps its value; no property is removed. *)
Theorem replaceRequestBody_keeps_the_rest (h : heap) (base stream : ref) :
  base < length h →
  length (replaceRequestBody base stream h) = length h ∧
  (∀ r, r ≠ base → replaceRequestBody base stream h !! r = h !! r) ∧
  (∀ key, key ∉ for_in (obj_at h stream) →
          get (replaceRequestBody base stream h) base key = get h base key) ∧
  (∀ key, is_Some (obj_at h base !! key) →
          is_Some (obj_at (replaceRequestBody base stream h) base !! key)).
Proof.
  intros Hb. split_and!.
  - by apply length_replaceRequestBody.
  - intros r Hr. by apply replaceRequestBody_lookup_ne.
  - intros key Hkey. rewrite replaceRequestBody_get_base by done.
    by rewrite decide_False.
  - intros key. by apply replace_keys_keeps.
Qed.

Lemma replaceRequestBody_keeps_the_rest_witness :
  get (replaceRequestBody 0 1 two_objects) 0 "url" = VStr "/" ∧
  replaceRequestBody 0 1 two_objects !! 1 = two_objects !! 1.
Proof.
  destruct (replaceRequestBody_keeps_the_rest two_objects 0 1) as (_ & Ho & Hk & _).
  - simpl. lia.
  - split.
    + rewrite Hk; [reflexivity|]. vm_compute. intros H.
      apply list_elem_of_In in H. simpl in H. intuition discriminate.
    + apply Ho. lia.
Defined.

(** X2: the heap [replaceRequestBody] produces does not depend on the order
    in which [for ... in] visits the keys: running the body of the loop over
    any arrangement of the enumerable keys of the replacement gives the same
    heap, also when the replacement is the original itself. *)
Theorem replaceRequestBody_any_order
    (h : heap) (base stream : ref) (keys : list string) :
  keys ≡ₚ for_in (obj_at h stream) →
  replace_keys keys base stream h = replaceRequestBody base stream h.
Proof.
  unfold replaceRequestBody. generalize (for_in (obj_at h stream)).
  intros keys' Hp. revert h.
  induction Hp as [|k l l' Hp IH|k1 k2 l|l1 l2 l3 H1 IH1 H2 IH2]; intros h.
  - done.
  - simpl. apply IH.
  - destruct (decide (k1 = k2)) as [->|Hne]; [done|].
    simpl. rewrite !(get_set_other h base stream) by (right; done).
    by rewrite set_set_ne.
  - by rewrite IH1.
Qed.

Lemma replaceRequestBody_any_order_witness :
  replace_keys ["read"; "readable"] 0 1 two_keys = replaceRequestBody 0 1 two_keys ∧
  replace_keys ["readable"; "read"] 0 1 two_keys = replaceRequestBody 0 1 two_keys.
Proof.
  split; apply replaceRequestBody_any_order; vm_compute.
  - apply perm_swap || reflexivity.
  - apply perm_swap || reflexivity.
Defined.

End ObjectsFrame.


(** ** requestToBodyStream *)

Section AdapterFacts.
Import Adapter.

Lemma ToUint8_to_N b : ToUint8 (Byte.to_N b) = b.
Proof.
  unfold ToUint8. rewrite N.mod_small.
  - by rewrite Byte.of_to_N.
  - pose proof (Byte.to_N_bounded b). lia.
Qed.

Lemma ToUint8_spread (bs : list byte) : ToUint8 <$> (Byte.to_N <$> bs) = bs.
Proof.
  induction bs as [|b bs IH]; [done|].
  cbn [fmap list_fmap]. rewrite ToUint8_to_N. f_equal. exact IH.
Qed.

Lemma bytes_at_app_l (st : store) x r : r < length st → bytes_at (st ++ [x]) r = bytes_at st r.
Proof. intros Hr. unfold bytes_at. by rewrite lookup_app_l. Qed.

Lemma bytes_at_app_new (st : store) x : bytes_at (st ++ [x]) (length st) = x.
Proof. unfold bytes_at. by rewrite list_lookup_middle. Qed.

Lemma adapting_start st : adapting st [] (requestToBodyStream st).
Proof.
  split; simpl; try done.
  - intros c Hc. by apply elem_of_nil in Hc.
  - intros c Hc. by apply elem_of_nil in Hc.
Qed.

Lemma bytes_at_fmap_app_l (st : store) x (cs : list ref) :
  (∀ c, c ∈ cs → c < length st) →
  bytes_at (st ++ [x]) <$> cs = bytes_at st <$> cs.
Proof.
  intros H. apply list_fmap_ext. intros i c Hc.
  apply bytes_at_app_l, H. by eapply list_elem_of_lookup_2.
Qed.

Lemma adapting_data st acc w bs :
  length st ≤ length (buffers w) →
  adapting st acc w → adapting st (acc ++ [bs]) (step (Data bs) w).
Proof.
  intros Hst [Hl Hs Hq Hu Hem Hen Hb].
  unfold step, alloc, emit. simpl. rewrite Hl. simpl.
  unfold Uint8Array_of, KUint8Array_of, spread, alloc, enqueue. simpl.
  rewrite Hs. simpl.
  set (n := length (buffers w)).
  assert (length (buffers w ++ [bs]) = S n) as Hn1.
  { rewrite length_app. simpl. lia. }
  rewrite bytes_at_app_new. rewrite Hn1.
  assert (bytes_at ((buffers w ++ [bs]) ++ [bs]) (S n) = bs) as Hcopy.
  { rewrite <- Hn1. apply bytes_at_app_new. }
  rewrite Hcopy, ToUint8_spread.
  assert (length ((buffers w ++ [bs]) ++ [bs]) = S (S n)) as Hn2.
  { rewrite length_app, Hn1. simpl. lia. }
  split; simpl; try done.
  - by rewrite Hq.
  - intros c [Hc| ->%list_elem_of_singleton]%elem_of_app.
    + rewrite !length_app. simpl. specialize (Hem c Hc). lia.
    + rewrite !length_app. simpl. fold n. lia.
  - rewrite Hn2.
    intros c [Hc| ->%list_elem_of_singleton]%elem_of_app.
    + destruct (Hen c Hc) as (Hlt & Hne & Hge).
      split; [rewrite !length_app; simpl; lia|]. split; [|done].
      intros [?| ->%list_elem_of_singleton]%elem_of_app; [done|]. fold n in Hlt. lia.
    + split; [rewrite !length_app; simpl; fold n; lia|]. split; [|lia].
      intros [Hc| ?%list_elem_of_singleton]%elem_of_app; [|lia].
      specialize (Hem _ Hc). fold n in Hem. lia.
  - rewrite Hn2, fmap_app. f_equal.
    + rewrite <- Hb.
      rewrite !bytes_at_fmap_app_l; [done|..];
        intros c Hc; rewrite ?length_app; simpl; specialize (Hen c Hc); lia.
    + simpl. f_equal. rewrite <- Hn2 at 1.
      replace (S (S n)) with (length ((buffers w ++ [bs]) ++ [bs])) by done.
      apply bytes_at_app_new.
Qed.

Lemma adapting_scribble st acc w i bs :
  adapting st acc w → adapting st acc (step (Scribble i bs) w).
Proof.
  intros [Hl Hs Hq Hu Hem Hen Hb]. unfold step.
  destruct (emitted w !! i) as [chunk|] eqn:Hi; [|by split].
  assert (chunk ∈ emitted w) as Hchunk by (by eapply list_elem_of_lookup_2).
  split; simpl; try done.
  - intros c Hc. rewrite length_insert. by apply Hem.
  - intros c Hc. rewrite length_insert. by apply Hen.
  - rewrite <- Hb. apply list_fmap_ext. intros j c Hc.
    unfold bytes_at. rewrite list_lookup_insert_ne; [done|].
    intros ->. apply list_elem_of_lookup_2 in Hc.
    by destruct (Hen c Hc) as (_ & ? & _).
Qed.

Lemma length_buffers_step a w : length (buffers w) ≤ length (buffers (step a w)).
Proof.
  assert (∀ ev w, length (buffers w) ≤ length (buffers (emit ev w))) as Hemit.
  { intros ev w0. unfold emit. generalize (listeners w0) at 1. intros ls.
    revert w0. induction ls as [|l ls IH]; intros w0; [done|]. simpl.
    etrans; [|apply IH].
    destruct l, ev; simpl; try done.
    - unfold enqueue. simpl. destruct (state w0); simpl; rewrite !length_app; simpl; lia.
    - unfold close. by destruct (state w0).
    - unfold error. destruct (state w0); [done| |done]. by destruct (queue w0). }
  destruct a; simpl.
  - etrans; [|apply Hemit]. simpl. rewrite length_app. lia.
  - apply Hemit.
  - apply Hemit.
  - destruct (emitted w !! i); [|done]. simpl. by rewrite length_insert.
Qed.

Lemma adapting_run st tr acc w :
  forallb streaming tr = true →
  length st ≤ length (buffers w) →
  adapting st acc w → adapting st (acc ++ data_of tr) (run tr w).
Proof.
  revert acc w. induction tr as [|a tr IH]; intros acc w Htr Hst Hw.
  - simpl. by rewrite app_nil_r.
  - simpl in Htr. apply andb_prop in Htr as [Ha Htr].
    assert (length st ≤ length (buffers (step a w))) as Hst'.
    { etrans; [exact Hst|apply length_buffers_step]. }
    destruct a as [bs| |err|i bs]; try discriminate; simpl.
    + change (bs :: data_of tr) with ([bs] ++ data_of tr). rewrite app_assoc.
      apply IH; [done|done|]. by apply adapting_data.
    + apply IH; [done|done|]. by apply adapting_scribble.
Qed.

(** C6: the chunks enqueued on the pull stream are, in order, the bytes the
    push stream emitted; each sits in a buffer allocated by the adapter, none
    of them a chunk of the push stream, so that later writes to those chunks
    do not reach it; on 'end' the controller is closed and the pull stream
    yields exactly those bytes, on 'error' the controller is errored with the
    error of the push stream. *)
Theorem requestToBodyStream_copies_in_order (st : store) (tr : list action) :
  forallb streaming tr = true →
  let w := run tr (requestToBodyStream st) in
  bytes_at (buffers w) <$> enqueued w = data_of tr ∧
  (∀ c, c ∈ enqueued w → (c ∉ emitted w) ∧ length st ≤ c) ∧
  (state (step End w) = CloseRequested ∧ yields (step End w) = data_of tr) ∧
  (∀ err, state (step (Error err) w) = Errored (VObj err)).
Proof.
  intros Htr w.
  destruct (adapting_run st tr [] (requestToBodyStream st) Htr) as
    [Hl Hs Hq Hu Hem Hen Hb]; [done|apply adapting_start|].
  fold w in Hl, Hs, Hq, Hu, Hem, Hen, Hb. simpl in Hb.
  split; [done|]. split; [intros c Hc; by apply Hen|]. split.
  - unfold step, emit. rewrite Hl. simpl. unfold close. rewrite Hs. simpl.
    split; [done|]. unfold yields. simpl. by rewrite Hq.
  - intros err. unfold step, emit. rewrite Hl. simpl. unfold error. by rewrite Hs.
Qed.

Lemma requestToBodyStream_copies_in_order_witness :
  let w := run [Data ["h"; "i"]%byte; Scribble 0 ["x"; "x"]%byte; Data ["!"]%byte]
             (requestToBodyStream []) in
  bytes_at (buffers w) <$> enqueued w = [["h"; "i"]%byte; ["!"]%byte].
Proof.
  exact (proj1 (requestToBodyStream_copies_in_order []
    [Data ["h"; "i"]%byte; Scribble 0 ["x"; "x"]%byte; Data ["!"]%byte] eq_refl)).
Defined.

End AdapterFacts.
(** ** The adapter after the push stream has ended or failed *)

Section AdapterAfterwards.
Import Adapter.

Lemma listeners_run_listener l ev w : listeners (run_listener l ev w) = listeners w.
Proof.
  destruct l, ev; simpl; try done.
  - unfold enqueue. simpl. by destruct (state w).
  - unfold close. by destruct (state w).
  - unfold error. destruct (state w); [done| |done]. by destruct (queue w).
Qed.

Lemma listeners_emit ev w : listeners (emit ev w) = listeners w.
Proof.
  unfold emit. generalize (listeners w) at 1. intros ls.
  revert w. induction ls as [|l ls IH]; intros w; [done|].
  simpl. by rewrite IH, listeners_run_listener.
Qed.

Lemma listeners_step a w : listeners (step a w) = listeners w.
Proof.
  destruct a; simpl; rewrite ?listeners_emit; try done.
  by destruct (emitted w !! i).
Qed.

Lemma listeners_run tr w : listeners (run tr w) = listeners w.
Proof.
  revert w. induction tr as [|a tr IH]; intros w; [done|].
  simpl. by rewrite IH, listeners_step.
Qed.

(** One event on an adapter whose controller is not readable any more. *)
Lemma closed_step a w :
  listeners w = [OnData; OnEnd; OnError] → state w ≠ Readable →
  state (step a w) ≠ Readable ∧
  enqueued (step a w) = enqueued w ∧
  uncaught (step a w) = uncaught w + (if feeds a then 1 else 0) ∧
  (∀ e, state w = Errored e →
        state (step a w) = Errored e ∧ queue (step a w) = queue w).
Proof.
  intros Hl Hs.
  destruct a as [bs| |err|i bs]; unfold step, alloc, emit; simpl; rewrite ?Hl; simpl.
  - unfold Uint8Array_of, KUint8Array_of, alloc, enqueue. simpl.
    destruct (state w) eqn:E; [done|simpl; rewrite ?E..];
      (split_and!; [done|done|lia|intros; simplify_eq; done]).
  - unfold close. destruct (state w) eqn:E; [done|simpl; rewrite ?E..];
      (split_and!; [done|done|lia|intros; simplify_eq; done]).
  - unfold error. destruct (state w) eqn:E; [done| |].
    + destruct (queue w) eqn:Q; simpl; rewrite ?E;
        (split_and!; [done|done|lia|intros; simplify_eq; done]).
    + rewrite E. split_and!; [done|done|lia|intros; simplify_eq; done].
  - destruct (emitted w !! i); simpl;
      (split_and!; [done|done|lia|intros; simplify_eq; done]).
Qed.

Lemma closed_run tr w :
  listeners w = [OnData; OnEnd; OnError] → state w ≠ Readable →
  state (run tr w) ≠ Readable ∧
  enqueued (run tr w) = enqueued w ∧
  uncaught (run tr w) = uncaught w + length (filter (λ a, feeds a = true) tr) ∧
  (∀ e, state w = Errored e →
        state (run tr w) = Errored e ∧ queue (run tr w) = queue w).
Proof.
  revert w. induction tr as [|a tr IH]; intros w Hl Hs.
  - simpl. split_and!; [done|done|lia|done].
  - destruct (closed_step a w Hl Hs) as (Hs' & He & Hu & Herr).
    destruct (IH (step a w)) as (Hs'' & He' & Hu' & Herr');
      [by rewrite listeners_step|done|].
    simpl. split_and!; [done|congruence| |].
    + rewrite Hu', Hu. destruct (feeds a) eqn:F.
      * rewrite filter_cons_True by done. simpl. lia.
      * rewrite filter_cons_False by (by rewrite F). lia.
    + intros e E. destruct (Herr e E) as [E' Q']. destruct (Herr' e E') as [E'' Q''].
      split; congruence.
Qed.

(** X3: once the controller of the pull stream was closed or errored, it
    stays so and accepts no chunk, whatever the push stream emits next: the
    chunks enqueued are the ones enqueued until then, and every later 'data'
    or 'end' event makes its listener throw (the [TypeError] of [enqueue] or
    [close]), which nothing in the adapter catches. *)
Theorem requestToBodyStream_closed_for_good (st : store) (tr0 tr : list action) :
  let w := run tr0 (requestToBodyStream st) in
  state w ≠ Readable →
  state (run tr w) ≠ Readable ∧
  enqueued (run tr w) = enqueued w ∧
  uncaught (run tr w) = uncaught w + length (filter (λ a, feeds a = true) tr).
Proof.
  intros w Hs.
  destruct (closed_run tr w) as (H1 & H2 & H3 & _); [|done|done].
  unfold w. by rewrite listeners_run.
Qed.

Lemma requestToBodyStream_closed_for_good_witness :
  let w := run [Data ["a"%byte]; End] (requestToBodyStream []) in
  let w' := run [Data ["b"%byte]; End; Error 7] w in
  state w' ≠ Readable ∧ enqueued w' = enqueued w ∧ uncaught w' = 2.
Proof.
  destruct (requestToBodyStream_closed_for_good []
              [Data ["a"%byte]; End] [Data ["b"%byte]; End; Error 7])
    as (H1 & H2 & H3).
  - vm_compute. discriminate.
  - split_and!; [exact H1|exact H2|exact H3].
Defined.

(** X4: an 'error' of the push stream that comes after its 'end': with
    chunks still queued on the pull stream (none was read) the controller is
    errored with that error and the queued chunks are dropped; with nothing
    queued the pull stream is closed already and the error is ignored. *)
Theorem requestToBodyStream_error_after_end
    (st : store) (tr : list action) (err : ref) :
  forallb streaming tr = true →
  let w := step (Error err) (step End (run tr (requestToBodyStream st))) in
  yields w = [] ∧
  state w = if decide (data_of tr = []) then CloseRequested else Errored (VObj err).
Proof.
  intros Htr.
  destruct (adapting_run st tr [] (requestToBodyStream st) Htr)
    as [Hl Hs Hq Hu Hem Hen Hb]; [done|apply adapting_start|].
  simpl in Hb. cbv zeta.
  set (w0 := run tr (requestToBodyStream st)) in *.
  assert (queue w0 = [] ↔ data_of tr = []) as Hempty.
  { rewrite Hq, <- Hb. split; [by intros ->|by intros ?%fmap_nil_inv]. }
  assert (step End w0 = with_state CloseRequested (queue w0) w0) as E1.
  { unfold step, emit. rewrite Hl. simpl. unfold close. by rewrite Hs. }
  rewrite E1. unfold step, emit. simpl (listeners _). rewrite Hl. simpl.
  unfold error. simpl. unfold yields.
  destruct (decide (data_of tr = [])) as [Hd|Hd].
  - apply Hempty in Hd. rewrite Hd. done.
  - destruct (queue w0) eqn:Q; [exfalso; by apply Hd, Hempty|]. done.
Qed.

Lemma requestToBodyStream_error_after_end_witness :
  state (step (Error 7) (step End (run [Data ["a"%byte]] (requestToBodyStream []))))
  = Errored (VObj 7) ∧
  state (step (Error 7) (step End (run [] (requestToBodyStream [])))) = CloseRequested.
Proof.
  split.
  - apply (requestToBodyStream_error_after_end [] [Data ["a"%byte]] 7). reflexivity.
  - apply (requestToBodyStream_error_after_end [] [] 7). reflexivity.
Defined.

(** X5: the first 'error' of a push stream that has not ended decides: the
    pull stream is errored with it and yields nothing, and stays so whatever
    the push stream emits afterwards, a second 'error' included. *)
Theorem requestToBodyStream_first_error_wins
    (st : store) (tr0 tr : list action) (err : ref) :
  forallb streaming tr0 = true →
  let w := run tr (step (Error err) (run tr0 (requestToBodyStream st))) in
  state w = Errored (VObj err) ∧ yields w = [].
Proof.
  intros Htr.
  destruct (adapting_run st tr0 [] (requestToBodyStream st) Htr)
    as [Hl Hs Hq Hu Hem Hen Hb]; [done|apply adapting_start|].
  cbv zeta. set (w0 := run tr0 (requestToBodyStream st)) in *.
  assert (state (step (Error err) w0) = Errored (VObj err) ∧
          queue (step (Error err) w0) = []) as [E Q].
  { unfold step, emit. rewrite Hl. simpl. unfold error. by rewrite Hs. }
  destruct (closed_run tr (step (Error err) w0)) as (_ & _ & _ & Herr).
  - by rewrite listeners_step.
  - by rewrite E.
  - destruct (Herr _ E) as [E' Q']. split; [done|]. unfold yields. by rewrite Q', Q.
Qed.

Lemma requestToBodyStream_first_error_wins_witness :
  state (run [Data ["b"%byte]; Error 8; End]
           (step (Error 7) (run [Data ["a"%byte]] (requestToBodyStream []))))
  = Errored (VObj 7).
Proof.
  apply (requestToBodyStream_first_error_wins [] [Data ["a"%byte]]
           [Data ["b"%byte]; Error 8; End] 7).
  reflexivity.
Defined.

End AdapterAfterwards.

(** ** What the pull stream holds in the end *)

Section AdapterContent.
Import Adapter.

Lemma kept_adapting st acc w : adapting st acc w → kept acc w.
Proof.
  intros [Hl Hs Hq Hu Hem Hen Hb]. split; try done.
  intros c Hc. by destruct (Hen c Hc) as (? & ? & _).
Qed.

(** An event on an adapter whose controller is closed or errored leaves the
    chunks enqueued and what they hold. *)
Lemma kept_step_closed acc a w :
  kept acc w → state w ≠ Readable → kept acc (step a w).
Proof.
  intros [Hl Hem Hen Hb] Hs.
  destruct a as [bs| |err|i bs]; unfold step, alloc, emit; simpl; rewrite ?Hl; simpl.
  - unfold Uint8Array_of, KUint8Array_of, alloc, enqueue. simpl.
    assert (∀ w', state w' = state w → state w' ≠ Readable) as Hne by congruence.
    destruct (state w) eqn:E; [done| |]; simpl; rewrite ?E; simpl.
    all: split; simpl; try done.
    all: try (intros c [Hc| ->%list_elem_of_singleton]%elem_of_app;
              rewrite !length_app; simpl; [specialize (Hem c Hc)|]; lia).
    all: try (intros c Hc; destruct (Hen c Hc) as [Hlt Hni];
              split; [rewrite !length_app; simpl; lia|];
              intros [?| ->%list_elem_of_singleton]%elem_of_app; [done|lia]).
    all: rewrite <- Hb; rewrite !bytes_at_fmap_app_l; [done|..];
      intros c Hc; rewrite ?length_app; simpl; specialize (Hen c Hc); lia.
  - unfold close. destruct (state w) eqn:E; [done|by split..].
  - unfold error. destruct (state w) eqn:E; [done| |by split].
    destruct (queue w); by split.
  - destruct (emitted w !! i) as [chunk|] eqn:Hi; [|by split].
    assert (chunk ∈ emitted w) as Hchunk by (by eapply list_elem_of_lookup_2).
    split; simpl; try done.
    + intros c Hc. rewrite length_insert. by apply Hem.
    + intros c Hc. rewrite length_insert. by apply Hen.
    + rewrite <- Hb. apply list_fmap_ext. intros j c Hc.
      unfold bytes_at. rewrite list_lookup_insert_ne; [done|].
      intros ->. apply list_elem_of_lookup_2 in Hc.
      by destruct (Hen c Hc) as (_ & ?).
Qed.

Lemma kept_run_closed acc tr w :
  kept acc w → state w ≠ Readable → kept acc (run tr w).
Proof.
  revert w. induction tr as [|a tr IH]; intros w Hk Hs; [done|].
  simpl. apply IH; [by apply kept_step_closed|].
  by destruct (closed_step a w (kp_listeners _ _ Hk) Hs) as (? & _).
Qed.

(** X6: whatever the push stream emits, in whatever order, the chunks
    enqueued on the pull stream are the ones it emitted before its first
    'end' or 'error', byte for byte and in order: what it emits afterwards
    adds nothing, and writes to the chunks it emitted change nothing. *)
Theorem requestToBodyStream_delivers_until_first_end
    (st : store) (tr0 tr1 : list action) (a : action) :
  forallb streaming tr0 = true → streaming a = false →
  let w := run (tr0 ++ a :: tr1) (requestToBodyStream st) in
  bytes_at (buffers w) <$> enqueued w = data_of tr0.
Proof.
  intros Htr Ha. cbv zeta. unfold run. rewrite foldl_app. simpl.
  fold (run tr0 (requestToBodyStream st)).
  pose proof (adapting_run st tr0 [] (requestToBodyStream st) Htr
                (reflexivity _) (adapting_start st)) as Had.
  simpl in Had. set (w0 := run tr0 (requestToBodyStream st)) in *.
  pose proof (kept_adapting _ _ _ Had) as [Hl Hem Hen Hb].
  pose proof (ad_state _ _ _ Had) as Hs.
  fold (run tr1 (step a w0)).
  apply kp_bytes, kept_run_closed.
  - destruct a as [bs| |err|i bs]; try discriminate;
      unfold step, emit; rewrite Hl; simpl.
    + unfold close. rewrite Hs. by split.
    + unfold error. rewrite Hs. by split.
  - destruct a as [bs| |err|i bs]; try discriminate;
      unfold step, emit; rewrite Hl; simpl.
    + unfold close. by rewrite Hs.
    + unfold error. by rewrite Hs.
Qed.

Lemma requestToBodyStream_delivers_until_first_end_witness :
  let w := run ([Data ["a"%byte]; Data ["b"%byte]]
                ++ End :: [Data ["c"%byte]; Scribble 0 ["z"%byte]; Error 7])
             (requestToBodyStream []) in
  bytes_at (buffers w) <$> enqueued w = [["a"%byte]; ["b"%byte]].
Proof.
  apply (requestToBodyStream_delivers_until_first_end []
           [Data ["a"%byte]; Data ["b"%byte]]
           [Data ["c"%byte]; Scribble 0 ["z"%byte]; Error 7] End);
    reflexivity.
Defined.

End AdapterContent.

(** ** The response drainers *)

Section DrainFacts.
Import Drain.

(** *** Pull style *)

Lemma running_dec s : promise s = Running ∨ promise s ≠ Running.
Proof. destruct (promise s); auto. Qed.

Lemma pulling_start cs t :
  pulling cs (streamReadableStreamToResponse (reader_of cs t) fresh_sink).
Proof.
  destruct cs as [|c cs], t; split; simpl; try done; try discriminate;
    first [naive_solver | auto].
Qed.

Lemma pulling_step cs e s : pulling cs s → pulling cs (pull_step e s).
Proof.
  intros [Hpre Haw Hcan Hclosed Hcd Hdone Hlast Hexit Hshut Hrun Hend].
  destruct s as [ro sd [ch fin can cc] aw [wr ec] ow pr].
  unfold in_flight in *. simpl in *.
  destruct e; simpl.
  - unfold after_read. simpl. destruct pr; [|by split..].
    destruct (Haw eq_refl) as [r ->]. clear Haw.
    destruct r as [v| |e']; simpl.
    + unfold loop_test, read, finally. simpl.
      destruct ro, can, ch as [|c ch], fin;
        split; unfold in_flight; simpl in *; rewrite <- ?app_assoc; simpl;
        first [done | lia | naive_solver lia].
    + unfold finally. simpl.
      destruct ro, can, sd; split; unfold in_flight; simpl in *;
        first [done | lia | naive_solver lia].
    + unfold finally. simpl.
      destruct ro, can, sd; split; unfold in_flight; simpl in *;
        first [done | lia | naive_solver lia].
  - unfold on_close_pull. simpl.
    destruct sd, pr, can, ro; split; unfold in_flight; simpl in *;
      first [done | lia | naive_solver lia].
Qed.

Lemma pulling_run cs tr s : pulling cs s → pulling cs (pull_run tr s).
Proof.
  revert s. induction tr as [|e tr IH]; intros s Hs; [done|].
  simpl. apply IH. by apply pulling_step.
Qed.

Lemma pull_run_app tr1 tr2 s : pull_run (tr1 ++ tr2) s = pull_run tr2 (pull_run tr1 s).
Proof. unfold pull_run. by rewrite foldl_app. Qed.

(** [responseOpen] is the state of the sink: it is cleared by the 'close' of
    the response and by nothing else. *)
Lemma responseOpen_step e s :
  responseOpen (pull_step e s)
  = if decide (e = PullClose) then false else responseOpen s.
Proof.
  destruct s as [ro sd rd aw sk ow pr]. destruct e; simpl.
  - unfold after_read. simpl. destruct pr, aw as [[v| |e']|]; simpl; try done.
    unfold loop_test. simpl. destruct ro; [|done]. by destruct (read rd).
  - unfold on_close_pull. simpl. by destruct sd.
Qed.

Lemma responseOpen_run tr s :
  responseOpen (pull_run tr s) = true ↔ responseOpen s = true ∧ PullClose ∉ tr.
Proof.
  revert s. induction tr as [|e tr IH]; intros s.
  - simpl. split; [intros ?; split; [done|apply not_elem_of_nil]|by intros [? _]].
  - simpl. rewrite IH, responseOpen_step, not_elem_of_cons.
    destruct e; simpl; naive_solver.
Qed.

Lemma responseOpen_start cs t :
  responseOpen (streamReadableStreamToResponse (reader_of cs t) fresh_sink) = true.
Proof.
  unfold streamReadableStreamToResponse, loop_test. simpl.
  by destruct (read (reader_of cs t)).
Qed.

(** After the loop was left nothing touches the response. *)
Lemma pull_step_settled e s :
  promise s ≠ Running →
  promise (pull_step e s) = promise s ∧
  response (pull_step e s) = response s ∧
  onWrite_calls (pull_step e s) = onWrite_calls s.
Proof.
  intros Hp. destruct s as [ro sd rd aw sk ow pr]. simpl in *.
  destruct e; simpl.
  - unfold after_read. simpl. by destruct pr.
  - unfold on_close_pull. simpl. by destruct sd.
Qed.

Lemma pull_run_settled tr s :
  promise s ≠ Running →
  promise (pull_run tr s) = promise s ∧
  response (pull_run tr s) = response s ∧
  onWrite_calls (pull_run tr s) = onWrite_calls s.
Proof.
  revert s. induction tr as [|e tr IH]; intros s Hp; [done|].
  destruct (pull_step_settled e s Hp) as (H1 & H2 & H3).
  destruct (IH (pull_step e s)) as (H1' & H2' & H3'); [congruence|].
  simpl. split_and!; congruence.
Qed.

(** Every settled read takes the loop nearer to its exit. *)
Lemma pull_exits cs n s :
  pulling cs s → length (in_flight s ++ chunks (the_reader s)) < n →
  promise (pull_run (replicate n ReadSettles) s) ≠ Running.
Proof.
  revert s. induction n as [|n IH]; intros s Hs Hn; [lia|].
  simpl. destruct (running_dec s) as [Hp|Hp].
  - pose proof (pl_awaited _ _ Hs Hp) as [r Hr].
    destruct r as [v| |e'].
    + apply IH; [by apply (pulling_step cs ReadSettles)|]. clear Hs IH.
      destruct s as [ro sd [ch fin can cc] aw [wr ec] ow pr].
      unfold in_flight in *. simpl in *. subst.
      unfold after_read, loop_test, read, finally, in_flight. simpl.
      destruct ro, can, ch as [|c ch], fin; simpl in *; lia.
    + destruct (pull_run_settled (replicate n ReadSettles) (after_read s)) as [-> _];
        unfold after_read; by rewrite Hp, Hr.
    + destruct (pull_run_settled (replicate n ReadSettles) (after_read s)) as [-> _];
        unfold after_read; by rewrite Hp, Hr.
  - destruct (pull_step_settled ReadSettles s Hp) as [Hp' _]. simpl in Hp'.
    destruct (pull_run_settled (replicate n ReadSettles) (after_read s)) as [-> _];
      by rewrite Hp'.
Qed.

(** C4: in the pull-style drain, whatever the order in which reads are
    settled and the response is closed: the flag [responseOpen] tells
    whether the sink is open, that is whether the response has emitted no
    'close' yet; [end()] is called at most once; it has not been called
    while the loop is running; on the step that leaves the loop (by [done],
    by an error of the read, or by the loop test after a close) it is called
    exactly when the sink is still open; nothing touches the response after
    the exit; after a close the loop is left at the next settled read; and
    from wherever the drain stands, with every read settled the loop is
    left. *)
Theorem pull_drain_ends_response_once
    (cs : list chunk) (t : terminal) (tr : list pull_event) (e : pull_event) :
  let s := pull_run tr (streamReadableStreamToResponse (reader_of cs t) fresh_sink) in
  (responseOpen s = true ↔ PullClose ∉ tr) ∧
  end_calls (response s) ≤ 1 ∧
  (promise s = Running → end_calls (response s) = 0) ∧
  (promise s = Running → promise (pull_step e s) ≠ Running →
   end_calls (response (pull_step e s)) = if responseOpen s then 1 else 0) ∧
  (promise s ≠ Running → responseOpen s = true → end_calls (response s) = 1) ∧
  (promise s ≠ Running → response (pull_step e s) = response s) ∧
  (PullClose ∈ tr → promise (pull_step ReadSettles s) ≠ Running) ∧
  promise (pull_run (replicate (S (length cs)) ReadSettles) s) ≠ Running.
Proof.
  intros s.
  assert (pulling cs s) as Hs by apply pulling_run, pulling_start.
  assert (responseOpen s = true ↔ PullClose ∉ tr) as Hopen.
  { unfold s. rewrite responseOpen_run, responseOpen_start. naive_solver. }
  pose proof Hs as [Hpre Haw Hcan Hclosed Hcd Hdone Hlast Hexit Hshut Hrun Hend].
  split_and!.
  - done.
  - destruct (running_dec s) as [Hp|Hp].
    + rewrite Hrun by done. lia.
    + by apply Hend.
  - done.
  - intros Hp. specialize (Hrun Hp). destruct (Haw Hp) as [r Hr].
    clear Hend Hs Hopen Hpre Hcan Hclosed Hcd Hdone Hlast Hexit Hshut Haw.
    destruct s as [ro sd [ch fin can cc] aw [wr ec] ow pr]. simpl in *. subst.
    destruct e; simpl.
    + unfold after_read. simpl. destruct r as [v| |e']; simpl.
      * unfold loop_test, read, finally. simpl.
        destruct ro, can, ch as [|c ch], fin; simpl; done.
      * unfold finally. simpl. by destruct ro.
      * unfold finally. simpl. by destruct ro.
    + unfold on_close_pull. simpl. by destruct sd.
  - intros Hp. by apply Hend.
  - intros Hp. by destruct (pull_step_settled e s Hp) as (_ & ? & _).
  - intros Hin.
    assert (responseOpen s = false) as Hro.
    { destruct (responseOpen s); [|done]. by apply Hopen in Hin. }
    clear Hend Hs Hopen Hpre Hcan Hclosed Hcd Hdone Hlast Hexit Hshut Hrun.
    destruct s as [ro sd rd aw sk ow pr]. simpl in *. subst.
    unfold after_read. simpl. destruct pr; [|done..].
    destruct (Haw eq_refl) as [[v| |e'] ->]; done.
  - apply (pull_exits cs); [done|].
    rewrite <- Hpre, !length_app. lia.
Qed.

(** *** A pull-style drain whose response has closed *)





(** *** Push style *)

Lemma pushing_start cs :
  pushing cs (streamReadableToResponse (source_of cs) fresh_sink).
Proof. split; simpl; try done; auto. Qed.

Lemma pushing_step cs e s : pushing cs s → pushing cs (push_step e s).
Proof.
  intros [Hatt Hpre Hlive Hdes Hdone Hclosed Hend].
  destruct s as [ro sd [rem ee cl dc att] [wr ec] ow]. simpl in *.
  destruct Hatt as [-> | ->].
  - destruct (Hpre eq_refl) as [Hcs ->]. destruct (Hlive eq_refl) as [-> Hee].
    clear Hpre Hlive.
    destruct e, ro, sd, ee, rem as [|c rem];
      split; simpl in *; rewrite ?app_nil_r in *; rewrite <- ?app_assoc; simpl;
      first [done | lia | naive_solver lia].
  - clear Hpre Hlive.
    destruct e, ro, sd, cl, ee, rem as [|c rem];
      split; simpl in *; first [done | lia | naive_solver lia].
Qed.

Lemma pushing_run cs tr s : pushing cs s → pushing cs (push_run tr s).
Proof.
  revert s. induction tr as [|e tr IH]; intros s Hs; [done|].
  simpl. apply IH. by apply pushing_step.
Qed.

Lemma push_run_app tr1 tr2 s : push_run (tr1 ++ tr2) s = push_run tr2 (push_run tr1 s).
Proof. unfold push_run. by rewrite foldl_app. Qed.

(** As long as the stream emits chunks they are written, whether the
    response is open or not. *)
Lemma push_nexts k s :
  attached (stream s) = all_listeners →
  closed (stream s) = false → end_emitted (stream s) = false →
  k ≤ length (remaining (stream s)) →
  let s' := push_run (replicate k Next) s in
  stream s' = {| remaining := drop k (remaining (stream s)); end_emitted := false;
                 closed := false; destroy_calls := destroy_calls (stream s);
                 attached := all_listeners |} ∧
  push_response s' = {| writes := writes (push_response s)
                                  ++ take k (remaining (stream s));
                        end_calls := end_calls (push_response s) |} ∧
  push_onWrite_calls s' = push_onWrite_calls s + k ∧
  push_responseOpen s' = push_responseOpen s ∧
  push_streamDone s' = push_streamDone s.
Proof.
  revert s. induction k as [|k IH]; intros s Ha Hd He Hk;
    destruct s as [ro sd [rem ee cl dc att] [wr ec] ow]; simpl in *; subst.
  - rewrite app_nil_r. split_and!; (done || lia).
  - destruct rem as [|c rem]; simpl in *; [lia|].
    specialize (IH {| push_responseOpen := ro; push_streamDone := sd;
                      stream := {| remaining := rem; end_emitted := false;
                                   closed := false; destroy_calls := dc;
                                   attached := all_listeners |};
                      push_response := {| writes := wr ++ [c]; end_calls := ec |};
                      push_onWrite_calls := S ow |}
                   eq_refl eq_refl eq_refl).
    simpl in IH. destruct IH as (H1 & H2 & H3 & H4 & H5); [lia|].
    rewrite <- app_assoc in H2. split_and!; try done. etrans; [exact H3|lia].
Qed.

(** With the listeners detached nothing touches the response, and only a
    close of the response in a drain not yet done destroys the stream. *)
Lemma push_step_detached e s :
  attached (stream s) = [] →
  attached (stream (push_step e s)) = [] ∧
  push_response (push_step e s) = push_response s ∧
  push_onWrite_calls (push_step e s) = push_onWrite_calls s ∧
  (push_streamDone s = true → push_streamDone (push_step e s) = true) ∧
  (push_streamDone s = true ∨ e ≠ PushClose →
   destroy_calls (stream (push_step e s)) = destroy_calls (stream s)).
Proof.
  intros Ha. destruct s as [ro sd [rem ee cl dc att] [wr ec] ow].
  simpl in *. subst.
  destruct e, sd, cl, ee, rem as [|c rem]; simpl; split_and!; try done;
    intros [?|?]; done.
Qed.

Lemma push_run_detached tr s :
  attached (stream s) = [] →
  attached (stream (push_run tr s)) = [] ∧
  push_response (push_run tr s) = push_response s ∧
  push_onWrite_calls (push_run tr s) = push_onWrite_calls s ∧
  (push_streamDone s = true ∨ PushClose ∉ tr →
   destroy_calls (stream (push_run tr s)) = destroy_calls (stream s)).
Proof.
  revert s. induction tr as [|e tr IH]; intros s Ha; [done|].
  destruct (push_step_detached e s Ha) as (H1 & H2 & H3 & H4 & H5).
  destruct (IH (push_step e s) H1) as (H1' & H2' & H3' & H5').
  simpl. split_and!; try congruence.
  intros Hor. rewrite H5', H5; [done| |].
  - destruct Hor as [?|Hn]; [by left|]. right. intros ->. apply Hn. by left.
  - destruct Hor as [?|Hn]; [left; by apply H4|]. right. intros ?. apply Hn. by right.
Qed.





Lemma push_step_prefix cs e s :
  pushing cs s → writes (push_response s) `prefix_of` cs →
  writes (push_response (push_step e s)) `prefix_of` cs.
Proof.
  intros Hs Hpre. pose proof (pushing_step cs e s Hs) as Hs'.
  destruct (ps_attached _ _ Hs') as [Ha|Ha].
  - destruct (ps_prefix _ _ Hs' Ha) as [<- _]. by apply prefix_app_r.
  - destruct (ps_attached _ _ Hs) as [Hb|Hb].
    + destruct (ps_prefix _ _ Hs Hb) as [Hcs He]. clear Hs Hs'.
      destruct s as [ro sd [rem ee cl dc att] [wr ec] ow]. simpl in *. subst.
      destruct e, ro, sd, cl, ee, rem as [|c rem]; simpl in *;
        first [done | by apply prefix_app_r].
    + by destruct (push_step_detached e s Hb) as (_ & -> & _).
Qed.

Lemma push_run_prefix cs tr s :
  pushing cs s → writes (push_response s) `prefix_of` cs →
  writes (push_response (push_run tr s)) `prefix_of` cs.
Proof.
  revert s. induction tr as [|e tr IH]; intros s Hs Hp; [done|].
  simpl. apply IH; [by apply pushing_step|by apply push_step_prefix].
Qed.








(** C7 (as amended): when a [read()] of the pull-style loop raises an error,
    the done flag is set and the promise [streamReadableStreamToResponse]
    returned is rejected with that same error, be the read the one the
    drain awaits in [s] or the one the loop calls next from [s0];
    [streamToNodeResponse] hands its caller [undefined], not that
    promise. *)
Theorem read_error_rejects_the_drain (s : pull) (e : value) :
  promise s = Running →
  awaited s = Some (Raise e) →
  streamDone (after_read s) = true ∧
  promise (after_read s) = Threw e ∧
  (∀ s0, promise s0 = Running → responseOpen s0 = true →
         (read (the_reader s0)).1 = Raise e →
         streamDone (after_read (loop_test s0)) = true ∧
         promise (after_read (loop_test s0)) = Threw e) ∧
  (∀ rd sink, (streamToNodeResponse (PullStyle rd) sink).1 = Return VUndefined).
Proof.
  intros Hp Hr. split_and!.
  - destruct s as [ro sd rd aw sk ow pr]. simpl in *. subst.
    unfold after_read. simpl. done.
  - destruct s as [ro sd rd aw sk ow pr]. simpl in *. subst.
    unfold after_read. simpl. done.
  - intros s0 Hp0 Hro0 Hr0. destruct s0 as [ro sd rd aw sk ow pr]. simpl in *. subst.
    unfold loop_test. simpl. destruct (read rd) as [r rd']. simpl in *. subst r.
    unfold after_read. simpl. done.
  - done.
Qed.

Lemma read_error_rejects_the_drain_witness :
  promise (after_read (streamReadableStreamToResponse (reader_of [] (Fails 7)) fresh_sink))
  = Threw (VObj 7).
Proof.
  apply (read_error_rejects_the_drain
           (streamReadableStreamToResponse (reader_of [] (Fails 7)) fresh_sink)
           (VObj 7)); reflexivity.
Defined.

(** C7 (as stated) fails: the first read of the stream raises the error 7,
    the drain's promise is rejected with it, and the caller of
    [streamToNodeResponse] was handed [undefined]. *)
Lemma streamToNodeResponse_drops_the_rejection :
  let c := (streamToNodeResponse (PullStyle (reader_of [] (Fails 7))) fresh_sink).1 in
  let d := drain_read (streamToNodeResponse (PullStyle (reader_of [] (Fails 7))) fresh_sink).2 in
  drain_promise d = Threw (VObj 7) ∧ ¬ spec_caller_observes c d (VObj 7).
Proof.
  split; [reflexivity|]. intros [H|[H _]]; discriminate.
Qed.

End DrainFacts.

(** ** Drains that run to the end of their source *)

Section DrainToTheEnd.
Import Drain.

(** *** Pull style *)

Lemma pull_reads cs t cc s :
  let rd0 := {| chunks := cs; final := t; cancelled := false; cancel_calls := cc |} in
  promise s = Running → responseOpen s = true →
  awaited s = Some (read rd0).1 → the_reader s = (read rd0).2 →
  let s' := pull_run (replicate (S (length cs)) ReadSettles) s in
  promise s' = match t with Done => Returned | Fails err => Threw (VObj err) end ∧
  response s' = {| writes := writes (response s) ++ cs;
                   end_calls := S (end_calls (response s)) |} ∧
  onWrite_calls s' = onWrite_calls s + length cs ∧
  cancel_calls (the_reader s') = cc ∧
  streamDone s' = true.
Proof.
  revert s. induction cs as [|c cs IH]; intros s rd0 Hpr Hro Haw Hrd.
  - destruct s as [ro sd rd aw [wr ec] ow pr]. simpl in *. subst.
    unfold after_read, read, finally. simpl. rewrite app_nil_r.
    destruct t; simpl; split_and!; (done || lia).
  - cbv zeta.
    change (pull_run (replicate (S (length (c :: cs))) ReadSettles) s)
      with (pull_run (replicate (S (length cs)) ReadSettles) (after_read s)).
    assert (promise (after_read s) = Running ∧ responseOpen (after_read s) = true ∧
            response (after_read s) = write c (response s) ∧
            onWrite_calls (after_read s) = S (onWrite_calls s) ∧
            awaited (after_read s)
            = Some (read {| chunks := cs; final := t; cancelled := false;
                            cancel_calls := cc |}).1 ∧
            the_reader (after_read s)
            = (read {| chunks := cs; final := t; cancelled := false;
                       cancel_calls := cc |}).2) as (A & B & C & D & E & F).
    { destruct s as [ro sd rd aw [wr ec] ow pr]. simpl in *. subst.
      unfold after_read, loop_test, read. simpl. by destruct cs, t. }
    destruct (IH (after_read s) A B E F) as (H1 & H2 & H3 & H4 & H5).
    rewrite H2, H3, C, D. simpl. rewrite <- app_assoc. simpl.
    split_and!; (done || lia).
Qed.

(** After the loop was left a close of the response cancels nothing. *)
Lemma pull_step_done e s :
  promise s ≠ Running → streamDone s = true →
  streamDone (pull_step e s) = true ∧
  cancel_calls (the_reader (pull_step e s)) = cancel_calls (the_reader s).
Proof.
  intros Hp Hd. destruct s as [ro sd rd aw sk ow pr]. simpl in *. subst sd.
  destruct e; simpl.
  - unfold after_read. simpl. by destruct pr.
  - done.
Qed.

Lemma pull_run_done tr s :
  promise s ≠ Running → streamDone s = true →
  cancel_calls (the_reader (pull_run tr s)) = cancel_calls (the_reader s).
Proof.
  revert s. induction tr as [|e tr IH]; intros s Hp Hd; [done|].
  destruct (pull_step_settled e s Hp) as (H1 & _).
  destruct (pull_step_done e s Hp Hd) as (H2 & H3).
  simpl. rewrite IH; [done|congruence|done].
Qed.

(** X7: a pull-style drain whose response stays open until every read is
    settled writes the whole stream, in order, calls [onWrite] once per
    chunk, ends the response once and never cancels the reader, whatever
    happens afterwards (a close of the response included); the promise of
    the drain is resolved when the stream ends, and rejected with the error
    of the stream when it fails after its last chunk. *)
Theorem pull_drain_writes_the_whole_stream
    (cs : list chunk) (t : terminal) (tr : list pull_event) :
  let s := pull_run (replicate (S (length cs)) ReadSettles ++ tr)
             (streamReadableStreamToResponse (reader_of cs t) fresh_sink) in
  writes (response s) = cs ∧
  end_calls (response s) = 1 ∧
  onWrite_calls s = length cs ∧
  cancel_calls (the_reader s) = 0 ∧
  promise s = match t with Done => Returned | Fails err => Threw (VObj err) end.
Proof.
  cbv zeta. rewrite pull_run_app.
  destruct (pull_reads cs t 0 (streamReadableStreamToResponse (reader_of cs t) fresh_sink))
    as (Hp & Hr & Ho & Hc & Hd); try done.
  1-4: by (unfold streamReadableStreamToResponse, loop_test, reader_of, read;
            destruct cs, t).
  set (s1 := pull_run (replicate (S (length cs)) ReadSettles) _) in *.
  assert (promise s1 ≠ Running) as Hs1 by (rewrite Hp; by destruct t).
  destruct (pull_run_settled tr s1 Hs1) as (Hp' & Hr' & Ho').
  rewrite (pull_run_done tr s1 Hs1 Hd).
  rewrite Hr', Ho', Hc, Hp', Hr, Ho, Hp.
  unfold streamReadableStreamToResponse, loop_test, reader_of, read.
  by destruct cs, t.
Qed.

(** *** Push style *)

(** X8: a push-style drain whose response stays open writes the whole
    stream, in order, and calls [onWrite] once per chunk; the 'end' of the
    stream marks the drain done and leaves the response open; the 'close' of
    the stream ends the response, once, and detaches the four listeners;
    the stream is never destroyed, whatever happens afterwards (a close of
    the response included). *)
Theorem push_drain_writes_the_whole_stream (cs : list chunk) (tr : list push_event) :
  let start := streamReadableToResponse (source_of cs) fresh_sink in
  let s1 := push_run (replicate (S (length cs)) Next) start in
  let s2 := push_run (replicate (S (length cs)) Next ++ Closes :: tr) start in
  (push_response s1 = {| writes := cs; end_calls := 0 |} ∧
   push_streamDone s1 = true ∧ attached (stream s1) = all_listeners) ∧
  (push_response s2 = {| writes := cs; end_calls := 1 |} ∧
   push_onWrite_calls s2 = length cs ∧
   attached (stream s2) = [] ∧ destroy_calls (stream s2) = 0).
Proof.
  cbv zeta.
  set (start := streamReadableToResponse (source_of cs) fresh_sink).
  destruct (push_nexts (length cs) start) as (Hs & Hr & Ho & Hro & Hsd); try done.
  set (s0 := push_run (replicate (length cs) Next) start) in *.
  simpl in Hs, Hr, Ho, Hro, Hsd. rewrite drop_all in Hs. rewrite take_ge in Hr by done.
  assert (push_run (replicate (S (length cs)) Next) start = push_step Next s0) as E1.
  { rewrite replicate_S_end, push_run_app. done. }
  assert (push_step Next s0
          = {| push_responseOpen := true; push_streamDone := true;
               stream := {| remaining := []; end_emitted := true; closed := false;
                            destroy_calls := 0; attached := all_listeners |};
               push_response := {| writes := cs; end_calls := 0 |};
               push_onWrite_calls := length cs |}) as E2.
  { destruct s0 as [ro sd src rs ow]. simpl in *. subst. done. }
  split.
  - rewrite E1, E2. done.
  - rewrite push_run_app, E1, E2.
    change (push_run (Closes :: tr) ?s) with (push_run tr (push_step Closes s)).
    match goal with |- context [push_run tr ?s] =>
      destruct (push_run_detached tr s) as (Ha & Hr' & Ho' & Hd'); [done|] end.
    rewrite Hr', Ho', Ha, Hd' by (by left). done.
Qed.

(** X9: a stream that fails after [k] of its chunks in a push-style drain:
    the response has received those [k] chunks and is ended, once, as after
    a complete body; the listeners are detached, the stream is not
    destroyed by the drain, and nothing that happens afterwards reaches the
    response. *)
Theorem push_drain_ends_response_when_the_stream_fails
    (cs : list chunk) (k : nat) (err : ref) (tr : list push_event) :
  k ≤ length cs →
  let s := push_run (replicate k Next ++ Fail err :: tr)
             (streamReadableToResponse (source_of cs) fresh_sink) in
  push_response s = {| writes := take k cs; end_calls := 1 |} ∧
  attached (stream s) = [] ∧
  (PushClose ∉ tr → destroy_calls (stream s) = 0).
Proof.
  intros Hk. cbv zeta.
  set (start := streamReadableToResponse (source_of cs) fresh_sink).
  destruct (push_nexts k start) as (Hs & Hr & Ho & Hro & Hsd); try done.
  set (s0 := push_run (replicate k Next) start) in *.
  simpl in Hs, Hr, Ho, Hro, Hsd.
  rewrite push_run_app.
  change (push_run (Fail err :: tr) ?s) with (push_run tr (push_step (Fail err) s)).
  fold start. fold s0.
  assert (push_step (Fail err) s0
          = {| push_responseOpen := true; push_streamDone := false;
               stream := {| remaining := drop k cs; end_emitted := false;
                            closed := true; destroy_calls := 0; attached := [] |};
               push_response := {| writes := take k cs; end_calls := 1 |};
               push_onWrite_calls := k |}) as E.
  { destruct s0 as [ro sd src rs ow]. simpl in *. subst. done. }
  rewrite E.
  match goal with |- context [push_run tr ?s] =>
    destruct (push_run_detached tr s) as (Ha & Hr' & Ho' & Hd'); [done|] end.
  rewrite Hr', Ha. split_and!; [done|done|].
  intros Hn. rewrite Hd' by (by right). done.
Qed.

Lemma push_drain_ends_response_when_the_stream_fails_witness :
  push_response
    (push_run (replicate 1 Next ++ Fail 7 :: [Closes])
       (streamReadableToResponse (source_of [["a"%byte]; ["b"%byte]]) fresh_sink))
  = {| writes := [["a"%byte]]; end_calls := 1 |}.
Proof.
  apply (push_drain_ends_response_when_the_stream_fails
           [["a"%byte]; ["b"%byte]] 1 7 [Closes]).
  simpl. lia.
Defined.

(** X10: in the push-style drain, whatever the stream and the response do,
    [end()] is called at most once: not while the four listeners are
    attached (the 'end' of the stream and the close of the response leave
    them attached and the response as it is), and at the first 'error' or
    'close' of the stream, which detaches them, exactly when the response
    is still open; once they are detached nothing reaches the response. *)
Theorem push_drain_ends_response_once
    (cs : list chunk) (tr : list push_event) (e : push_event) :
  let s := push_run tr (streamReadableToResponse (source_of cs) fresh_sink) in
  (attached (stream s) = all_listeners ∨ attached (stream s) = []) ∧
  end_calls (push_response s) ≤ 1 ∧
  (attached (stream s) = all_listeners →
   end_calls (push_response s) = 0 ∧
   match e with
   | Closes | Fail _ =>
       attached (stream (push_step e s)) = [] ∧
       end_calls (push_response (push_step e s))
       = if push_responseOpen s then 1 else 0
   | Next | PushClose =>
       attached (stream (push_step e s)) = all_listeners ∧
       end_calls (push_response (push_step e s)) = 0
   end) ∧
  (attached (stream s) = [] → push_response (push_step e s) = push_response s).
Proof.
  intros s.
  assert (pushing cs s) as [Hatt Hpre Hlive Hdes Hdone Hclosed Hend]
    by apply pushing_run, pushing_start.
  split_and!; [done|done| |].
  - intros Ha. destruct (Hpre Ha) as [_ He]. split; [done|].
    destruct (Hlive Ha) as [Hcl _].
    destruct s as [ro sd [rem ee cl dc att] [wr ec] ow]. simpl in *. subst.
    destruct e, ro, sd, ee, rem as [|c rem]; simpl; done.
  - intros Ha. by destruct (push_step_detached e s Ha) as (_ & ? & _).
Qed.

Lemma run_handler_onWrite h ev s :
  push_onWrite_calls s = length (writes (push_response s)) →
  push_onWrite_calls (run_handler h ev s)
  = length (writes (push_response (run_handler h ev s))).
Proof.
  intros H. destruct h; simpl.
  - destruct ev; simpl; try done. rewrite length_app. simpl. lia.
  - done.
  - by destruct (push_responseOpen s).
Qed.

Lemma emit_onWrite ev s :
  push_onWrite_calls s = length (writes (push_response s)) →
  push_onWrite_calls (emit ev s) = length (writes (push_response (emit ev s))).
Proof.
  unfold emit. generalize (filter (λ nh, nh.1 = name_of ev) (attached (stream s))).
  intros hs. revert s. induction hs as [|h hs IH]; intros s H; [done|].
  simpl. apply IH. by apply run_handler_onWrite.
Qed.

Lemma push_step_onWrite e s :
  push_onWrite_calls s = length (writes (push_response s)) →
  push_onWrite_calls (push_step e s)
  = length (writes (push_response (push_step e s))).
Proof.
  intros H. destruct e; simpl.
  - destruct (closed (stream s) || end_emitted (stream s)); [done|].
    destruct (remaining (stream s)); by apply emit_onWrite.
  - by apply emit_onWrite.
  - by apply emit_onWrite.
  - unfold on_close_push. simpl. by destruct (push_streamDone s).
Qed.

Lemma pull_step_onWrite e s :
  onWrite_calls s = length (writes (response s)) →
  onWrite_calls (pull_step e s) = length (writes (response (pull_step e s))).
Proof.
  intros H. destruct s as [ro sd [ch fin can cc] aw [wr ec] ow pr]. simpl in *.
  destruct e; simpl.
  - unfold after_read, loop_test, read, finally. simpl.
    destruct pr, aw as [[v| |e']|], ro, can, ch as [|c ch], fin; simpl;
      rewrite ?length_app; simpl; lia.
  - unfold on_close_pull. simpl. by destruct sd.
Qed.

(** X11: in both drains [onWrite] is called once for each chunk written to
    the response and at no other time, whatever the order of events. *)
Theorem onWrite_called_once_per_chunk
    (cs : list chunk) (t : terminal)
    (ptr : list pull_event) (qtr : list push_event) :
  let s := pull_run ptr (streamReadableStreamToResponse (reader_of cs t) fresh_sink) in
  let p := push_run qtr (streamReadableToResponse (source_of cs) fresh_sink) in
  onWrite_calls s = length (writes (response s)) ∧
  push_onWrite_calls p = length (writes (push_response p)).
Proof.
  cbv zeta. split.
  - assert (onWrite_calls (streamReadableStreamToResponse (reader_of cs t) fresh_sink)
            = length (writes (response
                (streamReadableStreamToResponse (reader_of cs t) fresh_sink)))) as H0.
    { unfold streamReadableStreamToResponse, loop_test, reader_of, read.
      by destruct cs, t. }
    revert H0. generalize (streamReadableStreamToResponse (reader_of cs t) fresh_sink).
    induction ptr as [|e ptr IH]; intros s H; [done|].
    simpl. apply IH. by apply pull_step_onWrite.
  - generalize (streamReadableToResponse (source_of cs) fresh_sink)
      (eq_refl : push_onWrite_calls (streamReadableToResponse (source_of cs) fresh_sink)
                 = length (writes (push_response
                     (streamReadableToResponse (source_of cs) fresh_sink)))).
    induction qtr as [|e qtr IH]; intros s H; [done|].
    simpl. apply IH. by apply push_step_onWrite.
Qed.

End DrainToTheEnd.

(** ** What the drains write *)

Section DrainPrefix.
Import Drain.

(** X12: at every moment of a drain, pull style or push style, whatever the
    order of events, the chunks written to the response are an initial
    segment of the chunks of the stream, in their order: no chunk is
    skipped, repeated or written out of turn. *)
Theorem drains_write_an_initial_segment
    (cs : list chunk) (t : terminal)
    (ptr : list pull_event) (qtr : list push_event) :
  writes (response (pull_run ptr
            (streamReadableStreamToResponse (reader_of cs t) fresh_sink)))
  `prefix_of` cs ∧
  writes (push_response (push_run qtr
            (streamReadableToResponse (source_of cs) fresh_sink)))
  `prefix_of` cs.
Proof.
  split.
  - pose proof (pl_prefix _ _ (pulling_run cs ptr _ (pulling_start cs t))) as Hpre.
    rewrite <- Hpre at 2. by apply prefix_app_r.
  - apply (push_run_prefix cs); [apply pushing_start|]. simpl. apply prefix_nil.
Qed.

End DrainPrefix.


(** ** The cloneable body *)

Section BodyFacts.
Import Body.

(** *** Computations *)

Lemma passthrough_events e s : passthrough e s !! "_events" = Some (enumerable (VEvents e)).
Proof. reflexivity. Qed.

Lemma passthrough_state e s :
  passthrough e s !! "_readableState" = Some (enumerable (VState s)).
Proof. reflexivity. Qed.

Lemma events_of_ok w r c :
  table_of (heap w) r = Some c → events_of r w = (Ok c, w).
Proof.
  unfold table_of, events_of. intros H.
  destruct (get (heap w) r "_events"); try discriminate. by injection H as ->.
Qed.

Lemma state_of_ok w r s :
  cell_of (heap w) r = Some s → state_of r w = (Ok s, w).
Proof.
  unfold cell_of, state_of. intros H.
  destruct (get (heap w) r "_readableState"); try discriminate. by injection H as ->.
Qed.

Lemma method_ok w r name this :
  method_of (heap w) r name = Some this → method r name w = (Ok this, w).
Proof. unfold method. by intros ->. Qed.

Lemma on_ok w r c l :
  method_of (heap w) r "on" = Some r → table_of (heap w) r = Some c →
  on r l w = (Ok tt, set_tables (alter (λ ls, ls ++ [l]) c (tables w)) w).
Proof.
  intros Hm H. unfold on, and_then.
  by rewrite (method_ok _ _ _ _ Hm), (events_of_ok _ _ _ H).
Qed.

Lemma push_ok w q s x :
  method_of (heap w) q "push" = Some q → cell_of (heap w) q = Some s →
  push q x w = (Ok tt, set_states (alter (pushed x) s (states w)) w).
Proof.
  intros Hm H. unfold push, and_then.
  by rewrite (method_ok _ _ _ _ Hm), (state_of_ok _ _ _ H).
Qed.

Lemma get_app_l (h ext : JS.heap) r key :
  r < length h → get (h ++ ext) r key = get h r key.
Proof. intros Hr. unfold get, obj_at. by rewrite lookup_app_l. Qed.

Lemma get_defined_lt (h : JS.heap) r key : get h r key ≠ VUndefined → r < length h.
Proof.
  unfold get, obj_at. intros H.
  destruct (h !! r) as [o|] eqn:Hr; [by eapply lookup_lt_Some|].
  simpl in H. by rewrite lookup_empty in H.
Qed.

Lemma table_of_lt h r c : table_of h r = Some c → r < length h.
Proof.
  unfold table_of. intros H. apply (get_defined_lt h r "_events").
  by destruct (get h r "_events").
Qed.

Lemma cell_of_lt h r s : cell_of h r = Some s → r < length h.
Proof.
  unfold cell_of. intros H. apply (get_defined_lt h r "_readableState").
  by destruct (get h r "_readableState").
Qed.

Lemma table_of_app h ext r : r < length h → table_of (h ++ ext) r = table_of h r.
Proof. intros Hr. unfold table_of. by rewrite get_app_l. Qed.

Lemma cell_of_app h ext r : r < length h → cell_of (h ++ ext) r = cell_of h r.
Proof. intros Hr. unfold cell_of. by rewrite get_app_l. Qed.

Lemma method_of_app h ext r name :
  r < length h → method_of (h ++ ext) r name = method_of h r name.
Proof. intros Hr. unfold method_of. by rewrite get_app_l. Qed.

(** *** Well-formed worlds *)

Lemma branch_cell w q :
  is_branch w q → ∃ s, cell_of (heap w) q = Some s ∧ s < length (states w).
Proof.
  intros (_ & e & s & Hq & _ & Hs). exists s. split; [|done].
  unfold cell_of, get, obj_at. rewrite Hq. simpl. by rewrite passthrough_state.
Qed.

Lemma branch_table w q :
  is_branch w q → ∃ e, table_of (heap w) q = Some e ∧ e < length (tables w).
Proof.
  intros (_ & e & s & Hq & He & _). exists e. split; [|done].
  unfold table_of, get, obj_at. rewrite Hq. simpl. by rewrite passthrough_events.
Qed.

Lemma branch_method w q name :
  is_branch w q → name = "on" ∨ name = "push" →
  method_of (heap w) q name = Some q.
Proof.
  intros (_ & e & s & Hq & _) Hname.
  unfold method_of, get, obj_at. rewrite Hq. simpl.
  by destruct Hname as [-> | ->].
Qed.

Lemma wf_readable w : wf w → readable w < length (heap w).
Proof. intros [[[c Hc] _] _ _ _ _ _ _ _]. by eapply table_of_lt. Qed.

Lemma wf_input w :
  wf w →
  method_of (heap w) (default (readable w) (buffered w)) "on"
  = Some (default (readable w) (buffered w)) ∧
  ∃ c, table_of (heap w) (default (readable w) (buffered w)) = Some c ∧
       c < length (tables w).
Proof.
  intros Hw.
  assert (method_of (heap w) (readable w) "on" = Some (readable w) ∧
          ∃ c, table_of (heap w) (readable w) = Some c ∧ c < length (tables w))
    as Hrd.
  { destruct (wf_stream w Hw) as ([c Hc] & _ & Hm). split; [done|].
    exists c. split; [done|]. by eapply wf_tables. }
  destruct (buffered w) as [b|] eqn:Hb; simpl; [|done].
  destruct (wf_buffered w Hw b Hb) as [->|Hbr]; [done|].
  split; [apply branch_method; auto|by apply branch_table].
Qed.

Lemma incoming_eq url :
  incoming url =
  {| heap := [incoming_message 0 0 url]; tables := [[Resolve; Reject]];
     states := [fresh_rstate]; readable := 0; buffered := None;
     settled := Pending; finalizers := [] |}.
Proof. reflexivity. Qed.

(** The request that has just arrived is well formed. *)
Lemma wf_incoming url : wf (incoming url).
Proof.
  rewrite incoming_eq. split; simpl.
  - split_and!; [by eexists|by eexists|reflexivity].
  - done.
  - intros r c Hc. pose proof (table_of_lt _ _ _ Hc) as Hr. simpl in Hr.
    destruct r; [|lia]. vm_compute in Hc. injection Hc as <-. lia.
  - intros r s Hs. pose proof (cell_of_lt _ _ _ Hs) as Hr. simpl in Hr.
    destruct r; [|lia]. vm_compute in Hs. injection Hs as <-. lia.
  - intros c ls l q Hc Hl Hq. destruct c; [|done].
    injection Hc as <-.
    apply elem_of_cons in Hl as [->|Hl]; [by apply elem_of_nil in Hq|].
    apply list_elem_of_singleton in Hl as ->. by apply elem_of_nil in Hq.
  - intros c ls Hc. destruct c; [|done]. injection Hc as <-. simpl. constructor.
  - intros r c s ls _ _ Hc. destruct c; [|done]. injection Hc as <-. simpl.
    apply not_elem_of_nil.
  - intros _. split; [done|]. exists 0, [Resolve; Reject].
    repeat split; try done; set_solver.
Qed.

Lemma omap_ext_in {A B} (f g : A → option B) (l : list A) :
  (∀ x, x ∈ l → f x = g x) → omap f l = omap g l.
Proof.
  induction l as [|x l IH]; intros H; [done|]. csimpl.
  rewrite (H x) by set_solver. rewrite IH; [done|].
  intros y Hy. apply H. set_solver.
Qed.

(** *** What an emitted event leaves alone *)

Lemma grows_refl w : grows w w.
Proof. split; try done. exists []. by rewrite app_nil_r. Qed.

Lemma grows_trans w1 w2 w3 : grows w1 w2 → grows w2 w3 → grows w1 w3.
Proof.
  intros [Hr1 Hb1 Ht1 Hs1 (e1 & Hh1 & Hp1) Hp1' Hf1]
         [Hr2 Hb2 Ht2 Hs2 (e2 & Hh2 & Hp2) Hp2' Hf2].
  split; try congruence.
  - exists (e1 ++ e2). rewrite Hh2, Hh1, app_assoc. split; [done|].
    by apply Forall_app.
  - intros Hp. rewrite Hp2'; [by apply Hp1'|]. by rewrite Hp1'.
Qed.

Lemma plain_table_of (h ext : JS.heap) r :
  Forall plain ext → length h ≤ r → table_of (h ++ ext) r = None.
Proof.
  intros Hext Hr. unfold table_of, get, obj_at.
  rewrite lookup_app_r by done.
  destruct (ext !! (r - length h)) as [o|] eqn:Ho; simpl.
  - rewrite Forall_lookup in Hext. destruct (Hext _ _ Ho) as [-> _]. done.
  - by rewrite lookup_empty.
Qed.

Lemma plain_cell_of (h ext : JS.heap) r :
  Forall plain ext → length h ≤ r → cell_of (h ++ ext) r = None.
Proof.
  intros Hext Hr. unfold cell_of, get, obj_at.
  rewrite lookup_app_r by done.
  destruct (ext !! (r - length h)) as [o|] eqn:Ho; simpl.
  - rewrite Forall_lookup in Hext. destruct (Hext _ _ Ho) as [_ ->]. done.
  - by rewrite lookup_empty.
Qed.

Lemma grows_table_of w w' r :
  grows w w' → table_of (heap w') r = table_of (heap w) r.
Proof.
  intros [_ _ _ _ (ext & -> & Hext) _ _].
  destruct (decide (r < length (heap w))) as [Hr|Hr].
  - by apply table_of_app.
  - rewrite plain_table_of by (done || lia).
    destruct (table_of (heap w) r) eqn:H; [|done].
    apply table_of_lt in H. lia.
Qed.

Lemma grows_cell_of w w' r :
  grows w w' → cell_of (heap w') r = cell_of (heap w) r.
Proof.
  intros [_ _ _ _ (ext & -> & Hext) _ _].
  destruct (decide (r < length (heap w))) as [Hr|Hr].
  - by apply cell_of_app.
  - rewrite plain_cell_of by (done || lia).
    destruct (cell_of (heap w) r) eqn:H; [|done].
    apply cell_of_lt in H. lia.
Qed.

Lemma grows_branch w w' q : grows w w' → is_branch w q → is_branch w' q.
Proof.
  intros Hg (Hq & e & s & Hh & He & Hs).
  destruct Hg as [Hr _ Ht Hl (ext & Hext & _) _ _].
  split; [by rewrite Hr|]. exists e, s.
  rewrite Hext, Ht, Hl. split; [|done]. by apply lookup_app_l_Some.
Qed.

Lemma wf_grows w w' : wf w → grows w w' → wf w'.
Proof.
  intros Hw Hg. pose proof Hg as [Hr Hb Ht Hs _ Hp _].
  split.
  - rewrite Hr, !(grows_table_of w w'), !(grows_cell_of w w') by done.
    destruct (wf_stream w Hw) as (H1 & H2 & H3). split_and!; try done.
    destruct Hg as [_ _ _ _ (ext & -> & _) _ _].
    rewrite method_of_app; [done|]. by apply wf_readable.
  - intros b. rewrite Hb, Hr. intros H.
    destruct (wf_buffered w Hw b H); [by left|right]. by eapply grows_branch.
  - intros r c. rewrite (grows_table_of w w'), Ht by done. apply Hw.
  - intros r s. rewrite (grows_cell_of w w'), Hs by done. apply Hw.
  - intros c ls l q. rewrite Ht. intros H1 H2 H3.
    eapply grows_branch; [done|]. by eapply wf_targets.
  - intros c ls. rewrite Ht. intros H.
    rewrite (omap_ext_in _ (cell_of (heap w))); [by eapply wf_nodup|].
    intros q _. by apply grows_cell_of.
  - intros r c s ls.
    rewrite (grows_table_of w w'), (grows_cell_of w w'), Ht by done.
    intros H1 H2 H3.
    rewrite (omap_ext_in _ (cell_of (heap w))); [by eapply wf_acyclic|].
    intros q _. by apply grows_cell_of.
  - intros Hpw'. assert (settled w = Pending) as Hpw.
    { destruct (settled w) eqn:E; [done| |].
      - rewrite Hp in Hpw' by done. done.
      - rewrite Hp in Hpw' by done. done. }
    destruct (wf_pending w Hw Hpw) as (Hne & c & ls & H1 & H2 & H3 & H4).
    rewrite Hb, Hr. split; [done|]. exists c, ls.
    rewrite (grows_table_of w w'), Ht by done. done.
Qed.

Lemma growing_ret {A} (a : A) : growing (ret a).
Proof. intros w. apply grows_refl. Qed.

Lemma growing_and_then {A B} (m : M A) (k : A → M B) :
  growing m → (∀ a, growing (k a)) → growing (and_then m k).
Proof.
  intros Hm Hk w. unfold and_then. specialize (Hm w).
  destruct (m w) as [[a|e] w1]; simpl in *; [|done].
  eapply grows_trans; [done|apply Hk].
Qed.

Lemma growing_type_error {A} : growing (@type_error A).
Proof.
  intros w. unfold type_error. split; simpl; try done.
  eexists. split; [done|]. by repeat constructor.
Qed.

Lemma growing_events_of r : growing (events_of r).
Proof.
  intros w. unfold events_of.
  destruct (get (heap w) r "_events"); try apply growing_type_error.
  apply grows_refl.
Qed.

Lemma growing_state_of r : growing (state_of r).
Proof.
  intros w. unfold state_of.
  destruct (get (heap w) r "_readableState"); try apply growing_type_error.
  apply grows_refl.
Qed.

Lemma grows_set_states w st :
  length st = length (states w) → grows w (set_states st w).
Proof. intros H. split; simpl; try done. exists []. by rewrite app_nil_r. Qed.

Lemma growing_method r name : growing (method r name).
Proof.
  intros w. unfold method.
  destruct (method_of (heap w) r name); [apply grows_refl|apply growing_type_error].
Qed.

Lemma growing_push q x : growing (push q x).
Proof.
  apply growing_and_then; [apply growing_method|]. intros this.
  apply growing_and_then; [apply growing_state_of|]. intros s w.
  apply grows_set_states. by rewrite length_alter.
Qed.

Lemma growing_settle p : p ≠ Pending → growing (settle p).
Proof.
  intros Hp w. unfold settle, modify. simpl.
  destruct (settled w) eqn:E; try apply grows_refl.
  split; simpl; try done. exists []. by rewrite app_nil_r.
Qed.

Lemma growing_run_listener l ev : growing (run_listener l ev).
Proof.
  destruct l, ev; simpl; try apply growing_ret;
    try (by apply growing_settle);
    (apply growing_and_then; [apply growing_push|intros _; apply growing_push]).
Qed.

Lemma growing_run_listeners ls ev : growing (run_listeners ls ev).
Proof.
  induction ls as [|l ls IH]; simpl; [apply growing_ret|].
  apply growing_and_then; [apply growing_run_listener|done].
Qed.

Lemma growing_emit r ev : growing (emit r ev).
Proof.
  apply growing_and_then; [apply growing_events_of|]. intros c w.
  destruct ev; try apply growing_run_listeners. cbv beta zeta.
  match goal with |- context [existsb ?f ?l] => destruct (existsb f l) end;
    [apply growing_run_listeners|apply grows_refl].
Qed.

Lemma growing_flow r : growing (flow r).
Proof.
  apply growing_and_then; [apply growing_state_of|]. intros s.
  apply growing_and_then; [apply growing_events_of|]. intros c w.
  cbv beta zeta.
  match goal with |- context [existsb ?f ?l] => destruct (existsb f l) end;
    [|apply grows_refl].
  destruct (buffer _) as [|x rest].
  - match goal with |- context [?a && ?b] => destruct (a && b) end;
      [|apply grows_refl].
    eapply grows_trans; [|apply growing_emit].
    apply grows_set_states. by rewrite length_insert.
  - eapply grows_trans; [|apply growing_emit].
    apply grows_set_states. by rewrite length_insert.
Qed.

Lemma wf_emit w r ev : wf w → wf (emit r ev w).2.
Proof. intros Hw. eapply wf_grows; [done|apply growing_emit]. Qed.

Lemma wf_flow w r : wf w → wf (flow r w).2.
Proof. intros Hw. eapply wf_grows; [done|apply growing_flow]. Qed.

(** *** The effect of a 'data' event *)

Lemma push_all_length x cells st : length (push_all x cells st) = length st.
Proof.
  revert st. induction cells as [|s cells IH]; intros st; [done|].
  simpl. by rewrite IH, length_alter.
Qed.

Lemma push_all_lookup x cells st s :
  NoDup cells →
  push_all x cells st !! s =
  if decide (s ∈ cells) then pushed (Some x) <$> st !! s else st !! s.
Proof.
  intros Hnd. revert st. induction Hnd as [|a cells Ha Hnd IH]; intros st.
  - case_decide as H; [by apply elem_of_nil in H|done].
  - change (push_all x (a :: cells) st)
      with (push_all x cells (alter (pushed (Some x)) a st)).
    rewrite IH. destruct (decide (s = a)) as [->|Hne].
    + rewrite (decide_False (P := a ∈ cells)) by done.
      rewrite decide_True by (by left). by rewrite list_lookup_alter_eq.
    + rewrite list_lookup_alter_ne by done.
      repeat case_decide; try done; set_solver.
Qed.

Lemma run_listeners_data w ls x :
  (∀ l q, l ∈ ls → q ∈ targets l →
          method_of (heap w) q "push" = Some q ∧ is_Some (cell_of (heap w) q)) →
  run_listeners ls (EvData x) w =
  (Ok tt, set_states (push_all x (omap (cell_of (heap w)) (data_targets ls))
                        (states w)) w).
Proof.
  revert w. induction ls as [|l ls IH]; intros w Hls.
  - by destruct w.
  - assert (∀ w', heap w' = heap w →
              run_listeners ls (EvData x) w' =
              (Ok tt, set_states (push_all x (omap (cell_of (heap w)) (data_targets ls))
                                    (states w')) w')) as IH'.
    { intros w' Hh. rewrite <- Hh. apply IH. rewrite Hh.
      intros l' q Hl' Hq. apply (Hls l' q); [by right|done]. }
    destruct l as [| |p1 p2|p1 p2]; simpl; unfold and_then; simpl;
      try (rewrite IH' by done; done).
    destruct (Hls (TeeData p1 p2) p1) as [Hm1 [s1 Hs1]]; [by left|set_solver|].
    destruct (Hls (TeeData p1 p2) p2) as [Hm2 [s2 Hs2]]; [by left|set_solver|].
    rewrite (push_ok w p1 s1) by done.
    rewrite (push_ok _ p2 s2) by done.
    rewrite IH' by done. simpl. rewrite Hs1. simpl. rewrite Hs2. done.
Qed.

Lemma emit_data_ok w r c x :
  wf w → table_of (heap w) r = Some c →
  emit r (EvData x) w =
  (Ok tt, set_states
            (push_all x (omap (cell_of (heap w))
                           (data_targets (default [] (tables w !! c))))
               (states w)) w).
Proof.
  intros Hw Hc. unfold emit, and_then. rewrite (events_of_ok _ _ _ Hc).
  apply run_listeners_data. intros l q Hl Hq.
  destruct (tables w !! c) as [ls|] eqn:Hls; [|by apply elem_of_nil in Hl].
  assert (is_branch w q) as Hq' by (by eapply wf_targets).
  split; [apply branch_method; auto|].
  destruct (branch_cell w q Hq') as (s & Hs & _). by eexists.
Qed.

Lemma live_state_at w p acc :
  live w p acc →
  buffer (state_at w p) = acc ∧ ended (state_at w p) = false ∧
  errored (state_at w p) = false.
Proof.
  intros (s & st & Hs & Hst & ? & ? & ?). unfold state_at. by rewrite Hs, Hst.
Qed.

(** A chunk emitted on a stream reaches each branch teed from it once. *)
Lemma tee_data w r c ls p1 p2 a1 a2 x :
  wf w → table_of (heap w) r = Some c → tables w !! c = Some ls →
  TeeData p1 p2 ∈ ls → live w p1 a1 → live w p2 a2 →
  live (emit r (EvData x) w).2 p1 (a1 ++ [x]) ∧
  live (emit r (EvData x) w).2 p2 (a2 ++ [x]).
Proof.
  intros Hw Hc Hls Hin Hp1 Hp2. rewrite (emit_data_ok w r c) by done.
  rewrite Hls. simpl.
  pose proof (wf_nodup w Hw c ls Hls) as Hnd.
  assert (∀ p a, p ∈ [p1; p2] → live w p a →
            live (set_states (push_all x (omap (cell_of (heap w)) (data_targets ls))
                                (states w)) w) p (a ++ [x])) as Hlive.
  { intros p a Hp (s & st & Hs & Hst & Hb & He & Hr).
    exists s, (pushed (Some x) st). simpl. split; [done|].
    rewrite push_all_lookup by done. rewrite decide_True.
    - rewrite Hst. simpl. split; [done|]. unfold pushed. rewrite He. simpl.
      by rewrite Hb.
    - apply list_elem_of_omap. exists p. split; [|done].
      unfold data_targets. apply list_elem_of_bind. exists (TeeData p1 p2). by split. }
  split; apply Hlive; set_solver.
Qed.

(** *** The effect of cloneBodyStream *)

Lemma cloneBodyStream_ok w c :
  method_of (heap w) (default (readable w) (buffered w)) "on"
  = Some (default (readable w) (buffered w)) →
  table_of (heap w) (default (readable w) (buffered w)) = Some c →
  c < length (tables w) →
  cloneBodyStream w = (Ok (length (heap w)), cloned w c).
Proof.
  intros Hm Hc Hlt. pose proof (table_of_lt _ _ _ Hc) as Hin.
  unfold cloneBodyStream, and_then, new_PassThrough. simpl.
  rewrite (on_ok _ _ c);
    [|simpl; by rewrite !method_of_app by (rewrite ?length_app; lia)
     |simpl; by rewrite !table_of_app by (rewrite ?length_app; lia)].
  rewrite (on_ok _ _ c);
    [|simpl; by rewrite !method_of_app by (rewrite ?length_app; lia)
     |simpl; by rewrite !table_of_app by (rewrite ?length_app; lia)].
  simpl. unfold set_buffered, set_tables, cloned. simpl.
  rewrite !length_app. simpl. rewrite !Nat.add_1_r. rewrite <- !app_assoc. simpl.
  f_equal. f_equal.
  rewrite list_alter_alter_eq, alter_app_l by done. f_equal.
  apply list_alter_ext; [|done]. intros ls _. simpl. by rewrite <- app_assoc.
Qed.

Lemma get_cloned w c r key :
  get (heap (cloned w c)) r key =
  if decide (r = length (heap w))
  then get [passthrough (length (tables w)) (length (states w))] 0 key
  else if decide (r = S (length (heap w)))
  then get [passthrough (S (length (tables w))) (S (length (states w)))] 0 key
  else get (heap w) r key.
Proof.
  unfold get, obj_at. simpl.
  repeat case_decide; subst.
  - by rewrite list_lookup_middle.
  - rewrite lookup_app_r by lia.
    replace (S (length (heap w)) - length (heap w)) with 1 by lia. done.
  - destruct (decide (r < length (heap w))).
    + by rewrite lookup_app_l.
    + rewrite !lookup_ge_None_2; [done|lia|]. rewrite length_app. simpl. lia.
Qed.

Lemma table_of_cloned w c r :
  table_of (heap (cloned w c)) r =
  if decide (r = length (heap w)) then Some (length (tables w))
  else if decide (r = S (length (heap w))) then Some (S (length (tables w)))
  else table_of (heap w) r.
Proof. unfold table_of. rewrite get_cloned. by repeat case_decide. Qed.

Lemma cell_of_cloned w c r :
  cell_of (heap (cloned w c)) r =
  if decide (r = length (heap w)) then Some (length (states w))
  else if decide (r = S (length (heap w))) then Some (S (length (states w)))
  else cell_of (heap w) r.
Proof. unfold cell_of. rewrite get_cloned. by repeat case_decide. Qed.

Lemma method_of_cloned_old w c r name :
  r < length (heap w) → method_of (heap (cloned w c)) r name = method_of (heap w) r name.
Proof.
  intros Hr. unfold method_of. rewrite get_cloned. repeat case_decide; (lia || done).
Qed.

Lemma cell_of_cloned_old w c r :
  r < length (heap w) → cell_of (heap (cloned w c)) r = cell_of (heap w) r.
Proof. intros Hr. rewrite cell_of_cloned. repeat case_decide; (lia || done). Qed.

Lemma branch_cloned w c q : is_branch w q → is_branch (cloned w c) q.
Proof.
  intros (Hq & e & s & Hh & He & Hs). split; [done|]. exists e, s. simpl.
  rewrite !length_app, length_alter. simpl.
  split; [by apply lookup_app_l_Some|lia].
Qed.

Lemma branch_cloned_new w c q :
  wf w → q = length (heap w) ∨ q = S (length (heap w)) → is_branch (cloned w c) q.
Proof.
  intros Hw Hq. pose proof (wf_readable w Hw) as Hr.
  split; [simpl; lia|]. simpl. rewrite !length_app, length_alter. simpl.
  destruct Hq as [-> | ->].
  - exists (length (tables w)), (length (states w)).
    split; [by rewrite list_lookup_middle|lia].
  - exists (S (length (tables w))), (S (length (states w))).
    split; [|lia]. rewrite lookup_app_r by lia.
    replace (S (length (heap w)) - length (heap w)) with 1 by lia. done.
Qed.

Lemma tables_cloned w c c0 ls0 :
  c < length (tables w) →
  tables (cloned w c) !! c0 = Some ls0 →
  (c0 = c ∧ ∃ ls, tables w !! c = Some ls ∧
     ls0 = ls ++ [TeeData (length (heap w)) (S (length (heap w)));
                  TeeEnd (length (heap w)) (S (length (heap w)))]) ∨
  (c0 ≠ c ∧ tables w !! c0 = Some ls0) ∨
  ls0 = [].
Proof.
  intros Hc. simpl. intros H.
  apply lookup_app_Some in H as [H|[_ H]].
  - destruct (decide (c0 = c)) as [->|Hne].
    + left. split; [done|]. rewrite list_lookup_alter_eq in H.
      destruct (tables w !! c) as [ls|]; [|done]. injection H as <-. by exists ls.
    + right. left. split; [done|]. by rewrite list_lookup_alter_ne in H.
  - right. right.
    destruct (c0 - _) as [|[|?]]; simpl in H; by try injection H as <-.
Qed.

Lemma wf_cloned w c :
  wf w → table_of (heap w) (default (readable w) (buffered w)) = Some c →
  wf (cloned w c).
Proof.
  intros Hw Hc. pose proof (wf_readable w Hw) as Hr.
  assert (c < length (tables w)) as Hlt by (by eapply wf_tables).
  assert (∀ c0 ls, tables w !! c0 = Some ls →
            omap (cell_of (heap (cloned w c))) (data_targets ls)
            = omap (cell_of (heap w)) (data_targets ls)) as Hold.
  { intros c0 ls Hls. apply omap_ext_in. intros q Hq.
    apply cell_of_cloned_old.
    apply list_elem_of_bind in Hq as (l & Hq & Hl).
    destruct (wf_targets w Hw c0 ls l q Hls Hl) as (_ & e & s & Hh & _).
    { destruct l; simpl in *; set_solver. }
    by eapply lookup_lt_Some. }
  assert (∀ ls, tables w !! c = Some ls →
            omap (cell_of (heap (cloned w c)))
              (data_targets (ls ++ [TeeData (length (heap w)) (S (length (heap w)));
                                    TeeEnd (length (heap w)) (S (length (heap w)))]))
            = omap (cell_of (heap w)) (data_targets ls)
              ++ [length (states w); S (length (states w))]) as Hnew.
  { intros ls Hls. unfold data_targets. rewrite bind_app, omap_app.
    fold (data_targets ls). rewrite (Hold c) by done.
    assert (cell_of (heap (cloned w c)) (length (heap w))
            = Some (length (states w))) as E1.
    { rewrite cell_of_cloned. by rewrite decide_True. }
    assert (cell_of (heap (cloned w c)) (S (length (heap w)))
            = Some (S (length (states w)))) as E2.
    { rewrite cell_of_cloned. rewrite decide_False by lia. by rewrite decide_True. }
    simpl in E1, E2 |- *. by rewrite E1, E2. }
  assert (∀ (ls : list listener) s,
            s ∈ omap (cell_of (heap w)) (data_targets ls) →
            s < length (states w)) as Hcells.
  { intros ls s Hs. apply list_elem_of_omap in Hs as (q' & _ & Hs).
    by eapply wf_states. }
  split.
  - rewrite table_of_cloned, cell_of_cloned. simpl readable.
    rewrite method_of_cloned_old by done.
    repeat case_decide; try lia. apply Hw.
  - intros b Hb. right. injection Hb as <-. apply branch_cloned_new; auto.
  - intros r c0. rewrite table_of_cloned. simpl.
    rewrite length_app, length_alter. simpl.
    repeat case_decide; intros Hrc; try (injection Hrc as <-; lia).
    pose proof (wf_tables w Hw r c0 Hrc). lia.
  - intros r s. rewrite cell_of_cloned. simpl. rewrite length_app. simpl.
    repeat case_decide; intros Hrs; try (injection Hrs as <-; lia).
    pose proof (wf_states w Hw r s Hrs). lia.
  - intros c0 ls0 l q H Hl Hq.
    destruct (tables_cloned w c c0 ls0 Hlt H)
      as [(-> & ls & Hls & ->)|[(Hne & Hls)| ->]].
    + apply elem_of_app in Hl as [Hl|Hl].
      * apply branch_cloned. by eapply wf_targets.
      * apply branch_cloned_new; [done|].
        apply elem_of_cons in Hl as [->|Hl];
          [|apply list_elem_of_singleton in Hl as ->]; simpl in Hq; set_solver.
    + apply branch_cloned. by eapply wf_targets.
    + by apply elem_of_nil in Hl.
  - intros c0 ls0 H.
    destruct (tables_cloned w c c0 ls0 Hlt H)
      as [(-> & ls & Hls & ->)|[(Hne & Hls)| ->]].
    + rewrite Hnew by done.
      apply NoDup_app. split; [by eapply wf_nodup|]. split.
      * intros s Hs Hin. pose proof (Hcells ls s Hs). set_solver by lia.
      * apply NoDup_cons. split; [set_solver by lia|]. apply NoDup_singleton.
    + rewrite (Hold c0) by done. by eapply wf_nodup.
    + constructor.
  - intros r c0 s ls0. rewrite table_of_cloned, cell_of_cloned.
    intros Hrc Hrs H.
    destruct (tables_cloned w c c0 ls0 Hlt H)
      as [(-> & ls & Hls & ->)|[(Hne & Hls)| ->]].
    + rewrite Hnew by done.
      repeat case_decide; simplify_eq; try lia.
      pose proof (wf_states w Hw r s Hrs).
      pose proof (wf_acyclic w Hw r c s ls Hrc Hrs Hls). set_solver by lia.
    + rewrite (Hold c0) by done.
      repeat case_decide; simplify_eq.
      * apply lookup_lt_Some in Hls. lia.
      * apply lookup_lt_Some in Hls. lia.
      * by eapply wf_acyclic.
    + apply not_elem_of_nil.
  - intros Hp. split; [simpl; intros [=]; lia|].
    destruct (wf_pending w Hw Hp) as (_ & cr & ls & H1 & H2 & H3 & H4).
    rewrite table_of_cloned. simpl. repeat case_decide; try lia.
    exists cr. destruct (decide (cr = c)) as [->|Hne].
    + exists (ls ++ [TeeData (length (heap w)) (S (length (heap w)));
                     TeeEnd (length (heap w)) (S (length (heap w)))]).
      split; [done|]. split; [|set_solver].
      rewrite lookup_app_l by (rewrite length_alter; lia).
      by rewrite list_lookup_alter_eq, H2.
    + exists ls. split; [done|]. split; [|done].
      rewrite lookup_app_l.
      * by rewrite list_lookup_alter_ne.
      * rewrite length_alter. by eapply lookup_lt_Some.
Qed.

(** *** Events on a teed stream *)

Lemma run_listeners_error_states ls err w :
  states (run_listeners ls (EvError err) w).2 = states w.
Proof.
  revert w. induction ls as [|l ls IH]; intros w; [done|].
  simpl. unfold and_then.
  destruct l; simpl; try apply IH.
  rewrite IH. unfold settle, modify. simpl. by destruct (settled w).
Qed.

Lemma emit_error_states r err w : states (emit r (EvError err) w).2 = states w.
Proof.
  unfold emit, and_then, events_of.
  destruct (get (heap w) r "_events"); try done.
  cbv beta zeta.
  match goal with |- context [existsb ?f ?l] => destruct (existsb f l) end;
    [apply run_listeners_error_states|done].
Qed.

Lemma live_emit_error w r err p acc :
  live w p acc → live (emit r (EvError err) w).2 p acc.
Proof.
  intros (s & st & Hs & Hst & H). exists s, st.
  rewrite (grows_cell_of w) by apply growing_emit.
  by rewrite emit_error_states.
Qed.

Lemma data_of_events_data cs : data_of_events (EvData <$> cs) = cs.
Proof.
  unfold data_of_events. induction cs as [|c cs IH]; [done|]. csimpl. by rewrite IH.
Qed.

(** As long as the stream does not emit 'end', the two branches teed from it
    hold the chunks it emitted, in order, and stay open. *)
Lemma tee_events w r c p1 p2 a1 a2 evs :
  wf w → table_of (heap w) r = Some c →
  (∃ ls, tables w !! c = Some ls ∧ TeeData p1 p2 ∈ ls) →
  EvEnd ∉ evs →
  live w p1 a1 → live w p2 a2 →
  live (run (Emit r <$> evs) w) p1 (a1 ++ data_of_events evs) ∧
  live (run (Emit r <$> evs) w) p2 (a2 ++ data_of_events evs).
Proof.
  revert w a1 a2. induction evs as [|ev evs IH]; intros w a1 a2 Hw Hc Hls Hend H1 H2.
  - simpl. by rewrite !app_nil_r.
  - simpl.
    assert (EvEnd ∉ evs) as Hend' by set_solver.
    assert (wf (emit r ev w).2) as Hw' by (by apply wf_emit).
    pose proof (growing_emit r ev w) as Hg.
    assert (table_of (heap (emit r ev w).2) r = Some c) as Hc'
      by (by rewrite (grows_table_of w)).
    assert (∃ ls, tables (emit r ev w).2 !! c = Some ls ∧ TeeData p1 p2 ∈ ls) as Hls'
      by (by rewrite (g_tables _ _ Hg)).
    destruct ev as [x| |err].
    + destruct Hls as (ls & Hls & Hin).
      destruct (tee_data w r c ls p1 p2 a1 a2 x) as [H1' H2']; try done.
      simpl. rewrite !(cons_middle x), !app_assoc. by apply IH.
    + set_solver.
    + simpl. apply IH; try done; by apply live_emit_error.
Qed.

(** *** The effect of an 'end' event *)

Lemma pushed_end_idem st : pushed None (pushed None st) = pushed None st.
Proof. done. Qed.

Lemma end_all_lookup cells st s :
  end_all cells st !! s =
  if decide (s ∈ cells) then pushed None <$> st !! s else st !! s.
Proof.
  revert st. induction cells as [|a cells IH]; intros st.
  - case_decide as H; [by apply elem_of_nil in H|done].
  - change (end_all (a :: cells) st) with (end_all cells (alter (pushed None) a st)).
    rewrite IH. destruct (decide (s = a)) as [->|Hne].
    + rewrite list_lookup_alter_eq. rewrite (decide_True (P := a ∈ a :: cells)) by (by left).
      case_decide; [|done]. by destruct (st !! a).
    + rewrite list_lookup_alter_ne by done.
      repeat case_decide; try done; set_solver.
Qed.

Lemma run_listeners_end w ls :
  (∀ l q, l ∈ ls → q ∈ targets l →
          method_of (heap w) q "push" = Some q ∧ is_Some (cell_of (heap w) q)) →
  ∃ w', run_listeners ls EvEnd w = (Ok tt, w') ∧ heap w' = heap w ∧
        states w' = end_all (omap (cell_of (heap w)) (end_targets ls)) (states w).
Proof.
  revert w. induction ls as [|l ls IH]; intros w Hls.
  - by exists w.
  - assert (∀ w', heap w' = heap w →
              ∃ w'', run_listeners ls EvEnd w' = (Ok tt, w'') ∧ heap w'' = heap w ∧
                     states w'' = end_all (omap (cell_of (heap w)) (end_targets ls))
                                    (states w')) as IH'.
    { intros w' Hh. rewrite <- Hh. apply IH. rewrite Hh.
      intros l' q Hl' Hq. apply (Hls l' q); [by right|done]. }
    destruct l as [| |p1 p2|p1 p2]; cbn [run_listeners run_listener]; unfold and_then.
    + unfold settle, modify.
      destruct (IH' (match settled w with Pending => set_settled Fulfilled w | _ => w end))
        as (w'' & Hrun & Hh & Hst); [by destruct (settled w)|].
      exists w''. split_and!; [done|done|]. rewrite Hst. by destruct (settled w).
    + cbn [ret]. by apply IH'.
    + cbn [ret]. by apply IH'.
    + destruct (Hls (TeeEnd p1 p2) p1) as [Hm1 [s1 Hs1]]; [by left|set_solver|].
      destruct (Hls (TeeEnd p1 p2) p2) as [Hm2 [s2 Hs2]]; [by left|set_solver|].
      rewrite (push_ok w p1 s1) by done.
      rewrite (push_ok _ p2 s2) by done.
      destruct (IH' (set_states (alter (pushed None) s2
                       (states (set_states (alter (pushed None) s1 (states w)) w)))
                       (set_states (alter (pushed None) s1 (states w)) w)))
        as (w'' & Hrun & Hh & Hst); [done|].
      exists w''. split_and!; [done|done|]. rewrite Hst.
      unfold end_targets. rewrite bind_cons. simpl. by rewrite Hs1, Hs2.
Qed.

(** The 'end' of a stream ends each branch teed from it and leaves what the
    branch holds. *)
Lemma tee_end w r c ls p1 p2 p a :
  wf w → table_of (heap w) r = Some c → tables w !! c = Some ls →
  TeeEnd p1 p2 ∈ ls → p ∈ [p1; p2] → live w p a →
  buffer (state_at (emit r EvEnd w).2 p) = a ∧
  ended (state_at (emit r EvEnd w).2 p) = true ∧
  errored (state_at (emit r EvEnd w).2 p) = false.
Proof.
  intros Hw Hc Hls Hin Hp (s & st & Hs & Hst & Hb & He & Hr).
  unfold emit, and_then. rewrite (events_of_ok _ _ _ Hc). rewrite Hls. simpl.
  destruct (run_listeners_end w ls) as (w' & -> & Hh & Hst').
  { intros l q Hl Hq. assert (is_branch w q) as Hq' by (by eapply wf_targets).
    split; [apply branch_method; auto|].
    destruct (branch_cell w q Hq') as (? & ? & _). by eexists. }
  simpl. unfold state_at. rewrite Hh, Hs, Hst', end_all_lookup.
  rewrite decide_True.
  - rewrite Hst. simpl. done.
  - apply list_elem_of_omap. exists p. split; [|done].
    apply list_elem_of_bind. exists (TeeEnd p1 p2). by split.
Qed.

Lemma run_emit_grows w r evs : grows w (run (Emit r <$> evs) w).
Proof.
  revert w. induction evs as [|ev evs IH]; intros w; [apply grows_refl|].
  simpl. eapply grows_trans; [apply growing_emit|apply IH].
Qed.

Lemma live_cloned w c :
  wf w →
  live (cloned w c) (length (heap w)) [] ∧
  live (cloned w c) (S (length (heap w))) [].
Proof.
  intros Hw. split.
  - exists (length (states w)), fresh_rstate.
    rewrite cell_of_cloned, decide_True by done. split; [done|].
    split; [|done]. simpl. by rewrite list_lookup_middle.
  - exists (S (length (states w))), fresh_rstate.
    rewrite cell_of_cloned, decide_False, decide_True by (done || lia).
    split; [done|]. split; [|done]. simpl. rewrite lookup_app_r by lia.
    replace (S (length (states w)) - length (states w)) with 1 by lia. done.
Qed.

(** What [cloneBodyStream] does in a well-formed world. *)
Lemma cloneBodyStream_spec w :
  wf w →
  ∃ c ls,
    table_of (heap w) (default (readable w) (buffered w)) = Some c ∧
    tables w !! c = Some ls ∧
    cloneBodyStream w = (Ok (length (heap w)), cloned w c) ∧
    wf (cloned w c) ∧
    table_of (heap (cloned w c)) (default (readable w) (buffered w)) = Some c ∧
    tables (cloned w c) !! c
    = Some (ls ++ [TeeData (length (heap w)) (S (length (heap w)));
                   TeeEnd (length (heap w)) (S (length (heap w)))]).
Proof.
  intros Hw. destruct (wf_input w Hw) as (Hm & c & Hc & Hlt).
  destruct (lookup_lt_is_Some_2 (tables w) c Hlt) as [ls Hls].
  exists c, ls. split_and!; try done.
  - by apply cloneBodyStream_ok.
  - by apply wf_cloned.
  - rewrite table_of_cloned. pose proof (table_of_lt _ _ _ Hc).
    repeat case_decide; (lia || done).
  - simpl. rewrite lookup_app_l by (by rewrite length_alter).
    by rewrite list_lookup_alter_eq, Hls.
Qed.

(** C1: the chunks the input emits after [cloneBodyStream()] reach the
    branch handed to the caller and the branch kept in [buffered], each
    chunk once and in the order of emission; what the input emitted before
    the call reaches neither: both branches are empty when the call
    returns. When the input ends, both branches are ended and hold exactly
    those chunks. *)
Theorem cloneBodyStream_tees_from_the_call_on (w : world) (pre post : list chunk) :
  wf w →
  let input := default (readable w) (buffered w) in
  let w1 := run (Emit input <$> (EvData <$> pre)) w in
  ∃ p1 p2 w2,
    cloneBodyStream w1 = (Ok p1, w2) ∧ buffered w2 = Some p2 ∧ p1 ≠ p2 ∧
    buffer (state_at w2 p1) = [] ∧ buffer (state_at w2 p2) = [] ∧
    let w3 := run (Emit input <$> (EvData <$> post)) w2 in
    buffer (state_at w3 p1) = post ∧ buffer (state_at w3 p2) = post ∧
    let w4 := step (Emit input EvEnd) w3 in
    (buffer (state_at w4 p1) = post ∧ ended (state_at w4 p1) = true) ∧
    (buffer (state_at w4 p2) = post ∧ ended (state_at w4 p2) = true).
Proof.
  intros Hw input w1.
  pose proof (run_emit_grows w input (EvData <$> pre)) as Hg. fold w1 in Hg.
  assert (wf w1) as Hw1 by (by eapply wf_grows).
  assert (default (readable w1) (buffered w1) = input) as Hin.
  { unfold input. by rewrite (g_readable _ _ Hg), (g_buffered _ _ Hg). }
  destruct (cloneBodyStream_spec w1 Hw1) as (c & ls & Hc & Hls & Hok & Hw2 & Hc2 & Hls2).
  rewrite Hin in Hc, Hc2.
  exists (length (heap w1)), (S (length (heap w1))), (cloned w1 c).
  destruct (live_cloned w1 c Hw1) as [H1 H2].
  split; [done|]. split; [done|]. split; [lia|].
  split; [by apply (live_state_at _ _ _ H1)|].
  split; [by apply (live_state_at _ _ _ H2)|].
  destruct (tee_events (cloned w1 c) input c (length (heap w1)) (S (length (heap w1)))
              [] [] (EvData <$> post)) as [H1' H2']; try done.
  { eexists. split; [done|]. set_solver. }
  { intros (x & ? & _)%list_elem_of_fmap. done. }
  rewrite data_of_events_data in H1', H2'. simpl in H1', H2'.
  intros w3. fold w3 in H1', H2'.
  split; [by apply (live_state_at _ _ _ H1')|].
  split; [by apply (live_state_at _ _ _ H2')|].
  pose proof (run_emit_grows (cloned w1 c) input (EvData <$> post)) as Hg3.
  fold w3 in Hg3.
  assert (wf w3) as Hw3 by (by eapply wf_grows).
  assert (table_of (heap w3) input = Some c) as Hc3
    by (by rewrite (grows_table_of (cloned w1 c))).
  assert (tables w3 !! c
          = Some (ls ++ [TeeData (length (heap w1)) (S (length (heap w1)));
                         TeeEnd (length (heap w1)) (S (length (heap w1)))])) as Hls3
    by (by rewrite (g_tables _ _ Hg3)).
  simpl.
  destruct (tee_end w3 input c _ (length (heap w1)) (S (length (heap w1)))
              (length (heap w1)) post Hw3 Hc3 Hls3) as (? & ? & _);
    [set_solver|set_solver|done|].
  destruct (tee_end w3 input c _ (length (heap w1)) (S (length (heap w1)))
              (S (length (heap w1))) post Hw3 Hc3 Hls3) as (? & ? & _);
    [set_solver|set_solver|done|].
  done.
Qed.

Lemma cloneBodyStream_tees_from_the_call_on_witness :
  let a := ["a"]%byte in
  let b := ["b"]%byte in
  let c := ["c"]%byte in
  ∃ p1 p2 w2,
    cloneBodyStream (run (Emit 0 <$> (EvData <$> [a])) (incoming "/")) = (Ok p1, w2) ∧
    buffered w2 = Some p2 ∧ p1 ≠ p2 ∧
    buffer (state_at w2 p1) = [] ∧ buffer (state_at w2 p2) = [] ∧
    let w3 := run (Emit 0 <$> (EvData <$> [b; c])) w2 in
    buffer (state_at w3 p1) = [b; c] ∧ buffer (state_at w3 p2) = [b; c] ∧
    let w4 := step (Emit 0 EvEnd) w3 in
    (buffer (state_at w4 p1) = [b; c] ∧ ended (state_at w4 p1) = true) ∧
    (buffer (state_at w4 p2) = [b; c] ∧ ended (state_at w4 p2) = true).
Proof.
  intros a b c.
  exact (cloneBodyStream_tees_from_the_call_on (incoming "/") [a] [b; c] (wf_incoming "/")).
Defined.

(** C10: if the input emits chunks and errors but never 'end' after
    [cloneBodyStream()], neither branch is ended and neither is errored: the
    call registers a 'data' and an 'end' listener on the input and nothing
    else. *)
Theorem branches_stay_open_without_end (w : world) (evs : list event) :
  wf w →
  EvEnd ∉ evs →
  let input := default (readable w) (buffered w) in
  ∃ p1 p2 w2 c ls,
    cloneBodyStream w = (Ok p1, w2) ∧ buffered w2 = Some p2 ∧
    table_of (heap w) input = Some c ∧ tables w !! c = Some ls ∧
    tables w2 !! c = Some (ls ++ [TeeData p1 p2; TeeEnd p1 p2]) ∧
    ended (state_at (run (Emit input <$> evs) w2) p1) = false ∧
    errored (state_at (run (Emit input <$> evs) w2) p1) = false ∧
    ended (state_at (run (Emit input <$> evs) w2) p2) = false ∧
    errored (state_at (run (Emit input <$> evs) w2) p2) = false.
Proof.
  intros Hw Hend input.
  destruct (cloneBodyStream_spec w Hw) as (c & ls & Hc & Hls & Hok & Hw2 & Hc2 & Hls2).
  exists (length (heap w)), (S (length (heap w))), (cloned w c), c, ls.
  destruct (live_cloned w c Hw) as [H1 H2].
  destruct (tee_events (cloned w c) input c (length (heap w)) (S (length (heap w)))
              [] [] evs) as [H1' H2']; try done.
  { eexists. split; [done|]. set_solver. }
  apply live_state_at in H1' as (_ & ? & ?).
  apply live_state_at in H2' as (_ & ? & ?).
  split_and!; done.
Qed.

Lemma branches_stay_open_without_end_witness :
  let a := ["a"]%byte in
  ∃ p1 p2 w2 c ls,
    cloneBodyStream (incoming "/") = (Ok p1, w2) ∧ buffered w2 = Some p2 ∧
    table_of (heap (incoming "/")) 0 = Some c ∧
    tables (incoming "/") !! c = Some ls ∧
    tables w2 !! c = Some (ls ++ [TeeData p1 p2; TeeEnd p1 p2]) ∧
    ended (state_at (run (Emit 0 <$> [EvData a; EvError 9]) w2) p1) = false ∧
    errored (state_at (run (Emit 0 <$> [EvData a; EvError 9]) w2) p1) = false ∧
    ended (state_at (run (Emit 0 <$> [EvData a; EvError 9]) w2) p2) = false ∧
    errored (state_at (run (Emit 0 <$> [EvData a; EvError 9]) w2) p2) = false.
Proof.
  intros a.
  apply (branches_stay_open_without_end (incoming "/") [EvData a; EvError 9]
           (wf_incoming "/")).
  intros [?|[?|?%elem_of_nil]%elem_of_cons]%elem_of_cons; done.
Defined.

(** *** finalize *)

(** C9: without a clone ([buffered] is null) [finalize()] is resolved at
    once and changes nothing: the heap, with the original stream object in
    it, the listeners, what the streams hold and [buffered] are as before. *)
Theorem finalize_without_clone_changes_nothing (w : world) :
  buffered w = None →
  finalize w = (Resolved, w) ∧
  heap (step CallFinalize w) = heap w ∧
  tables (step CallFinalize w) = tables w ∧
  states (step CallFinalize w) = states w ∧
  buffered (step CallFinalize w) = None ∧
  finalizers (step CallFinalize w) = finalizers w ++ [Resolved].
Proof.
  intros Hb. unfold finalize, step, finalize_call. rewrite Hb. simpl. done.
Qed.

Lemma finalize_without_clone_changes_nothing_witness :
  finalize (incoming "/") = (Resolved, incoming "/").
Proof.
  apply (finalize_without_clone_changes_nothing (incoming "/")). reflexivity.
Defined.

Lemma rejected_idem err w : rejected err (rejected err w) = rejected err w.
Proof. unfold rejected. destruct (settled w) eqn:E; simpl; by rewrite ?E. Qed.

Lemma run_listeners_error_eq ls err w :
  run_listeners ls (EvError err) w =
  (Ok tt, if decide (Reject ∈ ls) then rejected err w else w).
Proof.
  revert w. induction ls as [|l ls IH]; intros w.
  - case_decide as H; [by apply elem_of_nil in H|done].
  - cbn [run_listeners]. unfold and_then.
    destruct l; cbn [run_listener ret].
    + rewrite IH. repeat case_decide; try done; set_solver.
    + unfold settle, modify. rewrite IH. fold (rejected err w).
      rewrite (decide_True (P := Reject ∈ Reject :: ls)) by (by left).
      case_decide; [by rewrite rejected_idem|done].
    + rewrite IH. repeat case_decide; try done; set_solver.
    + rewrite IH. repeat case_decide; try done; set_solver.
Qed.

Lemma emit_error_readable w err :
  wf w → settled w = Pending →
  emit (readable w) (EvError err) w = (Ok tt, set_settled (Rejected (VObj err)) w).
Proof.
  intros Hw Hp.
  destruct (wf_pending w Hw Hp) as (_ & c & ls & Hc & Hls & _ & Hrej).
  unfold emit, and_then. rewrite (events_of_ok _ _ _ Hc). rewrite Hls. simpl.
  assert (existsb (listens (EvError err)) ls = true) as ->.
  { apply existsb_exists. exists Reject. split; [by apply list_elem_of_In|done]. }
  rewrite run_listeners_error_eq. rewrite decide_True by done.
  unfold rejected. by rewrite Hp.
Qed.

Lemma finalize_rejected w b e :
  buffered w = Some b → settled w = Rejected (VObj e) →
  finalize w = (RejectedWith (VObj e), w).
Proof.
  intros Hb Hs. unfold finalize, finalize_call, finalize_resume, endPromise.
  by rewrite Hb, Hs.
Qed.

Lemma obj_at_app_l (h ext : JS.heap) r : r < length h → obj_at (h ++ ext) r = obj_at h r.
Proof. intros Hr. unfold obj_at. by rewrite lookup_app_l. Qed.

Lemma failed_grows rd o e w w' : failed rd o e w → grows w w' → failed rd o e w'.
Proof.
  intros [Hw Hr Ho Hs Hb] Hg. pose proof Hg as [Hr' Hb' _ _ (ext & Hext & _) Hs' _].
  split.
  - by eapply wf_grows.
  - congruence.
  - rewrite Hext, obj_at_app_l; [done|]. rewrite <- Hr. by apply wf_readable.
  - rewrite Hs'; [done|]. by rewrite Hs.
  - by rewrite Hb'.
Qed.

Lemma wf_set_finalizers f w : wf w → wf (set_finalizers f w).
Proof. intros [H1 H2 H3 H4 H5 H6 H7 H8]. split; simpl; done. Qed.

Lemma failed_set_finalizers rd o e f w :
  failed rd o e w → failed rd o e (set_finalizers f w).
Proof.
  intros [Hw Hr Ho Hs Hb]. split; simpl; try done. by apply wf_set_finalizers.
Qed.

Lemma failed_step rd o e a w : failed rd o e w → failed rd o e (step a w).
Proof.
  intros Hf. destruct a as [r ev|r| | |i]; simpl.
  - eapply failed_grows; [done|apply growing_emit].
  - eapply failed_grows; [done|apply growing_flow].
  - destruct Hf as [Hw Hr Ho Hs Hb].
    destruct (cloneBodyStream_spec w Hw) as (c & ls & Hc & Hls & -> & Hw2 & _).
    pose proof (wf_readable w Hw) as Hlt. simpl. split; simpl; try done.
    + rewrite obj_at_app_l; [done|]. by rewrite <- Hr.
    + eexists. split; [done|]. lia.
  - by apply failed_set_finalizers.
  - destruct (finalizers w !! i) as [[| |]|]; try done.
    unfold finalize_resume, endPromise. rewrite (fl_settled _ _ _ _ Hf). simpl.
    by apply failed_set_finalizers.
Qed.

Lemma failed_run rd o e tr w : failed rd o e w → failed rd o e (run tr w).
Proof.
  revert w. induction tr as [|a tr IH]; intros w Hf; [done|].
  simpl. apply IH. by apply failed_step.
Qed.

Lemma wf_cloneBodyStream w : wf w → wf (cloneBodyStream w).2.
Proof.
  intros Hw. by destruct (cloneBodyStream_spec w Hw) as (c & ls & _ & _ & -> & ? & _).
Qed.

(** C3: when the original stream emits an error before it ends and a clone
    was taken, the promise is rejected with that error; from then on,
    whatever happens next, a call of [finalize] is rejected with exactly that
    error and leaves the world as it is ([replaceRequestBody] is not applied,
    [buffered] is unchanged), a call suspended earlier is rejected with it
    when resumed, and the original stream object is as it was. *)
Theorem finalize_rejects_with_the_stream_error
    (w : world) (err : ref) (tr : list action) (i : nat) :
  wf w →
  settled w = Pending →
  is_Some (buffered w) →
  let w1 := step (Emit (readable w) (EvError err)) w in
  let w2 := run tr w1 in
  settled w1 = Rejected (VObj err) ∧ heap w1 = heap w ∧ buffered w1 = buffered w ∧
  finalize w2 = (RejectedWith (VObj err), w2) ∧
  obj_at (heap w2) (readable w) = obj_at (heap w) (readable w) ∧
  (finalizers w2 !! i = Some Awaiting →
   finalizers (step (Resume i) w2) !! i = Some (RejectedWith (VObj err)) ∧
   heap (step (Resume i) w2) = heap w2 ∧
   buffered (step (Resume i) w2) = buffered w2).
Proof.
  intros Hw Hp [b Hb] w1 w2.
  assert (w1 = set_settled (Rejected (VObj err)) w) as Hw1.
  { unfold w1, step. by rewrite emit_error_readable. }
  assert (failed (readable w) (obj_at (heap w) (readable w)) err w1) as Hf1.
  { rewrite Hw1. split; simpl; try done.
    - eapply wf_grows; [done|]. split; simpl; try done.
      exists []. by rewrite app_nil_r.
    - exists b. split; [done|]. destruct (wf_pending w Hw Hp) as [Hne _]. congruence. }
  assert (failed (readable w) (obj_at (heap w) (readable w)) err w2) as Hf2
    by (by apply failed_run).
  destruct Hf2 as [Hw2 Hr2 Ho2 Hs2 (b2 & Hb2 & Hne2)].
  assert (finalize w2 = (RejectedWith (VObj err), w2)) as Hfin
    by (by eapply finalize_rejected).
  rewrite Hw1. simpl. split_and!; try done.
  intros Hi. unfold step. rewrite Hi.
  unfold finalize, finalize_call in Hfin. rewrite Hb2 in Hfin. rewrite Hfin.
  simpl. split; [|done].
  apply list_lookup_insert_eq. by eapply lookup_lt_Some.
Qed.

Lemma finalize_rejects_with_the_stream_error_witness :
  let w := (cloneBodyStream (incoming "/")).2 in
  let w2 := run [Emit 0 EvEnd; CallFinalize; Resume 0; CallClone]
              (step (Emit 0 (EvError 9)) w) in
  finalize w2 = (RejectedWith (VObj 9), w2).
Proof.
  intros w w2.
  apply (finalize_rejects_with_the_stream_error w 9
           [Emit 0 EvEnd; CallFinalize; Resume 0; CallClone] 0).
  - apply wf_cloneBodyStream, wf_incoming.
  - reflexivity.
  - eexists. reflexivity.
Defined.

(** *** A successful finalize *)

Lemma finalize_fulfilled w b :
  buffered w = Some b → settled w = Fulfilled →
  finalize w = (Resolved, finalized w b).
Proof.
  intros Hb Hs. unfold finalize, finalize_call, finalize_resume, endPromise.
  by rewrite Hb, Hs.
Qed.

Lemma rebound_table base v :
  match rebound base v with VEvents c => Some c | _ => None end
  = match v with VEvents c => Some c | _ => None end.
Proof. by destruct v. Qed.

Lemma rebound_cell base v :
  match rebound base v with VState c => Some c | _ => None end
  = match v with VState c => Some c | _ => None end.
Proof. by destruct v. Qed.

Lemma branch_enumerates w b key :
  is_branch w b → key = "_events" ∨ key = "_readableState" →
  key ∈ for_in (obj_at (heap w) b).
Proof.
  intros (_ & e & s & Hb & _) Hkey. apply elem_of_for_in.
  unfold obj_at. rewrite Hb. simpl.
  destruct Hkey as [-> | ->]; eexists; split; done || reflexivity.
Qed.

(** The original object gives access to the listeners and to the buffer of
    the replacement. *)
Lemma stream_of_finalized w b :
  wf w → buffered w = Some b →
  table_of (heap (finalized w b)) (readable w) = table_of (heap w) b ∧
  cell_of (heap (finalized w b)) (readable w) = cell_of (heap w) b.
Proof.
  intros Hw Hb. pose proof (wf_readable w Hw) as Hr.
  unfold table_of, cell_of. simpl.
  rewrite !replaceRequestBody_get_base by done.
  destruct (wf_buffered w Hw b Hb) as [->|Hbr].
  - split; case_decide; by rewrite ?rebound_table, ?rebound_cell.
  - rewrite !decide_True by (apply (branch_enumerates w b); auto).
    by rewrite rebound_table, rebound_cell.
Qed.

Lemma callee_rebound rd name v :
  callee rd name v = Some rd → callee rd name (rebound rd v) = Some rd.
Proof.
  destruct v; try done. unfold rebound. simpl.
  case_decide; [|done]. unfold receiver. simpl.
  destruct (bound_this f); simpl; congruence.
Qed.

(** On the original object [on] still runs with the original as receiver. *)
Lemma method_of_finalized w b :
  wf w → buffered w = Some b →
  method_of (heap (finalized w b)) (readable w) "on" = Some (readable w).
Proof.
  intros Hw Hb. pose proof (wf_readable w Hw) as Hr.
  destruct (wf_stream w Hw) as (_ & _ & Hm).
  unfold method_of in *. simpl.
  rewrite replaceRequestBody_get_base by done.
  destruct (wf_buffered w Hw b Hb) as [->|Hbr].
  - case_decide; [by apply callee_rebound|done].
  - destruct Hbr as (_ & e & s & Hbo & _).
    rewrite decide_True.
    + unfold get, obj_at. rewrite Hbo. reflexivity.
    + apply elem_of_for_in. unfold obj_at. rewrite Hbo. simpl.
      eexists. split; reflexivity.
Qed.

Lemma get_finalized_ne w b r key :
  r ≠ readable w → get (heap (finalized w b)) r key = get (heap w) r key.
Proof.
  intros Hr. unfold get, obj_at. simpl.
  by rewrite replaceRequestBody_lookup_ne.
Qed.

Lemma branch_finalized w b q : wf w → is_branch w q → is_branch (finalized w b) q.
Proof.
  intros Hw (Hq & e & s & Hh & He & Hs). split; [done|]. exists e, s. simpl.
  by rewrite replaceRequestBody_lookup_ne.
Qed.

Lemma wf_finalized w b :
  wf w → buffered w = Some b → settled w ≠ Pending → wf (finalized w b).
Proof.
  intros Hw Hb Hs. pose proof (wf_readable w Hw) as Hr.
  destruct (stream_of_finalized w b Hw Hb) as [Ht Hc].
  assert (∀ r, table_of (heap (finalized w b)) r
               = table_of (heap w) (if decide (r = readable w) then b else r)) as Ht'.
  { intros r. case_decide as E; [by subst|]. unfold table_of.
    by rewrite get_finalized_ne. }
  assert (∀ r, cell_of (heap (finalized w b)) r
               = cell_of (heap w) (if decide (r = readable w) then b else r)) as Hc'.
  { intros r. case_decide as E; [by subst|]. unfold cell_of.
    by rewrite get_finalized_ne. }
  assert (∀ c ls, tables w !! c = Some ls →
            omap (cell_of (heap (finalized w b))) (data_targets ls)
            = omap (cell_of (heap w)) (data_targets ls)) as Hold.
  { intros c ls Hls. apply omap_ext_in. intros q Hq. rewrite Hc'.
    rewrite decide_False; [done|].
    apply list_elem_of_bind in Hq as (l & Hq & Hl).
    destruct (wf_targets w Hw c ls l q Hls Hl) as [Hne _]; [|done].
    destruct l; simpl in *; set_solver. }
  split.
  - change (readable (finalized w b)) with (readable w).
    rewrite Ht, Hc. split_and!; [| |by apply method_of_finalized].
    + destruct (wf_buffered w Hw b Hb) as [->|Hbr]; [apply Hw|].
      destruct (branch_table w b Hbr) as (? & -> & _). by eexists.
    + destruct (wf_buffered w Hw b Hb) as [->|Hbr]; [apply Hw|].
      destruct (branch_cell w b Hbr) as (? & -> & _). by eexists.
  - intros b' [= <-]. by left.
  - intros r c. rewrite Ht'. apply Hw.
  - intros r s. rewrite Hc'. apply Hw.
  - intros c ls l q H1 H2 H3. apply branch_finalized; [done|]. by eapply wf_targets.
  - intros c ls H. rewrite (Hold c) by done. by eapply wf_nodup.
  - intros r c s ls. rewrite Ht', Hc'. intros H1 H2 H3.
    rewrite (Hold c) by done. by eapply wf_acyclic.
  - done.
Qed.

Lemma wf_finalize_resume w : wf w → wf (finalize_resume w).2.
Proof.
  intros Hw. unfold finalize_resume.
  destruct (endPromise w) as [res|] eqn:Hres; [|done].
  match goal with |- context [if ?b then _ else _] => destruct b end; [done|].
  assert (settled w ≠ Pending) as Hs.
  { unfold endPromise in Hres. by destruct (settled w). }
  destruct (buffered w) as [b|] eqn:Hb; [by apply wf_finalized|].
  simpl. destruct Hw as [H1 H2 H3 H4 H5 H6 H7 H8].
  split; simpl; try done. intros b' [= <-]. by left.
Qed.

(** Every step keeps the world well formed, so every world the cloneable
    body of a request reaches is. *)
Lemma wf_step a w : wf w → wf (step a w).
Proof.
  intros Hw. destruct a as [r ev|r| | |i]; simpl.
  - by apply wf_emit.
  - by apply wf_flow.
  - by apply wf_cloneBodyStream.
  - by apply wf_set_finalizers.
  - destruct (finalizers w !! i) as [[| |]|]; try done.
    pose proof (wf_finalize_resume w Hw) as Hw'.
    destruct (finalize_resume w) as [o w']. by apply wf_set_finalizers.
Qed.

Lemma wf_run tr w : wf w → wf (run tr w).
Proof.
  revert w. induction tr as [|a tr IH]; intros w Hw; [done|].
  simpl. by apply IH, wf_step.
Qed.

Lemma wf_reachable url tr : wf (run tr (incoming url)).
Proof. apply wf_run, wf_incoming. Qed.

(** *** A flowing stream that is teed *)

Lemma flow_tee w r c s ls p1 p2 st x rest a1 a2 :
  wf w → table_of (heap w) r = Some c → cell_of (heap w) r = Some s →
  tables w !! c = Some ls → TeeData p1 p2 ∈ ls →
  states w !! s = Some st → buffer st = x :: rest →
  live w p1 a1 → live w p2 a2 →
  grows w (flow r w).2 ∧
  live (flow r w).2 p1 (a1 ++ [x]) ∧ live (flow r w).2 p2 (a2 ++ [x]) ∧
  ∃ st', states (flow r w).2 !! s = Some st' ∧ buffer st' = rest.
Proof.
  intros Hw Hc Hs Hls Hin Hst Hbuf H1 H2.
  split; [apply growing_flow|].
  unfold flow, and_then.
  rewrite (state_of_ok _ _ _ Hs), (events_of_ok _ _ _ Hc). cbv beta zeta.
  rewrite Hst, Hls. simpl.
  assert (existsb (listens (EvData [])) ls = true) as ->.
  { apply existsb_exists. exists (TeeData p1 p2). split; [by apply list_elem_of_In|done]. }
  rewrite Hbuf.
  set (st0 := {| buffer := rest; ended := ended st; endEmitted := endEmitted st;
                 errored := errored st |}).
  set (w0 := set_states (<[s := st0]> (states w)) w).
  assert (wf w0) as Hw0.
  { eapply wf_grows; [done|]. apply grows_set_states. by rewrite length_insert. }
  pose proof (wf_nodup w Hw c ls Hls) as Hnd.
  pose proof (wf_acyclic w Hw r c s ls Hc Hs Hls) as Hacyc.
  assert (∀ p a, p ∈ [p1; p2] → live w p a → live w0 p a) as Hlive.
  { intros p a Hp (sp & stp & Hsp & Hstp & H). exists sp, stp. simpl.
    split; [done|]. split; [|done]. rewrite list_lookup_insert_ne; [done|].
    intros ->. apply Hacyc. apply list_elem_of_omap. exists p. split; [|done].
    apply list_elem_of_bind. exists (TeeData p1 p2). by split. }
  destruct (tee_data w0 r c ls p1 p2 a1 a2 x) as [H1' H2']; try done.
  { apply Hlive; [set_solver|done]. }
  { apply Hlive; [set_solver|done]. }
  split; [done|]. split; [done|].
  rewrite (emit_data_ok w0 r c) by done. simpl. rewrite Hls. simpl.
  exists st0. split; [|done].
  rewrite push_all_lookup by done. rewrite decide_False by done.
  apply list_lookup_insert_eq. by eapply lookup_lt_Some.
Qed.

(** What a flowing stream holds reaches, in order, the branches teed from
    it. *)
Lemma flow_all w r c s ls p1 p2 st cs a1 a2 :
  wf w → table_of (heap w) r = Some c → cell_of (heap w) r = Some s →
  tables w !! c = Some ls → TeeData p1 p2 ∈ ls →
  states w !! s = Some st → buffer st = cs →
  live w p1 a1 → live w p2 a2 →
  live (run (replicate (length cs) (Flow r)) w) p1 (a1 ++ cs) ∧
  live (run (replicate (length cs) (Flow r)) w) p2 (a2 ++ cs).
Proof.
  revert w st a1 a2. induction cs as [|x cs IH];
    intros w st a1 a2 Hw Hc Hs Hls Hin Hst Hbuf H1 H2.
  - simpl. by rewrite !app_nil_r.
  - destruct (flow_tee w r c s ls p1 p2 st x cs a1 a2)
      as (Hg & H1' & H2' & st' & Hst' & Hbuf'); try done.
    simpl. rewrite !(cons_middle x), !app_assoc.
    apply (IH _ st'); try done.
    + by eapply wf_grows.
    + by rewrite (grows_table_of w).
    + by rewrite (grows_cell_of w).
    + by rewrite (g_tables _ _ Hg).
Qed.

Lemma same_method_rebound o v : same_method o v (rebound o v).
Proof.
  destruct v; try (by left). right. exists f, (FBound f o).
  split_and!; try done. unfold receiver. simpl. by destruct (bound_this f).
Qed.

(** C8 (as amended): a successful [finalize] sets [buffered] to the original
    stream object, which from then on gives access to the listeners and the
    buffer of the replacement. A second [finalize] is resolved too and
    leaves [buffered], the listeners, the buffers and every object other
    than the original as they are; on the original it binds each enumerable
    function once more, to the original itself, so that every property is
    the same value or a function running the same code with the same
    receiver. A [cloneBodyStream()] after the first [finalize] registers its
    listeners with the replacement, and what the replacement holds reaches
    both new branches in order. *)
Theorem finalize_twice_rebinds_and_clone_tees_replacement (w : world) (b : ref) :
  wf w →
  buffered w = Some b →
  settled w = Fulfilled →
  let rd := readable w in
  let w1 := (finalize w).2 in
  let w2 := (finalize w1).2 in
  ((finalize w).1 = Resolved ∧ buffered w1 = Some rd ∧
   table_of (heap w1) rd = table_of (heap w) b ∧ state_at w1 rd = state_at w b) ∧
  ((finalize w1).1 = Resolved ∧ buffered w2 = Some rd ∧
   tables w2 = tables w1 ∧ states w2 = states w1 ∧ settled w2 = settled w1 ∧
   (∀ r key, r ≠ rd → get (heap w2) r key = get (heap w1) r key) ∧
   (∀ key, same_method rd (get (heap w1) rd key) (get (heap w2) rd key)) ∧
   state_at w2 rd = state_at w b) ∧
  (∃ p1 p2 w3 c ls,
     cloneBodyStream w1 = (Ok p1, w3) ∧ buffered w3 = Some p2 ∧
     table_of (heap w) b = Some c ∧ tables w !! c = Some ls ∧
     tables w3 !! c = Some (ls ++ [TeeData p1 p2; TeeEnd p1 p2]) ∧
     let cs := buffer (state_at w b) in
     buffer (state_at (run (replicate (length cs) (Flow rd)) w3) p1) = cs ∧
     buffer (state_at (run (replicate (length cs) (Flow rd)) w3) p2) = cs).
Proof.
  intros Hw Hb Hs rd w1 w2.
  pose proof (wf_readable w Hw) as Hr.
  assert (w1 = finalized w b) as Hw1.
  { unfold w1. by rewrite (finalize_fulfilled w b). }
  assert (wf w1) as Hwf1.
  { rewrite Hw1. apply wf_finalized; try done. by rewrite Hs. }
  assert (buffered w1 = Some rd) as Hb1 by (by rewrite Hw1).
  assert (settled w1 = Fulfilled) as Hs1 by (by rewrite Hw1).
  assert (readable w1 = rd) as Hr1 by (by rewrite Hw1).
  assert (w2 = finalized w1 rd) as Hw2.
  { unfold w2. by rewrite (finalize_fulfilled w1 rd). }
  destruct (stream_of_finalized w b Hw Hb) as [Ht Hc]. fold rd in Ht, Hc.
  rewrite <- Hw1 in Ht, Hc.
  assert (state_at w1 rd = state_at w b) as Hst1.
  { unfold state_at. rewrite Hc. by rewrite Hw1. }
  split; [|split].
  - split_and!; try done. by rewrite (finalize_fulfilled w b).
  - destruct (stream_of_finalized w1 rd Hwf1 Hb1) as [Ht2 Hc2].
    rewrite Hr1 in Ht2, Hc2. rewrite <- Hw2 in Ht2, Hc2.
    split_and!; try (by rewrite Hw2).
    + by rewrite (finalize_fulfilled w1 rd).
    + rewrite Hw2. simpl. by rewrite Hr1.
    + intros r key Hne. rewrite Hw2. apply get_finalized_ne. by rewrite Hr1.
    + intros key. rewrite Hw2. simpl. rewrite Hr1.
      rewrite replaceRequestBody_get_base
        by (rewrite Hw1; simpl; by rewrite length_replaceRequestBody).
      case_decide; [apply same_method_rebound|by left].
    + rewrite <- Hst1. unfold state_at. rewrite Hc2. by rewrite Hw2.
  - destruct (cloneBodyStream_spec w1 Hwf1)
      as (c & ls & Hc1 & Hls & Hok & Hw3 & Hc3 & Hls3).
    rewrite Hb1, Hr1 in Hc1, Hc3. simpl in Hc1, Hc3.
    exists (length (heap w1)), (S (length (heap w1))), (cloned w1 c), c, ls.
    split_and!; try done.
    + by rewrite <- Ht.
    + by rewrite Hw1 in Hls.
    + destruct (wf_stream w1 Hwf1) as (_ & [s Hcell] & _). rewrite Hr1 in Hcell.
      assert (s < length (states w1)) as Hlt by (by eapply wf_states).
      destruct (lookup_lt_is_Some_2 (states w1) s Hlt) as [st Hst].
      assert (state_at w b = st) as Hsb.
      { rewrite <- Hst1. unfold state_at. by rewrite Hcell, Hst. }
      rewrite Hsb.
      destruct (live_cloned w1 c Hwf1) as [H1 H2].
      destruct (flow_all (cloned w1 c) rd c s
                  (ls ++ [TeeData (length (heap w1)) (S (length (heap w1)));
                          TeeEnd (length (heap w1)) (S (length (heap w1)))])
                  (length (heap w1)) (S (length (heap w1))) st (buffer st) [] [])
        as [H1' H2']; try done.
      * rewrite cell_of_cloned_old; [done|]. by eapply cell_of_lt.
      * set_solver.
      * simpl. by apply lookup_app_l_Some.
      * split; [by apply (live_state_at _ _ _ H1')|by apply (live_state_at _ _ _ H2')].
Qed.

Lemma finalize_twice_rebinds_and_clone_tees_replacement_witness :
  buffered (finalize (finalize teed_request).2).2 = Some 0 ∧
  get (heap (finalize (finalize teed_request).2).2) 0 "on"
  = VFun (FBound (FBound (FNative "on") 0) 0).
Proof.
  destruct (finalize_twice_rebinds_and_clone_tees_replacement teed_request 2)
    as (_ & (_ & Hb & _) & _).
  - apply wf_reachable.
  - reflexivity.
  - reflexivity.
  - split; [exact Hb|reflexivity].
Defined.

(** C8 (as stated) fails on idempotence: after the first [finalize] the
    original's [on] is the replacement's method bound to the original, after
    the second it is that function bound again, another value. *)
Lemma second_finalize_changes_the_original :
  ¬ spec_finalize_idempotent teed_request.
Proof.
  unfold spec_finalize_idempotent. intros H.
  apply (f_equal (λ w, get (heap w) 0 "on")) in H.
  vm_compute in H. discriminate.
Qed.

(** The scenario of the spec: the body [a b c] is teed, the branch handed
    out holds [a b c] and is ended, and after [finalize] the original stream
    holds [a b c] again. *)
Example scenario_clone_then_finalize :
  buffer (state_at teed_request 1) = [["a"]; ["b"]; ["c"]]%byte ∧
  ended (state_at teed_request 1) = true ∧
  (finalize teed_request).1 = Resolved ∧
  buffer (state_at (finalize teed_request).2 0) = [["a"]; ["b"]; ["c"]]%byte ∧
  ended (state_at (finalize teed_request).2 0) = true.
Proof. vm_compute. done. Qed.

End BodyFacts.

(** ** The promise behind finalize *)

Section BodyPromise.
Import Body.

Lemma settled_finalize_resume w : settled (finalize_resume w).2 = settled w.
Proof.
  unfold finalize_resume. destruct (endPromise w) as [res|]; [|done].
  by destruct (_ && _).
Qed.

Lemma settled_step a w :
  wf w → settled w ≠ Pending → settled (step a w) = settled w.
Proof.
  intros Hw Hs. destruct a as [r ev|r| | |i]; simpl.
  - by apply (g_settled _ _ (growing_emit r ev w)).
  - by apply (g_settled _ _ (growing_flow r w)).
  - by destruct (cloneBodyStream_spec w Hw) as (c & ls & _ & _ & -> & _).
  - done.
  - destruct (finalizers w !! i) as [[| |]|]; try done.
    pose proof (settled_finalize_resume w) as H.
    destruct (finalize_resume w) as [o w']. done.
Qed.

(** X13: the promise behind [finalize] is settled once: after the first
    'end' or 'error' of the original stream nothing that happens (a later
    'error' or 'end', clones, calls of [finalize]) changes what
    [endPromise] is fulfilled with. *)
Theorem endPromise_settles_once (w : world) (tr : list action) :
  wf w → settled w ≠ Pending →
  settled (run tr w) = settled w ∧ endPromise (run tr w) = endPromise w.
Proof.
  intros Hw Hs.
  assert (settled (run tr w) = settled w) as H.
  { revert w Hw Hs. induction tr as [|a tr IH]; intros w Hw Hs; [done|].
    simpl. rewrite IH; [by apply settled_step|by apply wf_step|].
    by rewrite settled_step. }
  split; [done|]. unfold endPromise. by rewrite H.
Qed.

Lemma endPromise_settles_once_witness :
  endPromise (run [Emit 0 (EvError 7); CallFinalize] teed_request) = Some AUndefined.
Proof.
  destruct (endPromise_settles_once teed_request [Emit 0 (EvError 7); CallFinalize])
    as [_ H].
  - apply wf_reachable.
  - vm_compute. discriminate.
  - rewrite H. reflexivity.
Defined.

(** X14: what [finalize] does with a rejected promise goes by the
    truthiness of the reason, the guard being [res.error]: with a truthy
    reason the call is rejected with it and changes nothing; with a reason
    that is [undefined], [null], [false], [0] or the empty string the call
    substitutes the replacement and is resolved, as after an 'end'. *)
Theorem finalize_rejects_truthy_reasons_only (w : world) (b : ref) (v : value) :
  buffered w = Some b → settled w = Rejected v →
  finalize w = if truthy v then (RejectedWith v, w) else (Resolved, finalized w b).
Proof.
  intros Hb Hs. unfold finalize, finalize_call, finalize_resume, endPromise.
  rewrite Hb, Hs. simpl. by destruct (truthy v).
Qed.

Lemma finalize_rejects_truthy_reasons_only_witness :
  let w := set_settled (Rejected (VNum 0)) (run [CallClone] (incoming "/")) in
  (finalize w).1 = Resolved ∧ buffered (finalize w).2 = Some 0.
Proof.
  intros w.
  rewrite (finalize_rejects_truthy_reasons_only w 2 (VNum 0)); [|reflexivity..].
  split; reflexivity.
Defined.

(** *** While the promise is pending *)

Lemma settled_type_error {A} w : settled (@type_error A w).2 = settled w.
Proof. done. Qed.

Lemma emit_data_settled w r x : wf w → settled (emit r (EvData x) w).2 = settled w.
Proof.
  intros Hw. destruct (table_of (heap w) r) as [c|] eqn:Hc.
  - by rewrite (emit_data_ok w r c).
  - unfold emit, and_then, events_of. unfold table_of in Hc.
    by destruct (get (heap w) r "_events").
Qed.

Lemma run_listeners_end_settled w ls :
  (∀ l q, l ∈ ls → q ∈ targets l →
          method_of (heap w) q "push" = Some q ∧ is_Some (cell_of (heap w) q)) →
  settled (run_listeners ls EvEnd w).2
  = if decide (Resolve ∈ ls)
    then match settled w with Pending => Fulfilled | p => p end
    else settled w.
Proof.
  revert w. induction ls as [|l ls IH]; intros w Hls.
  - case_decide as H; [by apply elem_of_nil in H|done].
  - assert (∀ w', heap w' = heap w →
              settled (run_listeners ls EvEnd w').2
              = if decide (Resolve ∈ ls)
                then match settled w' with Pending => Fulfilled | p => p end
                else settled w') as IH'.
    { intros w' Hh. apply IH. rewrite Hh.
      intros l' q Hl' Hq. apply (Hls l' q); [by right|done]. }
    destruct l as [| |p1 p2|p1 p2]; cbn [run_listeners run_listener]; unfold and_then.
    + unfold settle, modify. rewrite IH' by (by destruct (settled w)).
      rewrite (decide_True (P := Resolve ∈ Resolve :: ls)) by (by left).
      case_decide; destruct (settled w) eqn:E; simpl; rewrite ?E; done.
    + cbn [ret]. rewrite IH' by done. repeat case_decide; try done; set_solver.
    + cbn [ret]. rewrite IH' by done. repeat case_decide; try done; set_solver.
    + destruct (Hls (TeeEnd p1 p2) p1) as [Hm1 [s1 Hs1]]; [by left|set_solver|].
      destruct (Hls (TeeEnd p1 p2) p2) as [Hm2 [s2 Hs2]]; [by left|set_solver|].
      rewrite (push_ok w p1 s1) by done.
      rewrite (push_ok _ p2 s2) by done.
      rewrite IH' by done. simpl. repeat case_decide; try done; set_solver.
Qed.

(** The 'end' of the original stream fulfils the pending promise. *)
Lemma emit_end_readable w :
  wf w → settled w = Pending →
  settled (emit (readable w) EvEnd w).2 = Fulfilled.
Proof.
  intros Hw Hp.
  destruct (wf_pending w Hw Hp) as (_ & c & ls & Hc & Hls & Hres & _).
  unfold emit, and_then. rewrite (events_of_ok _ _ _ Hc). rewrite Hls. simpl.
  rewrite run_listeners_end_settled.
  - rewrite decide_True by done. by rewrite Hp.
  - intros l q Hl Hq. assert (is_branch w q) as Hq' by (by eapply wf_targets).
    split; [apply branch_method; auto|].
    destruct (branch_cell w q Hq') as (? & ? & _). by eexists.
Qed.

Lemma waiting_grows rd o i w w' :
  waiting rd o i w → grows w w' → settled w' = Pending → waiting rd o i w'.
Proof.
  intros [Hw Hr Ho Hs Hb Hc] Hg Hs'.
  pose proof Hg as [Hr' Hb' _ _ (ext & Hext & _) _ Hf].
  split; try congruence.
  - by eapply wf_grows.
  - rewrite Hext, obj_at_app_l; [done|]. rewrite <- Hr. by apply wf_readable.
Qed.

Lemma waiting_step rd o i a w :
  arriving a = true → waiting rd o i w → waiting rd o i (step a w).
Proof.
  intros Ha Hwt. pose proof Hwt as [Hw Hr Ho Hs Hb Hc].
  destruct a as [r [x| |err]|r| | |j]; try discriminate; simpl.
  - eapply waiting_grows; [done|apply growing_emit|].
    by rewrite emit_data_settled.
  - destruct (cloneBodyStream_spec w Hw) as (c & ls & _ & _ & -> & Hw2 & _).
    pose proof (wf_readable w Hw) as Hlt. split; simpl; try done.
    rewrite obj_at_app_l; [done|]. by rewrite <- Hr.
  - split; simpl; try done.
    + by apply wf_set_finalizers.
    + by apply lookup_app_l_Some.
  - destruct (finalizers w !! j) as [[| |]|] eqn:Hj; try done.
    unfold finalize_resume, endPromise. rewrite Hs. simpl.
    split; simpl; try done.
    + by apply wf_set_finalizers.
    + destruct (decide (i = j)) as [->|Hne].
      * rewrite list_lookup_insert_eq; [done|]. by eapply lookup_lt_Some.
      * by rewrite list_lookup_insert_ne.
Qed.

Lemma waiting_run rd o i tr w :
  forallb arriving tr = true → waiting rd o i w → waiting rd o i (run tr w).
Proof.
  revert w. induction tr as [|a tr IH]; intros w Htr Hw; [done|].
  simpl in Htr. apply andb_prop in Htr as [Ha Htr].
  simpl. apply IH; [done|]. by apply waiting_step.
Qed.

(** X15: a call of [finalize] made after a clone and before the original
    stream has ended waits: while chunks arrive, clones are taken and
    [finalize] is called or resumed, its promise stays pending and the
    original stream object is as it was. Once the original stream has
    emitted 'end' the call, resumed, is resolved, with [buffered] then the
    original stream object. *)
Theorem finalize_waits_for_the_end (w : world) (tr : list action) :
  wf w → settled w = Pending → is_Some (buffered w) →
  forallb arriving tr = true →
  let i := length (finalizers w) in
  let w1 := run tr (step CallFinalize w) in
  (finalizers w1 !! i = Some Awaiting ∧
   obj_at (heap w1) (readable w) = obj_at (heap w) (readable w)) ∧
  let w2 := step (Resume i) (step (Emit (readable w) EvEnd) w1) in
  finalizers w2 !! i = Some Resolved ∧ buffered w2 = Some (readable w).
Proof.
  intros Hw Hs Hb Htr i w1.
  assert (waiting (readable w) (obj_at (heap w) (readable w)) i (step CallFinalize w))
    as Hwt0.
  { split; simpl; try done.
    - by apply wf_set_finalizers.
    - unfold finalize_call. destruct Hb as [b ->]. by rewrite list_lookup_middle. }
  pose proof (waiting_run _ _ _ tr _ Htr Hwt0) as [Hw1 Hr1 Ho1 Hs1 Hb1 Hc1].
  fold w1 in Hw1, Hr1, Ho1, Hs1, Hb1, Hc1.
  split; [done|]. cbv zeta.
  set (we := step (Emit (readable w) EvEnd) w1).
  pose proof (growing_emit (readable w) EvEnd w1) as Hg. fold (step (Emit (readable w) EvEnd) w1) in Hg.
  fold we in Hg.
  assert (settled we = Fulfilled) as Hse.
  { unfold we. simpl. rewrite <- Hr1. by apply emit_end_readable. }
  assert (finalizers we !! i = Some Awaiting) as Hci
    by (by rewrite (g_finalizers _ _ Hg)).
  cbn [step]. rewrite Hci.
  unfold finalize_resume, endPromise. rewrite Hse. simpl.
  split.
  - apply list_lookup_insert_eq. rewrite (g_finalizers _ _ Hg). by eapply lookup_lt_Some.
  - by rewrite (g_readable _ _ Hg), Hr1.
Qed.

Lemma finalize_waits_for_the_end_witness :
  let w1 := run [Emit 0 (EvData ["a"%byte]); CallFinalize]
              (step CallFinalize (run [CallClone] (incoming "/"))) in
  finalizers w1 !! 0 = Some Awaiting ∧
  finalizers (step (Resume 0) (step (Emit 0 EvEnd) w1)) !! 0 = Some Resolved.
Proof.
  destruct (finalize_waits_for_the_end (run [CallClone] (incoming "/"))
              [Emit 0 (EvData ["a"%byte]); CallFinalize])
    as [[H1 _] [H2 _]].
  - apply wf_reachable.
  - reflexivity.
  - eexists. reflexivity.
  - reflexivity.
  - split; [exact H1|exact H2].
Defined.

(** *** From the clone to the substitution *)

Lemma run_data_settled w r (cs : list chunk) :
  wf w → settled (run (Emit r <$> (EvData <$> cs)) w) = settled w.
Proof.
  revert w. induction cs as [|x cs IH]; intros w Hw; [done|].
  simpl. rewrite IH by (by apply wf_emit). by apply emit_data_settled.
Qed.

Lemma EvEnd_not_data (cs : list chunk) : EvEnd ∉ (EvData <$> cs : list event).
Proof. intros (x & Hx & _)%list_elem_of_fmap. discriminate. Qed.

(** X16: the round trip the cloneable body is made for. A clone is taken of
    a request nobody has cloned yet, the body arrives and the request ends:
    [finalize] is resolved, and afterwards the original stream object holds
    the whole body that arrived since the clone, in order, and is ended, as
    does the branch that was handed out. *)
Theorem clone_then_finalize_restores_the_body (w : world) (body : list chunk) :
  wf w → settled w = Pending → buffered w = None →
  ∃ p1 w1,
    cloneBodyStream w = (Ok p1, w1) ∧
    let w2 := step (Emit (readable w) EvEnd)
                (run (Emit (readable w) <$> (EvData <$> body)) w1) in
    (finalize w2).1 = Resolved ∧
    let w3 := (finalize w2).2 in
    buffered w3 = Some (readable w) ∧
    (buffer (state_at w3 (readable w)) = body ∧
     ended (state_at w3 (readable w)) = true) ∧
    (buffer (state_at w3 p1) = body ∧ ended (state_at w3 p1) = true).
Proof.
  intros Hw Hs Hb.
  destruct (cloneBodyStream_spec w Hw) as (c & ls & Hc & Hls & Hok & Hw1 & Hc1 & Hls1).
  rewrite Hb in Hc, Hc1. simpl in Hc, Hc1.
  pose proof (wf_readable w Hw) as Hlt.
  set (rd := readable w) in *.
  set (p1 := length (heap w)) in *. set (p2 := S (length (heap w))) in *.
  exists p1, (cloned w c). split; [done|]. cbv zeta.
  set (wa := run (Emit rd <$> (EvData <$> body)) (cloned w c)).
  destruct (live_cloned w c Hw) as [H1 H2]. fold p1 in H1. fold p2 in H2.
  destruct (tee_events (cloned w c) rd c p1 p2 [] [] (EvData <$> body))
    as [L1 L2]; try done.
  { eexists. split; [done|]. set_solver. }
  { apply EvEnd_not_data. }
  fold wa in L1, L2. rewrite data_of_events_data in L1, L2. simpl in L1, L2.
  pose proof (run_emit_grows (cloned w c) rd (EvData <$> body)) as Hg. fold wa in Hg.
  assert (wf wa) as Hwa by (by eapply wf_grows).
  assert (settled wa = Pending) as Hsa by (unfold wa; by rewrite run_data_settled).
  assert (readable wa = rd) as Hra by (by rewrite (g_readable _ _ Hg)).
  assert (buffered wa = Some p2) as Hba by (by rewrite (g_buffered _ _ Hg)).
  assert (table_of (heap wa) rd = Some c) as Hca
    by (by rewrite (grows_table_of (cloned w c))).
  assert (tables wa !! c = Some (ls ++ [TeeData p1 p2; TeeEnd p1 p2])) as Hlsa
    by (by rewrite (g_tables _ _ Hg)).
  set (we := step (Emit rd EvEnd) wa).
  pose proof (growing_emit rd EvEnd wa) as Hge.
  change (emit rd EvEnd wa).2 with we in Hge.
  assert (wf we) as Hwe by (by eapply wf_grows).
  assert (settled we = Fulfilled) as Hse.
  { unfold we. simpl. rewrite <- Hra. by apply emit_end_readable. }
  assert (readable we = rd) as Hre by (by rewrite (g_readable _ _ Hge)).
  assert (buffered we = Some p2) as Hbe by (by rewrite (g_buffered _ _ Hge)).
  destruct (tee_end wa rd c _ p1 p2 p1 body Hwa Hca Hlsa) as (B1 & E1 & _);
    [set_solver|set_solver|done|].
  destruct (tee_end wa rd c _ p1 p2 p2 body Hwa Hca Hlsa) as (B2 & E2 & _);
    [set_solver|set_solver|done|].
  change (emit rd EvEnd wa).2 with we in B1, E1, B2, E2.
  rewrite (finalize_fulfilled we p2) by done. cbn [fst snd].
  change (buffered (finalized we p2)) with (Some (readable we)).
  destruct (stream_of_finalized we p2 Hwe Hbe) as [_ Hcell]. rewrite Hre in Hcell.
  assert (state_at (finalized we p2) rd = state_at we p2) as St.
  { unfold state_at. by rewrite Hcell. }
  assert (state_at (finalized we p2) p1 = state_at we p1) as St1.
  { unfold state_at, cell_of. rewrite get_finalized_ne; [done|].
    rewrite Hre. unfold p1. lia. }
  rewrite Hre, St, St1. done.
Qed.

Lemma clone_then_finalize_restores_the_body_witness :
  ∃ p1 w1,
    cloneBodyStream (incoming "/") = (Ok p1, w1) ∧
    buffer (state_at
              (finalize (step (Emit 0 EvEnd)
                           (run (Emit 0 <$> (EvData <$> [["a"%byte]; ["b"%byte]])) w1))).2
              0)
    = [["a"%byte]; ["b"%byte]].
Proof.
  destruct (clone_then_finalize_restores_the_body (incoming "/") [["a"%byte]; ["b"%byte]])
    as (p1 & w1 & Hc & _ & _ & [Hb _] & _).
  - apply wf_incoming.
  - reflexivity.
  - reflexivity.
  - exists p1, w1. split; [exact Hc|exact Hb].
Defined.

(** *** A clone of a clone *)

(** A flowing stream leaves the streams it is not teed to as they are. *)
Lemma flow_frame w r c s ls st x rest s' :
  wf w → table_of (heap w) r = Some c → cell_of (heap w) r = Some s →
  tables w !! c = Some ls → existsb (listens (EvData [])) ls = true →
  states w !! s = Some st → buffer st = x :: rest →
  s' ≠ s → s' ∉ omap (cell_of (heap w)) (data_targets ls) →
  states (flow r w).2 !! s' = states w !! s'.
Proof.
  intros Hw Hc Hs Hls Hl Hst Hbuf Hne Hnot.
  unfold flow, and_then.
  rewrite (state_of_ok _ _ _ Hs), (events_of_ok _ _ _ Hc). cbv beta zeta.
  rewrite Hst, Hls. simpl. rewrite Hl, Hbuf.
  set (st0 := {| buffer := rest; ended := ended st; endEmitted := endEmitted st;
                 errored := errored st |}).
  set (w0 := set_states (<[s := st0]> (states w)) w).
  assert (wf w0) as Hw0.
  { eapply wf_grows; [done|]. apply grows_set_states. by rewrite length_insert. }
  rewrite (emit_data_ok w0 r c) by done. simpl. rewrite Hls. simpl.
  rewrite push_all_lookup by (by apply (wf_nodup w Hw c)).
  rewrite decide_False by done. by rewrite list_lookup_insert_ne.
Qed.

(** A flowing stream delivers all it holds to the two branches teed from it
    and to no other stream. *)
Lemma flow_all_frame w r c s ls p1 p2 st cs a1 a2 s' :
  wf w → table_of (heap w) r = Some c → cell_of (heap w) r = Some s →
  tables w !! c = Some ls → TeeData p1 p2 ∈ ls →
  states w !! s = Some st → buffer st = cs →
  live w p1 a1 → live w p2 a2 →
  s' ≠ s → s' ∉ omap (cell_of (heap w)) (data_targets ls) →
  let w' := run (replicate (length cs) (Flow r)) w in
  grows w w' ∧
  live w' p1 (a1 ++ cs) ∧ live w' p2 (a2 ++ cs) ∧
  (∃ st', states w' !! s = Some st' ∧ buffer st' = []) ∧
  states w' !! s' = states w !! s'.
Proof.
  revert w st a1 a2. induction cs as [|x cs IH];
    intros w st a1 a2 Hw Hc Hs Hls Hin Hst Hbuf H1 H2 Hne Hnot.
  - simpl. rewrite !app_nil_r. split_and!; try done; [apply grows_refl|by exists st].
  - destruct (flow_tee w r c s ls p1 p2 st x cs a1 a2)
      as (Hg & H1' & H2' & st' & Hst' & Hbuf'); try done.
    assert (states (flow r w).2 !! s' = states w !! s') as Hfr.
    { apply (flow_frame w r c s ls st x cs); try done.
      apply existsb_exists. exists (TeeData p1 p2).
      split; [by apply list_elem_of_In|done]. }
    assert (omap (cell_of (heap (flow r w).2)) (data_targets ls)
            = omap (cell_of (heap w)) (data_targets ls)) as Hsame.
    { apply omap_ext_in. intros q _. by apply grows_cell_of. }
    destruct (IH (flow r w).2 st' (a1 ++ [x]) (a2 ++ [x]))
      as (Hg' & L1 & L2 & Hsrc & Hfr'); try done.
    + by eapply wf_grows.
    + by rewrite (grows_table_of w).
    + by rewrite (grows_cell_of w).
    + by rewrite (g_tables _ _ Hg).
    + by rewrite Hsame.
    + cbv zeta. simpl. rewrite !(cons_middle x), !app_assoc.
      split_and!; try done; [by eapply grows_trans|by rewrite Hfr'].
Qed.

(** X17: a clone taken after another clone is teed from the branch the
    first clone kept, not from the original stream: its two branches are
    empty when the call returns, and as the kept branch flows they receive,
    in order, everything the original emitted since the first clone; the
    kept branch is drained by that, and the branch the first clone handed
    out holds what it held. *)
Theorem second_clone_replays_the_first (w : world) (post : list chunk) :
  wf w →
  let input := default (readable w) (buffered w) in
  ∃ p1 p2 w1,
    cloneBodyStream w = (Ok p1, w1) ∧ buffered w1 = Some p2 ∧
    let w2 := run (Emit input <$> (EvData <$> post)) w1 in
    ∃ q1 q2 w3,
      cloneBodyStream w2 = (Ok q1, w3) ∧ buffered w3 = Some q2 ∧
      buffer (state_at w3 q1) = [] ∧ buffer (state_at w3 q2) = [] ∧
      let w4 := run (replicate (length post) (Flow p2)) w3 in
      buffer (state_at w4 q1) = post ∧ buffer (state_at w4 q2) = post ∧
      buffer (state_at w4 p2) = [] ∧ buffer (state_at w4 p1) = post.
Proof.
  intros Hw input.
  destruct (cloneBodyStream_spec w Hw) as (c & ls & Hc & Hls & Hok & Hw1 & Hc1 & Hls1).
  fold input in Hc, Hc1.
  set (p1 := length (heap w)) in *. set (p2 := S (length (heap w))) in *.
  exists p1, p2, (cloned w c). split; [done|]. split; [done|]. cbv zeta.
  set (w1 := cloned w c) in *.
  set (w2 := run (Emit input <$> (EvData <$> post)) w1).
  destruct (live_cloned w c Hw) as [H1 H2]. fold p1 w1 in H1. fold p2 w1 in H2.
  destruct (tee_events w1 input c p1 p2 [] [] (EvData <$> post)) as [L1 L2]; try done.
  { eexists. split; [done|]. set_solver. }
  { apply EvEnd_not_data. }
  fold w2 in L1, L2. rewrite data_of_events_data in L1, L2. simpl in L1, L2.
  pose proof (run_emit_grows w1 input (EvData <$> post)) as Hg. fold w2 in Hg.
  assert (wf w2) as Hw2 by (by eapply wf_grows).
  assert (buffered w2 = Some p2) as Hb2 by (by rewrite (g_buffered _ _ Hg)).
  (* the cells and the table of the first pair of branches *)
  assert (cell_of (heap w2) p1 = Some (length (states w))) as Hs1.
  { rewrite (grows_cell_of w1) by done. unfold w1. rewrite cell_of_cloned.
    by rewrite decide_True. }
  assert (cell_of (heap w2) p2 = Some (S (length (states w)))) as Hs2.
  { rewrite (grows_cell_of w1) by done. unfold w1. rewrite cell_of_cloned.
    rewrite decide_False by (unfold p1, p2; lia). by rewrite decide_True. }
  assert (table_of (heap w2) p2 = Some (S (length (tables w)))) as Ht2.
  { rewrite (grows_table_of w1) by done. unfold w1. rewrite table_of_cloned.
    rewrite decide_False by (unfold p1, p2; lia). by rewrite decide_True. }
  assert (tables w2 !! S (length (tables w)) = Some []) as Hls2.
  { rewrite (g_tables _ _ Hg). unfold w1. simpl.
    rewrite lookup_app_r by (rewrite length_alter; lia).
    rewrite length_alter.
    replace (S (length (tables w)) - length (tables w)) with 1 by lia. done. }
  assert (length (states w2) = S (S (length (states w)))) as Hlen2.
  { rewrite (g_states _ _ Hg). unfold w1. simpl. rewrite length_app. simpl. lia. }
  (* the second clone *)
  destruct (cloneBodyStream_spec w2 Hw2)
    as (c2 & ls2 & Hc2 & Hls2' & Hok2 & Hw3 & Hc3 & Hls3).
  rewrite Hb2 in Hc2, Hc3. simpl in Hc2, Hc3.
  assert (c2 = S (length (tables w))) as -> by congruence.
  assert (ls2 = []) as -> by congruence. simpl in Hls3.
  set (q1 := length (heap w2)) in *. set (q2 := S (length (heap w2))) in *.
  exists q1, q2, (cloned w2 (S (length (tables w)))).
  split; [done|]. split; [done|].
  set (w3 := cloned w2 (S (length (tables w)))) in *.
  destruct (live_cloned w2 (S (length (tables w))) Hw2) as [K1 K2].
  fold q1 w3 in K1. fold q2 w3 in K2.
  split; [by apply (live_state_at _ _ _ K1)|].
  split; [by apply (live_state_at _ _ _ K2)|].
  (* what the kept branch and the branch handed out hold *)
  destruct L1 as (s1 & st1 & Hs1' & Hst1 & Hbuf1 & _).
  destruct L2 as (s2 & st2 & Hs2' & Hst2 & Hbuf2 & _).
  assert (s1 = length (states w)) as -> by congruence.
  assert (s2 = S (length (states w))) as -> by congruence.
  assert (p1 < length (heap w2)) as Hp1 by (by eapply cell_of_lt).
  assert (p2 < length (heap w2)) as Hp2 by (by eapply cell_of_lt).
  assert (cell_of (heap w3) p1 = Some (length (states w))) as Hs13
    by (unfold w3; by rewrite cell_of_cloned_old).
  assert (cell_of (heap w3) p2 = Some (S (length (states w)))) as Hs23
    by (unfold w3; by rewrite cell_of_cloned_old).
  assert (states w3 !! length (states w) = Some st1) as Hst13
    by (by apply lookup_app_l_Some).
  assert (states w3 !! S (length (states w)) = Some st2) as Hst23
    by (by apply lookup_app_l_Some).
  destruct (flow_all_frame w3 p2 (S (length (tables w))) (S (length (states w)))
              [TeeData q1 q2; TeeEnd q1 q2] q1 q2 st2 post [] [] (length (states w)))
    as (Hg4 & F1 & F2 & (st' & Hst' & Hbuf') & Hfr); try done.
  { set_solver. }
  { assert (cell_of (heap w3) q1 = Some (length (states w2))) as Hq1.
    { unfold w3. rewrite cell_of_cloned. by rewrite decide_True. }
    assert (cell_of (heap w3) q2 = Some (S (length (states w2)))) as Hq2.
    { unfold w3. rewrite cell_of_cloned.
      rewrite decide_False by (unfold q1, q2; lia). by rewrite decide_True. }
    intros (q & Hq & Hcq)%list_elem_of_omap.
    apply list_elem_of_bind in Hq as (l & Hql & Hl).
    apply elem_of_cons in Hl as [->|Hl].
    - apply elem_of_cons in Hql as [->|Hql].
      + rewrite Hq1 in Hcq. injection Hcq. lia.
      + apply list_elem_of_singleton in Hql as ->.
        rewrite Hq2 in Hcq. injection Hcq. lia.
    - apply list_elem_of_singleton in Hl as ->. by apply elem_of_nil in Hql. }
  simpl in F1, F2.
  set (w4 := run (replicate (length post) (Flow p2)) w3) in *.
  split; [by apply (live_state_at _ _ _ F1)|].
  split; [by apply (live_state_at _ _ _ F2)|].
  split.
  - unfold state_at. rewrite (grows_cell_of w3) by done. by rewrite Hs23, Hst'.
  - unfold state_at. rewrite (grows_cell_of w3) by done.
    by rewrite Hs13, Hfr, Hst13.
Qed.

Lemma second_clone_replays_the_first_witness :
  ∃ p1 p2 w1,
    cloneBodyStream (incoming "/") = (Ok p1, w1) ∧ buffered w1 = Some p2 ∧
    ∃ q1 w3,
      cloneBodyStream (run (Emit 0 <$> (EvData <$> [["a"%byte]; ["b"%byte]])) w1)
      = (Ok q1, w3) ∧
      buffer (state_at (run (replicate 2 (Flow p2)) w3) q1) = [["a"%byte]; ["b"%byte]].
Proof.
  destruct (second_clone_replays_the_first (incoming "/") [["a"%byte]; ["b"%byte]])
    as (p1 & p2 & w1 & Hc1 & Hb1 & q1 & q2 & w3 & Hc2 & _ & _ & _ & Hq1 & _).
  - apply wf_incoming.
  - exists p1, p2, w1. split; [exact Hc1|]. split; [exact Hb1|].
    exists q1, w3. split; [exact Hc2|exact Hq1].
Defined.

End BodyPromise.

(** ** The cloneable body of a request *)

Section BodyOfARequest.
Import Body.

Lemma data_targets_plain (ls : list listener) :
  (∀ l, l ∈ ls → l = Resolve ∨ l = Reject) → data_targets ls = [].
Proof.
  induction ls as [|l ls IH]; intros H; [done|].
  unfold data_targets in *. rewrite bind_cons, IH.
  - destruct (H l) as [-> | ->]; [by left|done..].
  - intros l' Hl'. apply H. by right.
Qed.

(** X18: [getCloneableBody] on a request registers the 'end' and the 'error'
    listener of its promise on the stream, in that order and after the
    listeners already there, and does nothing else: the objects and what
    the streams hold are as before, the promise is pending, no clone is
    kept. The world it makes is well formed, so that what is proved of
    well-formed worlds holds of every request. *)
Theorem getCloneableBody_registers_its_listeners
    (rd : ref) (h : JS.heap) (t : list (list listener)) (s : list rstate) (c : nat) :
  request rd h t s → table_of h rd = Some c →
  getCloneableBody rd h t s
  = {| heap := h; tables := alter (λ ls, ls ++ [Resolve; Reject]) c t;
       states := s; readable := rd; buffered := None; settled := Pending;
       finalizers := [] |} ∧
  wf (getCloneableBody rd h t s).
Proof.
  intros [Hon Hcell Ht Hs Hl] Hc.
  assert (getCloneableBody rd h t s
          = {| heap := h; tables := alter (λ ls, ls ++ [Resolve; Reject]) c t;
               states := s; readable := rd; buffered := None; settled := Pending;
               finalizers := [] |}) as E.
  { unfold getCloneableBody, and_then.
    rewrite (on_ok _ rd c) by done.
    rewrite (on_ok _ rd c) by done. simpl.
    rewrite list_alter_alter_eq. unfold set_tables. simpl. f_equal.
    apply list_alter_ext; [|done]. intros ls _. simpl. by rewrite <- app_assoc. }
  split; [done|]. rewrite E. clear E.
  assert (c < length t) as Hlt by (by eapply Ht).
  destruct (lookup_lt_is_Some_2 t c Hlt) as [ls0 Hls0].
  assert (∀ c' ls l, alter (λ ls, ls ++ [Resolve; Reject]) c t !! c' = Some ls →
                     l ∈ ls → l = Resolve ∨ l = Reject) as Hl'.
  { intros c' ls l Hc' Hin. destruct (decide (c' = c)) as [->|Hne].
    - rewrite list_lookup_alter_eq, Hls0 in Hc'. injection Hc' as <-.
      apply elem_of_app in Hin as [Hin|Hin]; [by eapply Hl|]. set_solver.
    - rewrite list_lookup_alter_ne in Hc' by done. by eapply Hl. }
  split; simpl.
  - split_and!; [by eexists|done|done].
  - done.
  - intros r c' Hc'. rewrite length_alter. by eapply Ht.
  - done.
  - intros c' ls l q Hc' Hin Hq. destruct (Hl' c' ls l Hc' Hin) as [-> | ->];
      by apply elem_of_nil in Hq.
  - intros c' ls Hc'. rewrite data_targets_plain; [constructor|].
    intros l Hin. by eapply Hl'.
  - intros r c' s' ls _ _ Hc'. rewrite data_targets_plain; [apply not_elem_of_nil|].
    intros l Hin. by eapply Hl'.
  - intros _. split; [done|]. exists c, (ls0 ++ [Resolve; Reject]).
    split_and!; [done| |set_solver..].
    by rewrite list_lookup_alter_eq, Hls0.
Qed.

Lemma getCloneableBody_registers_its_listeners_witness :
  tables (getCloneableBody 0 [incoming_message 0 0 "/"] [[]] [fresh_rstate])
  = [[Resolve; Reject]].
Proof.
  destruct (getCloneableBody_registers_its_listeners
              0 [incoming_message 0 0 "/"] [[]] [fresh_rstate] 0) as [E _].
  - split.
    + reflexivity.
    + eexists. reflexivity.
    + intros r c Hc. pose proof (table_of_lt _ _ _ Hc) as Hr. simpl in Hr.
      destruct r; [|lia]. vm_compute in Hc. injection Hc as <-. simpl. lia.
    + intros r c Hc. pose proof (cell_of_lt _ _ _ Hc) as Hr. simpl in Hr.
      destruct r; [|lia]. vm_compute in Hc. injection Hc as <-. simpl. lia.
    + intros c ls l Hc Hin. destruct c; [|done]. injection Hc as <-.
      by apply elem_of_nil in Hin.
  - reflexivity.
  - rewrite E. reflexivity.
Defined.

(** X19: a clone taken only after the original stream has ended comes too
    late: the listeners it registers are never called, so both branches are
    and stay empty and open; [finalize] is resolved all the same and
    substitutes the kept branch, after which the original stream object
    holds nothing and is not ended. *)
Theorem clone_after_the_end_is_empty (w : world) :
  wf w → settled w = Fulfilled → buffered w = None →
  ∃ p1 w1,
    cloneBodyStream w = (Ok p1, w1) ∧
    (buffer (state_at w1 p1) = [] ∧ ended (state_at w1 p1) = false) ∧
    (finalize w1).1 = Resolved ∧
    buffered (finalize w1).2 = Some (readable w) ∧
    buffer (state_at (finalize w1).2 (readable w)) = [] ∧
    ended (state_at (finalize w1).2 (readable w)) = false.
Proof.
  intros Hw Hs Hb.
  destruct (cloneBodyStream_spec w Hw) as (c & ls & Hc & Hls & Hok & Hw1 & Hc1 & Hls1).
  exists (length (heap w)), (cloned w c). split; [done|].
  destruct (live_cloned w c Hw) as [H1 H2].
  destruct (live_state_at _ _ _ H1) as (B1 & E1 & _).
  destruct (live_state_at _ _ _ H2) as (B2 & E2 & _).
  split; [done|].
  rewrite (finalize_fulfilled (cloned w c) (S (length (heap w)))) by done.
  cbn [fst snd]. split; [done|]. split; [done|].
  destruct (stream_of_finalized (cloned w c) (S (length (heap w))) Hw1 eq_refl)
    as [_ Hcell].
  change (readable (cloned w c)) with (readable w) in Hcell.
  assert (state_at (finalized (cloned w c) (S (length (heap w)))) (readable w)
          = state_at (cloned w c) (S (length (heap w)))) as ->.
  { unfold state_at. by rewrite Hcell. }
  done.
Qed.

Lemma clone_after_the_end_is_empty_witness :
  ∃ p1 w1,
    cloneBodyStream (run [Emit 0 EvEnd] (incoming "/")) = (Ok p1, w1) ∧
    buffer (state_at (finalize w1).2 0) = [] ∧
    ended (state_at (finalize w1).2 0) = false.
Proof.
  destruct (clone_after_the_end_is_empty (run [Emit 0 EvEnd] (incoming "/")))
    as (p1 & w1 & Hc & _ & _ & _ & Hb & He).
  - apply wf_reachable.
  - reflexivity.
  - reflexivity.
  - exists p1, w1. split; [exact Hc|]. split; [exact Hb|exact He].
Defined.

End BodyOfARequest.

(** ** Streamable *)

Section StreamableFacts.
Import CancelRequest.

Lemma counted_S n : counted (S n) = counted n ++ [encode (String_of n)].
Proof. unfold counted. by rewrite seq_S, fmap_app. Qed.

Lemma counting_start : counting (Streamable true).
Proof. split; simpl; try done; try lia; auto. Qed.

Lemma counting_step e s : counting s → counting (step e s).
Proof.
  intros [Hw He Hi Hb Hc Hr Hs Htk Hcu].
  destruct s as [w n cu ab enq cr can tk sl pr]. simpl in *. subst w.
  destruct e; simpl.
  - destruct sl, cr, can; simpl; split; simpl; first [done | lia | naive_solver].
  - destruct sl; [|by split]. destruct cr; [by specialize (Hs eq_refl)|].
    unfold pull_resume. cbn -[Nat.leb]. destruct can; cbn -[Nat.leb].
    + split; simpl; first [done | lia | naive_solver lia].
    + destruct Hr as [->|(? & ? & ?)]; [|done].
      assert (n = length enq) as -> by lia.
      symmetry in Hc. apply bool_decide_eq_false in Hc.
      destruct (25 <=? S (length enq)) eqn:Hle.
      * apply Nat.leb_le in Hle.
        split; simpl; rewrite ?length_app; simpl; try done.
        -- rewrite Nat.add_1_r, counted_S. by rewrite <- He.
        -- lia.
        -- lia.
        -- symmetry. apply bool_decide_eq_true. lia.
        -- auto.
        -- lia.
        -- by rewrite Hcu.
      * apply Nat.leb_gt in Hle.
        split; simpl; rewrite ?length_app; simpl; try done.
        -- rewrite Nat.add_1_r, counted_S. by rewrite <- He.
        -- lia.
        -- lia.
        -- symmetry. apply bool_decide_eq_false. lia.
        -- auto.
        -- lia.
  - unfold take_chunk. simpl. destruct can; [by split|].
    destruct (Nat.ltb_spec tk (length enq)); [|by split].
    split; simpl; (done || lia).
  - unfold stream_closed. simpl. destruct can; [by split|]. simpl.
    destruct (cr && (tk =? length enq)); [by split|].
    split; simpl; try done.
    + destruct Hr as [->|(? & ? & ?)]; [by left|done].
    + rewrite Hcu. by destruct cr.
  - by split.
Qed.

Lemma counting_run tr s : counting s → counting (run tr s).
Proof.
  revert s. induction tr as [|e tr IH]; intros s Hs; [done|].
  simpl. apply IH. by apply counting_step.
Qed.

(** The source's [cancel()] is called by a cancellation of a stream that is
    not closed, and by nothing else. *)
Lemma Resolves_step e s :
  Resolves ∈ cleanedUp (step e s)
  ↔ Resolves ∈ cleanedUp s ∨ (e = Cancel ∧ stream_closed s = false).
Proof.
  destruct s as [w n cu ab enq cr can tk sl pr].
  destruct e; simpl.
  - destruct (sl || cr || can); [naive_solver|]. unfold pull_call. simpl.
    destruct w; naive_solver.
  - destruct sl; [|naive_solver]. unfold pull_resume. cbn -[Nat.leb].
    destruct (cr || can); cbn -[Nat.leb]; [naive_solver|].
    destruct (25 <=? S n); simpl; [|naive_solver].
    rewrite elem_of_app, list_elem_of_singleton. naive_solver.
  - unfold take_chunk. simpl. destruct can; [naive_solver|].
    destruct (tk <? length enq); naive_solver.
  - destruct (stream_closed _) eqn:E; [naive_solver|].
    simpl. rewrite elem_of_app, list_elem_of_singleton. naive_solver.
  - naive_solver.
Qed.

Lemma Resolves_run tr s :
  Resolves ∈ cleanedUp (run tr s)
  ↔ Resolves ∈ cleanedUp s ∨
    ∃ pre post, tr = pre ++ Cancel :: post ∧ stream_closed (run pre s) = false.
Proof.
  revert s. induction tr as [|e tr IH]; intros s.
  - simpl. split; [by left|]. intros [?|(pre & post & E & _)]; [done|].
    by destruct pre.
  - simpl. rewrite IH, Resolves_step. split.
    + intros [[?|[-> Hc]]|(pre & post & -> & Hc)].
      * by left.
      * right. by exists [], tr.
      * right. by exists (e :: pre), post.
    + intros [?|(pre & post & E & Hc)]; [by left; left|].
      destruct pre as [|e' pre]; simpl in *; simplify_eq.
      * left. by right.
      * right. by exists pre, post.
Qed.

(** A stream that was closed stays closed. *)
Lemma stream_closed_step e s :
  counting s → stream_closed s = true → stream_closed (step e s) = true.
Proof.
  intros [Hw He Hi Hb Hc Hr Hs Htk Hcu].
  destruct s as [w n cu ab enq cr can tk sl pr]. unfold stream_closed. simpl in *.
  intros Hcl. destruct e; simpl.
  - destruct sl, cr, can, w; simpl in *; done.
  - destruct sl; [|done]. specialize (Hs eq_refl). rewrite Hs in Hcl.
    destruct can; [|by simpl in Hcl]. unfold pull_resume. cbn -[Nat.leb].
    rewrite orb_true_r. done.
  - unfold take_chunk. simpl. destruct can; [done|]. simpl in *.
    apply andb_true_iff in Hcl as [-> Heq]. apply Nat.eqb_eq in Heq.
    destruct (Nat.ltb_spec tk (length enq)); [lia|]. simpl.
    by apply Nat.eqb_eq.
  - unfold stream_closed. simpl. by rewrite Hcl.
  - done.
Qed.

Lemma stream_closed_run tr s :
  counting s → stream_closed s = true → stream_closed (run tr s) = true.
Proof.
  revert s. induction tr as [|e tr IH]; intros s Hs Hcl; [done|].
  simpl. apply IH; [by apply counting_step|by apply stream_closed_step].
Qed.

(** A stream is closed by a cancellation or by the reading of the 25th
    chunk. *)
Lemma stream_closed_iff s :
  counting s →
  stream_closed s = true ↔ Resolves ∈ cleanedUp s ∨ taken s = 25.
Proof.
  intros [Hw He Hi Hb Hc Hr Hs Htk Hcu].
  destruct s as [w n cu ab enq cr can tk sl pr]. unfold stream_closed.
  simpl in *. subst cu.
  destruct can; simpl.
  - split; [intros _; left|done]. destruct cr; set_solver.
  - rewrite andb_true_iff, Nat.eqb_eq. subst cr. rewrite bool_decide_eq_true.
    split.
    + intros [? ?]. right. lia.
    + intros [Hin| ->]; [|lia].
      destruct (bool_decide (length enq = 25)); set_solver.
Qed.

(** X20: whatever the stream, its consumer and the test do to a
    [Streamable] that writes, the chunks it has enqueued are the encoded
    decimal numbers 0, 1, 2, ... in order, at most 25 of them, and its
    consumer has read no more than were enqueued; the controller is closed
    exactly when the 25th was enqueued, and [cleanedUp] is rejected exactly
    then; [cleanedUp] is resolved exactly when the first cancellation by
    the consumer came before the consumer had read the 25th chunk, and it
    is resolved once at most: a stream read to its end is closed, and the
    cancellation of a closed stream does not reach [cancel()]; a closed
    stream stays closed; [i] is the number of chunks enqueued, plus one if
    a call of [pull] was overtaken by the cancellation while it slept (its
    [enqueue] throws, after [i] was incremented). *)
Theorem Streamable_counts (tr : list event) :
  let s := run tr (Streamable true) in
  enqueued s = counted (length (enqueued s)) ∧
  length (enqueued s) ≤ 25 ∧
  taken s ≤ length (enqueued s) ∧
  (closeRequested s = true ↔ length (enqueued s) = 25) ∧
  (Rejects ∈ cleanedUp s ↔ length (enqueued s) = 25) ∧
  (Resolves ∈ cleanedUp s
   ↔ ∃ pre post, tr = pre ++ Cancel :: post ∧ Cancel ∉ pre ∧
                 taken (run pre (Streamable true)) < 25) ∧
  length (filter (λ c, c = Resolves) (cleanedUp s)) ≤ 1 ∧
  (stream_closed s = true ↔ Resolves ∈ cleanedUp s ∨ taken s = 25) ∧
  (stream_closed s = true →
   step Cancel s = s ∧ ∀ e, stream_closed (step e s) = true) ∧
  i s = length (enqueued s) + pull_rejections s ∧
  pull_rejections s ≤ 1 ∧
  (pull_rejections s = 1 → Resolves ∈ cleanedUp s).
Proof.
  intros s.
  assert (∀ tr', counting (run tr' (Streamable true))) as Hall
    by (intros tr'; apply counting_run, counting_start).
  pose proof (Hall tr) as Hcount. fold s in Hcount.
  pose proof Hcount as [Hw He Hi Hb Hc Hr Hs Htk Hcu].
  assert (closeRequested s = true ↔ length (enqueued s) = 25) as Hiff.
  { rewrite Hc. apply bool_decide_eq_true. }
  assert (∀ pre, Cancel ∉ pre → Resolves ∉ cleanedUp (run pre (Streamable true)))
    as Hnone.
  { intros pre Hpre. rewrite Resolves_run. simpl.
    intros [?%elem_of_nil|(p1 & p2 & -> & _)]; [done|]. apply Hpre. set_solver. }
  split_and!; try done.
  - rewrite <- Hiff, Hcu. destruct (closeRequested s), (cancelled s); set_solver.
  - unfold s. rewrite Resolves_run. simpl. split.
    + intros [?%elem_of_nil|(p1 & p2 & E & Hcl)]; [done|].
      assert (Cancel ∈ tr) as Hin by (rewrite E; set_solver).
      apply list_elem_of_split_l in Hin as (pre & post & -> & Hpre).
      exists pre, post. split_and!; [done|done|].
      destruct (decide (taken (run pre (Streamable true)) < 25)) as [|Hge]; [done|].
      exfalso.
      pose proof (ct_taken _ (Hall pre)). pose proof (ct_bound _ (Hall pre)).
      assert (stream_closed (run pre (Streamable true)) = true) as Hclosed.
      { apply stream_closed_iff; [done|]. right. lia. }
      assert (Resolves ∈ cleanedUp (run (pre ++ Cancel :: post) (Streamable true)))
        as Hres.
      { rewrite Resolves_run. right. by exists p1, p2. }
      unfold run in Hres. rewrite foldl_app in Hres.
      fold (run pre (Streamable true)) in Hres.
      fold (run (Cancel :: post) (run pre (Streamable true))) in Hres.
      apply Resolves_run in Hres as [Hres|(q1 & q2 & _ & Hq)].
      * by apply (Hnone pre).
      * rewrite stream_closed_run in Hq; [done|done|done].
    + intros (pre & post & -> & Hpre & Hlt). right. exists pre, post.
      split; [done|].
      destruct (stream_closed (run pre (Streamable true))) eqn:Hcl; [|done].
      apply stream_closed_iff in Hcl as [Hin|Heq]; [|lia|done].
      by apply Hnone in Hin.
  - rewrite Hcu. destruct (closeRequested s), (cancelled s); simpl; lia.
  - by apply stream_closed_iff.
  - intros Hcl. split; [simpl; by rewrite Hcl|].
    intros e. by apply stream_closed_step.
  - destruct Hr as [->|(-> & _)]; lia.
  - intros H1. destruct Hr as [H0|(_ & Hcan & _)]; [lia|].
    rewrite Hcu, Hcan. destruct (closeRequested s); set_solver.
Qed.

Lemma Streamable_counts_witness :
  let s := run (concat (replicate 25 [Pull; Wake; Read])) (Streamable true) in
  step Cancel s = s.
Proof.
  intros s.
  pose proof (Streamable_counts (concat (replicate 25 [Pull; Wake; Read])))
    as (_ & _ & _ & _ & _ & _ & _ & _ & H & _).
  apply H. vm_compute. reflexivity.
Defined.

Lemma pull_wake_step s :
  write s = true → sleeping s = false → cancelled s = false →
  closeRequested s = false → S (i s) < 25 →
  step Wake (step Pull s)
  = {| write := true; i := S (i s); cleanedUp := cleanedUp s; aborted := aborted s;
       enqueued := enqueued s ++ [encode (String_of (i s))];
       closeRequested := false; cancelled := false; taken := taken s;
       sleeping := false; pull_rejections := pull_rejections s |}.
Proof.
  destruct s as [w k cu ab enq cr can tk sl pr]. simpl. intros -> -> -> -> Hlt.
  unfold pull_call, pull_resume. cbn -[Nat.leb].
  destruct (Nat.leb_spec 25 (S k)); [lia|done].
Qed.

Lemma pull_wake_run (n : nat) s :
  counting s → sleeping s = false → cancelled s = false →
  length (enqueued s) + n < 25 →
  let s' := run (concat (replicate n [Pull; Wake])) s in
  enqueued s' = counted (length (enqueued s) + n) ∧
  sleeping s' = false ∧ cancelled s' = false ∧ closeRequested s' = false ∧
  cleanedUp s' = cleanedUp s ∧ aborted s' = aborted s.
Proof.
  revert s. induction n as [|n IH]; intros s Hs Hsl Hcan Hlt.
  - simpl. rewrite Nat.add_0_r. destruct Hs as [_ He _ _ Hc _ _ _ _].
    split_and!; try done. rewrite Hc. apply bool_decide_eq_false. lia.
  - pose proof Hs as [Hw He Hi Hb Hc Hr Hss Htk Hcu].
    assert (closeRequested s = false) as Hcr.
    { rewrite Hc. apply bool_decide_eq_false. lia. }
    assert (pull_rejections s = 0) as Hpr.
    { destruct Hr as [?|(_ & ? & _)]; [done|congruence]. }
    assert (i s = length (enqueued s)) as Hi' by lia.
    pose proof (pull_wake_step s Hw Hsl Hcan Hcr) as E.
    rewrite Hi' in E. specialize (E ltac:(lia)).
    set (s1 := step Wake (step Pull s)) in *.
    assert (counting s1) as Hs1 by (by do 2 apply counting_step).
    assert (enqueued s1 = enqueued s ++ [encode (String_of (length (enqueued s)))] ∧
            sleeping s1 = false ∧ cancelled s1 = false ∧
            cleanedUp s1 = cleanedUp s ∧ aborted s1 = aborted s)
      as (En & Sl & Ca & Cu & Ab) by (by rewrite E).
    clear E.
    assert (length (enqueued s1) = length (enqueued s) + 1) as Hlen
      by (by rewrite En, length_app).
    destruct (IH s1) as (E' & Sl' & Ca' & Cr' & Cu' & Ab'); try done; [lia|].
    change (run (concat (replicate (S n) [Pull; Wake])) s)
      with (run (concat (replicate n [Pull; Wake])) s1).
    cbv zeta. rewrite E', Cu', Ab', Hlen, Cu, Ab.
    replace (length (enqueued s) + S n) with (length (enqueued s) + 1 + n) by lia.
    done.
Qed.

(** X21: a [Streamable] that writes and is left alone: after [n < 25]
    settled calls of [pull] it has enqueued the numbers below [n], is open
    and has touched neither [Deferred]; the 25th call enqueues 24, rejects
    [cleanedUp] and closes the controller; [abort()] resolves [aborted] and
    nothing else. *)
Theorem Streamable_writes_25_chunks (n : nat) :
  n < 25 →
  let s := run (concat (replicate n [Pull; Wake])) (Streamable true) in
  (enqueued s = counted n ∧ closeRequested s = false ∧
   cleanedUp s = [] ∧ aborted s = []) ∧
  let s25 := run (concat (replicate 25 [Pull; Wake])) (Streamable true) in
  enqueued s25 = counted 25 ∧ closeRequested s25 = true ∧
  cleanedUp s25 = [Rejects] ∧ i s25 = 25 ∧
  aborted (step Abort s25) = [Resolves] ∧ cleanedUp (step Abort s25) = [Rejects].
Proof.
  intros Hn. split.
  - destruct (pull_wake_run n (Streamable true) counting_start eq_refl eq_refl Hn)
      as (E & _ & _ & Cr & Cu & Ab).
    by split_and!.
  - vm_compute. done.
Qed.

Lemma Streamable_writes_25_chunks_witness :
  enqueued (run (concat (replicate 3 [Pull; Wake])) (Streamable true))
  = [["0"%byte]; ["1"%byte]; ["2"%byte]].
Proof.
  destruct (Streamable_writes_25_chunks 3) as [[H _] _]; [lia|].
  rewrite H. reflexivity.
Defined.

(** What holds of a [Streamable] that does not write. *)
Lemma idle_step e s :
  write s = false → enqueued s = [] → i s = 0 → closeRequested s = false →
  sleeping s = false → (Rejects ∉ cleanedUp s) →
  write (step e s) = false ∧ enqueued (step e s) = [] ∧ i (step e s) = 0 ∧
  closeRequested (step e s) = false ∧ sleeping (step e s) = false ∧
  (Rejects ∉ cleanedUp (step e s)).
Proof.
  intros Hw He Hi Hc Hs Hr. destruct s as [w k cu ab enq cr can tk sl pr].
  simpl in *. subst.
  unfold stream_closed, take_chunk.
  destruct e, can; simpl; split_and!; try done.
  set_solver.
Qed.

(** X22: a [Streamable] made with [write] false never enqueues a chunk,
    never closes its stream and never rejects [cleanedUp], however often
    the stream calls [pull]: whoever reads it waits until the stream is
    cancelled. *)
Theorem Streamable_without_write_is_silent (tr : list event) :
  let s := run tr (Streamable false) in
  enqueued s = [] ∧ i s = 0 ∧ closeRequested s = false ∧ (Rejects ∉ cleanedUp s).
Proof.
  cbv zeta.
  assert (∀ s, write s = false → enqueued s = [] → i s = 0 →
               closeRequested s = false → sleeping s = false →
               (Rejects ∉ cleanedUp s) →
               enqueued (run tr s) = [] ∧ i (run tr s) = 0 ∧
               closeRequested (run tr s) = false ∧ (Rejects ∉ cleanedUp (run tr s))) as H.
  { induction tr as [|e tr IH]; intros s Hw He Hi Hc Hs Hr; [done|].
    destruct (idle_step e s) as (? & ? & ? & ? & ? & ?); try done.
    simpl. by apply IH. }
  apply H; try done. simpl. set_solver.
Qed.

(** X23: a [Streamable] cancelled before its 25th chunk: [cleanedUp] is
    resolved and never rejected, no chunk is enqueued afterwards, and [i]
    exceeds the number of chunks enqueued by at most one, whatever happens
    next. *)
Theorem Streamable_cancelled_early (pre post : list event) :
  let s0 := run pre (Streamable true) in
  closeRequested s0 = false → cancelled s0 = false →
  let s := run (pre ++ Cancel :: post) (Streamable true) in
  cleanedUp s = [Resolves] ∧
  enqueued s = enqueued s0 ∧
  (i s = length (enqueued s0) ∨ i s = S (length (enqueued s0))).
Proof.
  intros s0 Hc0 Hcan0 s.
  assert (counting s0) as Hs0 by apply counting_run, counting_start.
  assert (s = run post (step Cancel s0)) as ->.
  { unfold s, s0, run. by rewrite foldl_app. }
  assert (counting (step Cancel s0)) as Hs1 by (by apply counting_step).
  assert (cancelled (step Cancel s0) = true ∧ closeRequested (step Cancel s0) = false ∧
          enqueued (step Cancel s0) = enqueued s0) as (Hcan & Hcr & Henq).
  { simpl. unfold stream_closed. by rewrite Hcan0, Hc0. }
  clear Hs0 Hc0 Hcan0. revert Hs1 Hcan Hcr Henq.
  generalize (step Cancel s0). intros s.
  revert s. induction post as [|e post IH]; intros s Hs Hcan Hcr Henq.
  - simpl. destruct Hs as [Hw He Hi Hb Hc Hr Hss Htk Hcu].
    rewrite Hcu, Hcr, Hcan, Hi, Henq.
    split_and!; try done. destruct Hr as [->|(-> & _)]; [left|right]; lia.
  - simpl. apply IH.
    + by apply counting_step.
    + destruct s as [w k cu ab enq cr can tk sl pr]. simpl in *. subst.
      destruct e, sl; unfold pull_resume; cbn -[Nat.leb]; done.
    + destruct s as [w k cu ab enq cr can tk sl pr]. simpl in *. subst.
      destruct e, sl; unfold pull_resume; cbn -[Nat.leb]; done.
    + rewrite <- Henq.
      destruct s as [w k cu ab enq cr can tk sl pr]. simpl in *. subst.
      destruct e, sl; unfold pull_resume; cbn -[Nat.leb]; done.
Qed.

Lemma Streamable_cancelled_early_witness :
  let s := run ([Pull; Wake; Pull] ++ Cancel :: [Wake; Pull]) (Streamable true) in
  cleanedUp s = [Resolves] ∧ enqueued s = [["0"%byte]] ∧ i s = 2.
Proof.
  destruct (Streamable_cancelled_early [Pull; Wake; Pull] [Wake; Pull])
    as (H1 & H2 & _); [reflexivity..|].
  split_and!; [exact H1|rewrite H2; reflexivity|reflexivity].
Defined.

End StreamableFacts.
